(** * V2V-simulation: interference graph, vehicle motion and tick driver

    A shallow embedding of the simulation core of the repository
    (src/interference_graph.cpp, src/vehicule.cpp, src/simulator.cpp,
    src/graph_builder.cpp) together with the properties stated about it.

    Conventions of the embedding.
    - [int] identifiers and counters are integers of [Z]; where the source
      converts between [int] and [size_t] the wrap-around is written out
      ([to_size_t], [to_int]).  The counters of comparisons are only
      incremented, and are not followed beyond the range of [int], where the
      source has no defined behaviour.
    - [double] values are exact rationals of [Q]: rounding, infinities and
      NaN are outside the model.  Comparisons are the boolean tests of the
      source ([<=], [<], [>], [>=]).  The heading block of [Vehicule::update],
      whose last step depends on the rounding, is given a second time on
      binary64 floating-point numbers ([updateHeadingDouble]).
    - The libm functions ([sin], [cos], [sqrt], [atan2]) are parameters of the
      development (variables of the section [Model]).
    - [std::unordered_map] is [gmap], [std::unordered_set] and [std::set] are
      [gset]; a traversal of such a container visits [map_to_list] or
      [elements], whose order is as unspecified as the source's.
    - [rand()] reads a stream of naturals that is threaded through the
      functions that call it. *)

From Stdlib Require Import QArith Qabs Qround Qminmax Lqa ZArith Lia.
From Stdlib Require Import Floats.
From stdpp Require Import gmap strings list fin_maps fin_sets relations.

Local Open Scope Z_scope.

#[local] Set Default Proof Using "Type*".

(** Decimal constants of type [double] denote the nearest binary64 number,
    as in the source. *)
#[local] Set Warnings "-inexact-float".

(** ** Numbers *)

(** [size_t idx = i] for an [int i]: conversion modulo 2^64. *)
Definition to_size_t (z : Z) : Z := z mod 2 ^ 64.

(** [int] from a [size_t] (the [push_back(i)] of an index into a
    [std::vector<int>]): two's complement on 32 bits. *)
Definition to_int (z : Z) : Z := (z + 2 ^ 31) mod 2 ^ 32 - 2 ^ 31.

(** The comparisons of the source on [double]. *)
Definition Qleb (x y : Q) : bool := Qle_bool x y.
Definition Qltb (x y : Q) : bool := negb (Qle_bool y x).
Definition Qgtb (x y : Q) : bool := Qltb y x.
Definition Qgeb (x y : Q) : bool := Qleb y x.

(** [M_PI] as vehicule.cpp defines it. *)
Definition M_PI : Q := 3.14159265358979323846%Q.

(** A source of [rand()] results: the stream of the values the next calls
    return. *)
Definition Rng : Type := nat → nat.
Definition rand (r : Rng) : nat * Rng := (r 0%nat, λ n, r (S n)).

(** ** The road graph *)

Definition Vertex : Type := nat.

(** Modelled from the spec: the declarations of graph_types.h ([RoadGraph],
    its vertex and edge bundles) are not part of the sources; section 3 of
    the specification gives a vertex an id and a latitude and longitude, and
    an edge its end points, its length in metres, its road class and its
    one-way flag. *)
Module VertexData.
Record t : Type := mk { id : Z; lat : Q; lon : Q }.
End VertexData.

(** Modelled from the spec: the edge bundle of graph_types.h, with the end
    points the edge descriptor gives ([boost::source], [boost::target]). *)
Module Edge.
Record t : Type := mk {
  source : Vertex;
  target : Vertex;
  distance : Q;
  oneway : bool;
  type : string
}.
End Edge.

(** Modelled from the spec: the [RoadGraph] of graph_types.h, a directed
    graph; a vertex descriptor is a position of [vertices]. *)
Module RoadGraph.
Record t : Type := mk { vertices : list VertexData.t; edges : list Edge.t }.
End RoadGraph.

(** [Edge()]: the default-constructed edge descriptor. *)
Definition defaultEdge : Edge.t := Edge.mk 0%nat 0%nat 0%Q false "".

(** [graph[v]] *)
Definition vertexAt (g : RoadGraph.t) (v : Vertex) : VertexData.t :=
  nth v (RoadGraph.vertices g) (VertexData.mk 0 0%Q 0%Q).

(** [boost::out_edges(v, graph)] *)
Definition out_edges (v : Vertex) (g : RoadGraph.t) : list Edge.t :=
  filter (λ e, Edge.source e = v) (RoadGraph.edges g).

(** ** Vehicule (vehicule.h, vehicule.cpp) *)

(** The members of the class that the functions below read or write, in the
    order of the class; the reference to the shared road graph is an
    argument of these functions.  Left out: [neighbors] and [route],
    [destReached], [slowFactor], [previousLat] and [previousLon]. *)
Module Vehicule.
Record t : Type := mk {
  id : Z;
  start : Vertex;
  goal : Vertex;
  nextVertex : Vertex;
  currEdge : Edge.t;
  previousVertex : Vertex;
  collisionDist : Q;
  transmissionRange : Q;
  speed : Q;
  recentVertices : list Vertex;
  stuckCounter : Z;
  currVertex : Vertex;
  edgeLength : Q;
  positionOnEdge : Q;
  currentHeading : Q;
  targetHeading : Q;
  headingSmoothingFactor : Q
}.

Definition set_start (x : Vertex) (v : t) : t :=
    mk (id v) x (goal v) (nextVertex v) (currEdge v) (previousVertex v)
       (collisionDist v) (transmissionRange v) (speed v) (recentVertices v)
       (stuckCounter v) (currVertex v) (edgeLength v) (positionOnEdge v)
       (currentHeading v) (targetHeading v) (headingSmoothingFactor v).
Definition set_goal (x : Vertex) (v : t) : t :=
    mk (id v) (start v) x (nextVertex v) (currEdge v) (previousVertex v)
       (collisionDist v) (transmissionRange v) (speed v) (recentVertices v)
       (stuckCounter v) (currVertex v) (edgeLength v) (positionOnEdge v)
       (currentHeading v) (targetHeading v) (headingSmoothingFactor v).
Definition set_nextVertex (x : Vertex) (v : t) : t :=
    mk (id v) (start v) (goal v) x (currEdge v) (previousVertex v)
       (collisionDist v) (transmissionRange v) (speed v) (recentVertices v)
       (stuckCounter v) (currVertex v) (edgeLength v) (positionOnEdge v)
       (currentHeading v) (targetHeading v) (headingSmoothingFactor v).
Definition set_currEdge (x : Edge.t) (v : t) : t :=
    mk (id v) (start v) (goal v) (nextVertex v) x (previousVertex v)
       (collisionDist v) (transmissionRange v) (speed v) (recentVertices v)
       (stuckCounter v) (currVertex v) (edgeLength v) (positionOnEdge v)
       (currentHeading v) (targetHeading v) (headingSmoothingFactor v).
Definition set_previousVertex (x : Vertex) (v : t) : t :=
    mk (id v) (start v) (goal v) (nextVertex v) (currEdge v) x
       (collisionDist v) (transmissionRange v) (speed v) (recentVertices v)
       (stuckCounter v) (currVertex v) (edgeLength v) (positionOnEdge v)
       (currentHeading v) (targetHeading v) (headingSmoothingFactor v).
Definition set_recentVertices (x : list Vertex) (v : t) : t :=
    mk (id v) (start v) (goal v) (nextVertex v) (currEdge v) (previousVertex v)
       (collisionDist v) (transmissionRange v) (speed v) x
       (stuckCounter v) (currVertex v) (edgeLength v) (positionOnEdge v)
       (currentHeading v) (targetHeading v) (headingSmoothingFactor v).
Definition set_stuckCounter (x : Z) (v : t) : t :=
    mk (id v) (start v) (goal v) (nextVertex v) (currEdge v) (previousVertex v)
       (collisionDist v) (transmissionRange v) (speed v) (recentVertices v)
       x (currVertex v) (edgeLength v) (positionOnEdge v)
       (currentHeading v) (targetHeading v) (headingSmoothingFactor v).
Definition set_currVertex (x : Vertex) (v : t) : t :=
    mk (id v) (start v) (goal v) (nextVertex v) (currEdge v) (previousVertex v)
       (collisionDist v) (transmissionRange v) (speed v) (recentVertices v)
       (stuckCounter v) x (edgeLength v) (positionOnEdge v)
       (currentHeading v) (targetHeading v) (headingSmoothingFactor v).
Definition set_edgeLength (x : Q) (v : t) : t :=
    mk (id v) (start v) (goal v) (nextVertex v) (currEdge v) (previousVertex v)
       (collisionDist v) (transmissionRange v) (speed v) (recentVertices v)
       (stuckCounter v) (currVertex v) x (positionOnEdge v)
       (currentHeading v) (targetHeading v) (headingSmoothingFactor v).
Definition set_positionOnEdge (x : Q) (v : t) : t :=
    mk (id v) (start v) (goal v) (nextVertex v) (currEdge v) (previousVertex v)
       (collisionDist v) (transmissionRange v) (speed v) (recentVertices v)
       (stuckCounter v) (currVertex v) (edgeLength v) x
       (currentHeading v) (targetHeading v) (headingSmoothingFactor v).
Definition set_currentHeading (x : Q) (v : t) : t :=
    mk (id v) (start v) (goal v) (nextVertex v) (currEdge v) (previousVertex v)
       (collisionDist v) (transmissionRange v) (speed v) (recentVertices v)
       (stuckCounter v) (currVertex v) (edgeLength v) (positionOnEdge v)
       x (targetHeading v) (headingSmoothingFactor v).
Definition set_targetHeading (x : Q) (v : t) : t :=
    mk (id v) (start v) (goal v) (nextVertex v) (currEdge v) (previousVertex v)
       (collisionDist v) (transmissionRange v) (speed v) (recentVertices v)
       (stuckCounter v) (currVertex v) (edgeLength v) (positionOnEdge v)
       (currentHeading v) x (headingSmoothingFactor v).
End Vehicule.

(** The constructor: the members it does not initialise ([nextVertex],
    [previousVertex], whose values are indeterminate in the source) are
    arguments here; the others take their in-class defaults. *)
Definition newVehicule (id : Z) (start goal : Vertex) (speed range collisionDist : Q)
    (nextVertex previousVertex : Vertex) : Vehicule.t :=
  Vehicule.mk id start goal nextVertex defaultEdge previousVertex collisionDist
    range speed [] 0 start 0%Q 0%Q 0%Q 0%Q 0.15%Q.

Definition MAX_HISTORY : nat := 8.

Definition validRoadTypes : list string :=
  ["motorway"; "trunk"; "primary"; "secondary"; "tertiary";
   "motorway_link"; "trunk_link"; "primary_link"; "secondary_link";
   "tertiary_link"; "unclassified"; "road"]%string.

Definition isValidRoad (type : string) : bool :=
  bool_decide (type ∈ validRoadTypes).

Definition hasValidOutgoingEdge (v : Vertex) (g : RoadGraph.t) : bool :=
  existsb (λ e, isValidRoad (Edge.type e)) (out_edges v g).

Definition isValidVertex (v : Vertex) (g : RoadGraph.t) : bool :=
  existsb (λ e, isValidRoad (Edge.type e)) (out_edges v g).

(** [Vehicule::DestReached] *)
Definition DestReached (v : Vehicule.t) : Vehicule.t :=
  Vehicule.set_edgeLength 0%Q
    (Vehicule.set_goal (Vehicule.start v) (Vehicule.set_start (Vehicule.goal v) v)).

(** The three buckets the first loop of [pickNextEdge] fills. *)
Record EdgeBuckets : Type := mkBuckets {
  validEdges : list Edge.t;
  lessPreferredEdges : list Edge.t;
  backEdge : option Edge.t   (* [hasBackEdge] with the edge it holds *)
}.

Definition classifyEdge (v : Vehicule.t) (b : EdgeBuckets) (e : Edge.t) : EdgeBuckets :=
  let target := Edge.target e in
  if negb (isValidRoad (Edge.type e)) then b
  else
    let isRecentlyVisited := bool_decide (target ∈ Vehicule.recentVertices v) in
    if bool_decide (target = Vehicule.previousVertex v) then
      mkBuckets (validEdges b) (lessPreferredEdges b) (Some e)
    else if isRecentlyVisited then
      mkBuckets (validEdges b) (lessPreferredEdges b ++ [e]) (backEdge b)
    else
      mkBuckets (validEdges b ++ [e]) (lessPreferredEdges b) (backEdge b).

(** [v[rand() % v.size()]] on a non-empty vector. *)
Definition pickRandom {A : Type} (d : A) (l : list A) (r : Rng) : A * Rng :=
  let '(x, r') := rand r in (nth (x mod length l)%nat l d, r').

(** The tail common to the three branches that selected an edge. *)
Definition applySelectedEdge (selectedEdge : Edge.t) (v : Vehicule.t) : Vehicule.t :=
  let recent := Vehicule.recentVertices v ++ [Vehicule.currVertex v] in
  let recent := if (MAX_HISTORY <? length recent)%nat then tail recent else recent in
  let v := Vehicule.set_recentVertices recent v in
  let v := Vehicule.set_currEdge selectedEdge v in
  let v := Vehicule.set_previousVertex (Vehicule.currVertex v) v in
  let v := Vehicule.set_nextVertex (Edge.target selectedEdge) v in
  let v := Vehicule.set_edgeLength (Edge.distance selectedEdge) v in
  Vehicule.set_positionOnEdge 0%Q v.

(** The branch with no usable edge: re-goal when stuck more than three times,
    then swap start and goal and restart from [start]. *)
Definition reroute (g : RoadGraph.t) (v : Vehicule.t) (r : Rng) : Vehicule.t * Rng :=
  let v := Vehicule.set_stuckCounter (Vehicule.stuckCounter v + 1) v in
  let '(v, r) :=
    if (3 <? Vehicule.stuckCounter v) then
      let candidateGoals :=
        filter (λ c, hasValidOutgoingEdge c g = true)
               (seq 0 (length (RoadGraph.vertices g))) in
      match candidateGoals with
      | [] => (v, r)
      | c :: _ =>
          let '(newGoal, r') := pickRandom c candidateGoals r in
          (Vehicule.set_recentVertices []
             (Vehicule.set_stuckCounter 0 (Vehicule.set_goal newGoal v)), r')
      end
    else (v, r) in
  let v := Vehicule.set_goal (Vehicule.start v) (Vehicule.set_start (Vehicule.goal v) v) in
  let v := Vehicule.set_nextVertex (Vehicule.start v) v in
  let v := Vehicule.set_edgeLength 0%Q v in
  let v := Vehicule.set_previousVertex (Vehicule.currVertex v) v in
  (Vehicule.set_recentVertices [] v, r).

(** [Vehicule::pickNextEdge] (the vertex it returns is [nextVertex] of the
    result). *)
Definition pickNextEdge (g : RoadGraph.t) (v : Vehicule.t) (r : Rng) : Vehicule.t * Rng :=
  let b := fold_left (classifyEdge v) (out_edges (Vehicule.currVertex v) g)
                     (mkBuckets [] [] None) in
  match validEdges b, lessPreferredEdges b, backEdge b with
  | e :: _, _, _ =>
      let '(selectedEdge, r') := pickRandom e (validEdges b) r in
      (applySelectedEdge selectedEdge (Vehicule.set_stuckCounter 0 v), r')
  | [], e :: _, _ =>
      let '(selectedEdge, r') := pickRandom e (lessPreferredEdges b) r in
      (applySelectedEdge selectedEdge
         (Vehicule.set_stuckCounter (Vehicule.stuckCounter v + 1) v), r')
  | [], [], Some e =>
      (applySelectedEdge e
         (Vehicule.set_stuckCounter (Vehicule.stuckCounter v + 1) v), r)
  | [], [], None => reroute g v r
  end.

(** [Vehicule::getPosition]: (lat, lon). *)
Definition getPosition (g : RoadGraph.t) (v : Vehicule.t) : Q * Q :=
  if Qleb (Vehicule.edgeLength v) 0 then
    let vd := vertexAt g (Vehicule.currVertex v) in
    (VertexData.lat vd, VertexData.lon vd)
  else
    let sd := vertexAt g (Edge.source (Vehicule.currEdge v)) in
    let td := vertexAt g (Edge.target (Vehicule.currEdge v)) in
    let tparam := (Vehicule.positionOnEdge v / Vehicule.edgeLength v)%Q in
    let tparam := if Qltb tparam 0 then 0%Q else tparam in
    let tparam := if Qgtb tparam 1 then 1%Q else tparam in
    ((VertexData.lat sd + tparam * (VertexData.lat td - VertexData.lat sd))%Q,
     (VertexData.lon sd + tparam * (VertexData.lon td - VertexData.lon sd))%Q).

(** ** Value types of interference_graph.h *)

Module VehicleSnapshot.
Record t : Type := mk {
  id : Z;
  lon : Q;
  lat : Q;
  transmissionRange : Q;
  microAntennaId : Z
}.
End VehicleSnapshot.

(** [vehiclesPerAntenna] maps a micro antenna to positions of the snapshot
    vector, [neighborAntennas] to the micro antennas next to it. *)
Module AntennaNeighborhood.
Record t : Type := mk {
  vehiclesPerAntenna : gmap Z (list Z);
  neighborAntennas : gmap Z (gset Z)
}.
End AntennaNeighborhood.

(** The members of [InterferenceGraph] but the spatial grid, whose class is
    declared in spatial_grid.h and defined outside the sources, and the build
    time, which is a wall-clock measure. *)
Module InterferenceGraph.
Record t : Type := mk {
  m_adjacencyList : gmap Z (gset Z);
  m_transitiveClosure : gmap Z (gset Z);
  m_useSpatialGrid : bool;
  m_gridInitialized : bool;
  m_computeTransitive : bool;
  m_vehicleMap : gmap Z Vehicule.t;
  m_lastComparisons : Z;
  m_lastAvgNeighbors : Q
}.
End InterferenceGraph.

Section Model.

(** The libm functions the sources call. *)
Variables (sin cos sqrt : Q → Q) (atan2 : Q → Q → Q).

(** ** GraphBuilder::distance (graph_builder.cpp) *)

Definition distance (lat1 lon1 lat2 lon2 : Q) : Q :=
  let R := 6371000%Q in
  let dLat := (lat2 - lat1)%Q in
  let dLon := (lon2 - lon1)%Q in
  if Qltb (Qabs dLat) 0.02 && Qltb (Qabs dLon) 0.02 then
    let x := (dLon * M_PI / 180 * cos ((lat1 + lat2) / 2 * M_PI / 180))%Q in
    let y := (dLat * M_PI / 180)%Q in
    (R * sqrt (x * x + y * y))%Q
  else
    let dLat := (dLat * (M_PI / 180))%Q in
    let dLon := (dLon * (M_PI / 180))%Q in
    let a := (sin (dLat / 2) * sin (dLat / 2) +
              cos (lat1 * M_PI / 180) * cos (lat2 * M_PI / 180) *
              sin (dLon / 2) * sin (dLon / 2))%Q in
    let c := (2 * atan2 (sqrt a) (sqrt (1 - a)))%Q in
    (R * c)%Q.

(** [Vehicule::calculateDist] *)
Definition calculateDist (g : RoadGraph.t) (self from : Vehicule.t) : Q :=
  let '(lat1, lon1) := getPosition g self in
  let '(lat2, lon2) := getPosition g from in
  distance lat1 lon1 lat2 lon2.

(** ** Vehicule::update *)

(** The heading block of [update]: [prev] and [curr] are the positions
    (lat, lon) before and after the advance along the edge. *)
Definition updateHeading (prev curr : Q * Q) (v : Vehicule.t) : Vehicule.t :=
  let dLat := (curr.1 - prev.1)%Q in
  let dLon := (curr.2 - prev.2)%Q in
  if Qgtb (Qabs dLat) 1e-10 || Qgtb (Qabs dLon) 1e-10 then
    let angleRad := atan2 dLon dLat in
    let targetHeading := (angleRad * 180 / M_PI)%Q in
    let targetHeading :=
      if Qltb targetHeading 0 then (targetHeading + 360)%Q else targetHeading in
    let angleDiff := (targetHeading - Vehicule.currentHeading v)%Q in
    let angleDiff :=
      if Qgtb angleDiff 180 then (angleDiff - 360)%Q
      else if Qltb angleDiff (-180) then (angleDiff + 360)%Q
      else angleDiff in
    let currentHeading :=
      (Vehicule.currentHeading v + angleDiff * Vehicule.headingSmoothingFactor v)%Q in
    let currentHeading :=
      if Qltb currentHeading 0 then (currentHeading + 360)%Q
      else if Qgeb currentHeading 360 then (currentHeading - 360)%Q
      else currentHeading in
    Vehicule.set_currentHeading currentHeading
      (Vehicule.set_targetHeading targetHeading v)
  else v.

(** [M_PI] as the [double] of math.h. *)
Definition M_PI_double : PrimFloat.float := 3.14159265358979323846%float.

(** The same block on binary64 numbers with rounding to nearest, as the
    source computes it: [dLat] and [dLon] are the differences of the two
    positions, [angleRad] is the [double] that [std::atan2(dLon, dLat)]
    returns, and the result is the pair of [targetHeading] and
    [currentHeading] afterwards. *)
Definition updateHeadingDouble
    (dLat dLon angleRad targetHeading currentHeading headingSmoothingFactor
       : PrimFloat.float)
    : PrimFloat.float * PrimFloat.float :=
  if (1e-10 <? PrimFloat.abs dLat)%float || (1e-10 <? PrimFloat.abs dLon)%float then
    let targetHeading := (angleRad * 180 / M_PI_double)%float in
    let targetHeading :=
      if (targetHeading <? 0)%float then (targetHeading + 360)%float
      else targetHeading in
    let angleDiff := (targetHeading - currentHeading)%float in
    let angleDiff :=
      if (180 <? angleDiff)%float then (angleDiff - 360)%float
      else if (angleDiff <? -180)%float then (angleDiff + 360)%float
      else angleDiff in
    let currentHeading := (currentHeading + angleDiff * headingSmoothingFactor)%float in
    let currentHeading :=
      if (currentHeading <? 0)%float then (currentHeading + 360)%float
      else if (360 <=? currentHeading)%float then (currentHeading - 360)%float
      else currentHeading in
    (targetHeading, currentHeading)
  else (targetHeading, currentHeading).

(** How a bounded run of [update] ended: the call returned, or the budget of
    loop iterations was used up while the [while] condition still held. *)
Inductive Completion : Type := Returned | OutOfFuel.

(** The [while (positionOnEdge >= edgeLength)] loop of [update]; [fuel]
    bounds the number of iterations. *)
Fixpoint advance (fuel : nat) (g : RoadGraph.t) (v : Vehicule.t) (r : Rng)
    : Completion * Vehicule.t * Rng :=
  if Qgeb (Vehicule.positionOnEdge v) (Vehicule.edgeLength v) then
    match fuel with
    | O => (OutOfFuel, v, r)
    | S fuel' =>
        let overshoot := (Vehicule.positionOnEdge v - Vehicule.edgeLength v)%Q in
        let v := Vehicule.set_previousVertex (Vehicule.currVertex v) v in
        let v := Vehicule.set_currVertex (Vehicule.nextVertex v) v in
        if (Vehicule.currVertex v =? Vehicule.goal v)%nat then
          (Returned, DestReached v, r)
        else
          let '(v, r) := pickNextEdge g v r in
          advance fuel' g (Vehicule.set_positionOnEdge overshoot v) r
    end
  else (Returned, v, r).

(** The part of [update] before the loop, for a vehicle that is not at its
    goal: pick an edge if none is selected, advance along it, turn. *)
Definition moveAlongEdge (g : RoadGraph.t) (deltaTime : Q) (v : Vehicule.t) (r : Rng)
    : Vehicule.t * Rng :=
  let '(v, r) :=
    if Qleb (Vehicule.edgeLength v) 0 then pickNextEdge g v r else (v, r) in
  let prev := getPosition g v in
  let v := Vehicule.set_positionOnEdge
             (Vehicule.positionOnEdge v + Vehicule.speed v * deltaTime)%Q v in
  let curr := getPosition g v in
  (updateHeading prev curr v, r).

Definition update (fuel : nat) (g : RoadGraph.t) (deltaTime : Q) (v : Vehicule.t) (r : Rng)
    : Completion * Vehicule.t * Rng :=
  if (Vehicule.currVertex v =? Vehicule.goal v)%nat then
    (Returned, DestReached v, r)
  else
    let '(v, r) := moveAlongEdge g deltaTime v r in
    advance fuel g v r.

(** ** InterferenceGraph (interference_graph.cpp) *)

(** [InterferenceGraph::InterferenceGraph()] *)
Definition newInterferenceGraph : InterferenceGraph.t :=
  InterferenceGraph.mk ∅ ∅ true false false ∅ 0 0%Q.

Definition enableTransitiveClosure (enable : bool) (G : InterferenceGraph.t)
    : InterferenceGraph.t :=
  InterferenceGraph.mk
    (InterferenceGraph.m_adjacencyList G) (InterferenceGraph.m_transitiveClosure G)
    (InterferenceGraph.m_useSpatialGrid G) (InterferenceGraph.m_gridInitialized G)
    enable (InterferenceGraph.m_vehicleMap G)
    (InterferenceGraph.m_lastComparisons G) (InterferenceGraph.m_lastAvgNeighbors G).

Definition enableSpatialOptimization (enable : bool) (G : InterferenceGraph.t)
    : InterferenceGraph.t :=
  InterferenceGraph.mk
    (InterferenceGraph.m_adjacencyList G) (InterferenceGraph.m_transitiveClosure G)
    enable (InterferenceGraph.m_gridInitialized G)
    (InterferenceGraph.m_computeTransitive G) (InterferenceGraph.m_vehicleMap G)
    (InterferenceGraph.m_lastComparisons G) (InterferenceGraph.m_lastAvgNeighbors G).

(** [m[a].insert(b)]: [operator[]] makes the entry when it is absent. *)
Definition adjInsert (a b : Z) (m : gmap Z (gset Z)) : gmap Z (gset Z) :=
  <[a := {[b]} ∪ default ∅ (m !! a)]> m.

(** The two insertions every build path performs for a pair in range. *)
Definition addEdge (id1 id2 : Z) (m : gmap Z (gset Z)) : gmap Z (gset Z) :=
  adjInsert id2 id1 (adjInsert id1 id2 m).

(** *** Transitive closure *)

(** One turn of the loop over the neighbours in [bfsReachable]. *)
Definition visitNeighbor (st : gset Z * list Z) (neighborId : Z) : gset Z * list Z :=
  let '(visited, toVisit) := st in
  if decide (neighborId ∈ visited) then st
  else ({[neighborId]} ∪ visited, toVisit ++ [neighborId]).

(** The [while (!toVisit.empty())] loop of [bfsReachable], at most [fuel]
    turns; [None] when the queue is not empty after them. *)
Fixpoint bfsLoop (fuel : nat) (adj : gmap Z (gset Z)) (visited : gset Z)
    (toVisit : list Z) : option (gset Z) :=
  match toVisit with
  | [] => Some visited
  | currentId :: rest =>
      match fuel with
      | O => None
      | S fuel' =>
          match adj !! currentId with
          | None => bfsLoop fuel' adj visited rest
          | Some neighbors =>
              let '(visited', toVisit') :=
                fold_left visitNeighbor (elements neighbors) (visited, rest) in
              bfsLoop fuel' adj visited' toVisit'
          end
      end
  end.

(** Every id the traversal from [startId] can meet. *)
Definition graphNodes (adj : gmap Z (gset Z)) (startId : Z) : gset Z :=
  {[startId]} ∪ dom adj ∪ ⋃ (map_to_list adj).*2.

(** [InterferenceGraph::bfsReachable].  The loop is run with a budget of
    one turn per node, which [bfsLoop_terminates] shows is enough. *)
Definition bfsReachable (adj : gmap Z (gset Z)) (startId : Z) : gset Z :=
  let visited :=
    default ∅ (bfsLoop (size (graphNodes adj startId)) adj {[startId]} [startId]) in
  visited ∖ {[startId]}.

(** [InterferenceGraph::computeTransitiveClosure]: one entry per key of the
    adjacency map. *)
Definition computeTransitiveClosure (adj : gmap Z (gset Z)) : gmap Z (gset Z) :=
  map_imap (λ vehicleId _, Some (bfsReachable adj vehicleId)) adj.

Definition canCommunicate (G : InterferenceGraph.t) (id1 id2 : Z) : bool :=
  match InterferenceGraph.m_transitiveClosure G !! id1 with
  | None => false
  | Some reachable => bool_decide (id2 ∈ reachable)
  end.

Definition getReachableVehicles (G : InterferenceGraph.t) (vehicleId : Z) : gset Z :=
  default ∅ (InterferenceGraph.m_transitiveClosure G !! vehicleId).

Definition getDirectNeighbors (G : InterferenceGraph.t) (vehicleId : Z) : gset Z :=
  default ∅ (InterferenceGraph.m_adjacencyList G !! vehicleId).

(** *** Building from snapshots *)

(** The distance both branches of [buildGraphFromSnapshots] compute, from
    [v1] to [v2]. *)
Definition snapshotDistance (v1 v2 : VehicleSnapshot.t) : Q :=
  let dLat := ((VehicleSnapshot.lat v2 - VehicleSnapshot.lat v1) * 111000)%Q in
  let dLon := ((VehicleSnapshot.lon v2 - VehicleSnapshot.lon v1) * 111000 *
               cos (VehicleSnapshot.lat v1 * M_PI / 180))%Q in
  sqrt (dLat * dLat + dLon * dLon).

(** [distance <= v1.transmissionRange && distance <= v2.transmissionRange] *)
Definition withinBothRanges (v1 v2 : VehicleSnapshot.t) : bool :=
  let distance := snapshotDistance v1 v2 in
  Qleb distance (VehicleSnapshot.transmissionRange v1) &&
  Qleb distance (VehicleSnapshot.transmissionRange v2).

(** The body of the innermost loops: count the comparison, add the edge when
    the pair passes the gate.  The state is the adjacency map and the local
    [comparisons]. *)
Definition comparePair (v1 v2 : VehicleSnapshot.t) (st : gmap Z (gset Z) * Z)
    : gmap Z (gset Z) * Z :=
  let '(adj, comparisons) := st in
  (if withinBothRanges v1 v2
   then addEdge (VehicleSnapshot.id v1) (VehicleSnapshot.id v2) adj
   else adj,
   comparisons + 1).

(** [snapshots[idx]] behind its guard [if (idx >= snapshots.size()) continue],
    for an [int] element of a cell's vehicle list. *)
Definition snapshotAt (snapshots : list VehicleSnapshot.t) (i : Z)
    : option VehicleSnapshot.t :=
  let idx := to_size_t i in
  if Z.of_nat (length snapshots) <=? idx then None
  else snapshots !! Z.to_nat idx.

(** The loop over [idx2] for a fixed [v1]. *)
Definition compareWithEach (snapshots : list VehicleSnapshot.t)
    (v1 : VehicleSnapshot.t) (indices : list Z) (st : gmap Z (gset Z) * Z)
    : gmap Z (gset Z) * Z :=
  fold_left
    (λ st i2,
       match snapshotAt snapshots i2 with
       | None => st
       | Some v2 => comparePair v1 v2 st
       end)
    indices st.

(** Step 1 of a cell: positions [i < j] of its vehicle list. *)
Fixpoint compareWithinAntenna (snapshots : list VehicleSnapshot.t)
    (vehicleIndices : list Z) (st : gmap Z (gset Z) * Z) : gmap Z (gset Z) * Z :=
  match vehicleIndices with
  | [] => st
  | i1 :: rest =>
      compareWithinAntenna snapshots rest
        match snapshotAt snapshots i1 with
        | None => st
        | Some v1 => compareWithEach snapshots v1 rest st
        end
  end.

(** Step 2 for one neighbouring cell: every vehicle of the cell against
    every vehicle of the neighbour. *)
Definition compareAcrossAntennas (snapshots : list VehicleSnapshot.t)
    (vehicleIndices neighborVehicles : list Z) (st : gmap Z (gset Z) * Z)
    : gmap Z (gset Z) * Z :=
  fold_left
    (λ st i1,
       match snapshotAt snapshots i1 with
       | None => st
       | Some v1 => compareWithEach snapshots v1 neighborVehicles st
       end)
    vehicleIndices st.

Definition compareWithNeighborAntenna (snapshots : list VehicleSnapshot.t)
    (antennaInfo : AntennaNeighborhood.t) (antennaId : Z) (vehicleIndices : list Z)
    (st : gmap Z (gset Z) * Z) (neighborAntennaId : Z) : gmap Z (gset Z) * Z :=
  if neighborAntennaId <=? antennaId then st
  else
    match AntennaNeighborhood.vehiclesPerAntenna antennaInfo !! neighborAntennaId with
    | None => st
    | Some neighborVehicles =>
        compareAcrossAntennas snapshots vehicleIndices neighborVehicles st
    end.

(** The body of the loop over the cells. *)
Definition processAntenna (snapshots : list VehicleSnapshot.t)
    (antennaInfo : AntennaNeighborhood.t) (st : gmap Z (gset Z) * Z)
    (entry : Z * list Z) : gmap Z (gset Z) * Z :=
  let '(antennaId, vehicleIndices) := entry in
  let st := compareWithinAntenna snapshots vehicleIndices st in
  match AntennaNeighborhood.neighborAntennas antennaInfo !! antennaId with
  | None => st
  | Some neighbors =>
      fold_left
        (compareWithNeighborAntenna snapshots antennaInfo antennaId vehicleIndices)
        (elements neighbors) st
  end.

(** The fallback: all pairs [i < j] of the snapshot vector. *)
Fixpoint compareAllPairs (snapshots : list VehicleSnapshot.t)
    (st : gmap Z (gset Z) * Z) : gmap Z (gset Z) * Z :=
  match snapshots with
  | [] => st
  | v1 :: rest =>
      compareAllPairs rest (fold_left (λ st v2, comparePair v1 v2 st) rest st)
  end.

(** [m_adjacencyList[snap.id] = {}] for every snapshot. *)
Definition emptyAdjacency (snapshots : list VehicleSnapshot.t) : gmap Z (gset Z) :=
  fold_left (λ m snap, <[VehicleSnapshot.id snap := ∅]> m) snapshots ∅.

(** The edge construction of [buildGraphFromSnapshots]: the adjacency map and
    the number of comparisons.  [antennaInfo] is [None] for a null pointer. *)
Definition snapshotEdges (snapshots : list VehicleSnapshot.t)
    (antennaInfo : option AntennaNeighborhood.t) : gmap Z (gset Z) * Z :=
  let st := (emptyAdjacency snapshots, 0) in
  match antennaInfo with
  | Some info =>
      if bool_decide (AntennaNeighborhood.vehiclesPerAntenna info ≠ ∅) then
        fold_left (processAntenna snapshots info)
          (map_to_list (AntennaNeighborhood.vehiclesPerAntenna info)) st
      else compareAllPairs snapshots st
  | None => compareAllPairs snapshots st
  end.

(** [InterferenceGraph::buildGraphFromSnapshots] *)
Definition buildGraphFromSnapshots (G : InterferenceGraph.t)
    (snapshots : list VehicleSnapshot.t)
    (antennaInfo : option AntennaNeighborhood.t) : InterferenceGraph.t :=
  match snapshots with
  | [] =>
      InterferenceGraph.mk ∅ ∅
        (InterferenceGraph.m_useSpatialGrid G) (InterferenceGraph.m_gridInitialized G)
        (InterferenceGraph.m_computeTransitive G) ∅
        (InterferenceGraph.m_lastComparisons G) (InterferenceGraph.m_lastAvgNeighbors G)
  | _ :: _ =>
      let '(adj, comparisons) := snapshotEdges snapshots antennaInfo in
      let closure :=
        if InterferenceGraph.m_computeTransitive G
        then computeTransitiveClosure adj else ∅ in
      InterferenceGraph.mk adj closure
        (InterferenceGraph.m_useSpatialGrid G) (InterferenceGraph.m_gridInitialized G)
        (InterferenceGraph.m_computeTransitive G) ∅
        comparisons
        (inject_Z (comparisons * 2) / inject_Z (Z.of_nat (length snapshots)))%Q
  end.

(** *** Building from the vehicles *)

(** A [Vehicule*] of a [std::vector<Vehicule*>]: [None] is the null pointer.
    The [neighbors] vectors of raw pointers that [buildGraph] refreshes when
    the closure is computed are not part of the model. *)

(** The gate of the two vehicle paths. *)
Definition vehiclesInRange (g : RoadGraph.t) (v1 v2 : Vehicule.t) : bool :=
  let distance := calculateDist g v1 v2 in
  let v1CanReachV2 := Qleb distance (Vehicule.transmissionRange v1) in
  let v2CanReachV1 := Qleb distance (Vehicule.transmissionRange v2) in
  v1CanReachV2 && v2CanReachV1.

Definition compareVehicles (g : RoadGraph.t) (v1 v2 : Vehicule.t)
    (adj : gmap Z (gset Z)) : gmap Z (gset Z) :=
  if vehiclesInRange g v1 v2
  then addEdge (Vehicule.id v1) (Vehicule.id v2) adj else adj.

(** The two nested loops of [buildGraphClassic]. *)
Fixpoint classicPairs (g : RoadGraph.t) (vehicles : list (option Vehicule.t))
    (st : gmap Z (gset Z) * Z) : gmap Z (gset Z) * Z :=
  match vehicles with
  | [] => st
  | None :: rest => classicPairs g rest st
  | Some v1 :: rest =>
      classicPairs g rest
        (fold_left
           (λ st p2,
              match p2 with
              | None => st
              | Some v2 => (compareVehicles g v1 v2 st.1, st.2 + 1)
              end)
           rest st)
  end.

(** [InterferenceGraph::buildGraphClassic]: adjacency, [m_lastComparisons],
    [m_lastAvgNeighbors]. *)
Definition buildGraphClassic (g : RoadGraph.t) (vehicles : list (option Vehicule.t))
    (adj : gmap Z (gset Z)) : gmap Z (gset Z) * Z * Q :=
  let '(adj, comparisons) := classicPairs g vehicles (adj, 0) in
  (adj, comparisons,
   if (0 <? length vehicles)%nat
   then inject_Z (Z.of_nat (length vehicles) - 1) else 0%Q).

(** The loop over [nearbyIds] in [buildGraphWithSpatialGrid]. *)
Definition compareWithNearby (g : RoadGraph.t) (vehicleMap : gmap Z Vehicule.t)
    (v1 : Vehicule.t) (st : gmap Z (gset Z) * Z) (nearbyId : Z)
    : gmap Z (gset Z) * Z :=
  if nearbyId <=? Vehicule.id v1 then st
  else
    let totalComparisons := st.2 + 1 in
    match vehicleMap !! nearbyId with
    | None => (st.1, totalComparisons)
    | Some v2 => (compareVehicles g v1 v2 st.1, totalComparisons)
    end.

(** [InterferenceGraph::buildGraphWithSpatialGrid].  [getNearbyVehicles] is
    [SpatialGrid::getNearbyVehicles] on the grid of the graph, a function
    defined outside the sources.  The state is the adjacency map,
    [totalComparisons] and [totalNearby]. *)
Definition buildGraphWithSpatialGrid (g : RoadGraph.t)
    (getNearbyVehicles : Z → list Z) (vehicleMap : gmap Z Vehicule.t)
    (vehicles : list (option Vehicule.t)) (adj : gmap Z (gset Z))
    : gmap Z (gset Z) * Z * Q :=
  let '(adj, totalComparisons, totalNearby) :=
    fold_left
      (λ st p1,
         match p1 with
         | None => st
         | Some v1 =>
             let nearbyIds := getNearbyVehicles (Vehicule.id v1) in
             let '(adj, totalComparisons) :=
               fold_left (compareWithNearby g vehicleMap v1) nearbyIds st.1 in
             (adj, totalComparisons, st.2 + Z.of_nat (length nearbyIds))
         end)
      vehicles (adj, 0, 0) in
  (adj, totalComparisons,
   if (0 <? length vehicles)%nat
   then (inject_Z totalNearby / inject_Z (Z.of_nat (length vehicles)))%Q else 0%Q).

(** The first loop of [buildGraph]: the vehicle map and the empty sets. *)
Definition registerVehicles (vehicles : list (option Vehicule.t))
    : gmap Z Vehicule.t * gmap Z (gset Z) :=
  fold_left
    (λ st p,
       match p with
       | None => st
       | Some v => (<[Vehicule.id v := v]> st.1, <[Vehicule.id v := ∅]> st.2)
       end)
    vehicles (∅, ∅).

(** [InterferenceGraph::buildGraph] *)
Definition buildGraph (g : RoadGraph.t) (getNearbyVehicles : Z → list Z)
    (G : InterferenceGraph.t) (vehicles : list (option Vehicule.t))
    : InterferenceGraph.t :=
  match vehicles with
  | [] =>
      InterferenceGraph.mk ∅ ∅
        (InterferenceGraph.m_useSpatialGrid G) (InterferenceGraph.m_gridInitialized G)
        (InterferenceGraph.m_computeTransitive G) ∅
        (InterferenceGraph.m_lastComparisons G) (InterferenceGraph.m_lastAvgNeighbors G)
  | _ :: _ =>
      let '(vehicleMap, adj) := registerVehicles vehicles in
      let '(adj, comparisons, avgNeighbors) :=
        if InterferenceGraph.m_useSpatialGrid G && (20 <=? length vehicles)%nat
        then buildGraphWithSpatialGrid g getNearbyVehicles vehicleMap vehicles adj
        else buildGraphClassic g vehicles adj in
      let closure :=
        if InterferenceGraph.m_computeTransitive G
        then computeTransitiveClosure adj else ∅ in
      InterferenceGraph.mk adj closure
        (InterferenceGraph.m_useSpatialGrid G) (InterferenceGraph.m_gridInitialized G)
        (InterferenceGraph.m_computeTransitive G) vehicleMap
        comparisons avgNeighbors
  end.

(** *** The spatial grid of the graph *)

(** What [initializeSpatialGrid] and [reinitializeSpatialGrid] hand to the
    grid: [setMaxTransmissionRange(maxRange)] followed by
    [initialize(vehicles, numMacro, numMicro)]. *)
Record GridInitialization : Type := mkGridInitialization {
  maxRange : Q;
  numMacroAntennas : Z;
  microPerMacro : Z
}.

(** [maxRange]: the range of the first vehicle, 500 by default. *)
Definition firstVehicleRange (vehicles : list (option Vehicule.t)) : Q :=
  match vehicles with
  | Some v :: _ => Vehicule.transmissionRange v
  | _ => 500%Q
  end.

Definition setGridInitialized (b : bool) (G : InterferenceGraph.t) : InterferenceGraph.t :=
  InterferenceGraph.mk
    (InterferenceGraph.m_adjacencyList G) (InterferenceGraph.m_transitiveClosure G)
    (InterferenceGraph.m_useSpatialGrid G) b
    (InterferenceGraph.m_computeTransitive G) (InterferenceGraph.m_vehicleMap G)
    (InterferenceGraph.m_lastComparisons G) (InterferenceGraph.m_lastAvgNeighbors G).

(** [InterferenceGraph::initializeSpatialGrid]: the graph afterwards, and the
    initialisation of the grid when there is one. *)
Definition initializeSpatialGrid (G : InterferenceGraph.t)
    (vehicles : list (option Vehicule.t)) (numMacro numMicro : Z)
    : InterferenceGraph.t * option GridInitialization :=
  if negb (InterferenceGraph.m_useSpatialGrid G) || (length vehicles <? 20)%nat then
    (G, None)
  else if InterferenceGraph.m_gridInitialized G then (G, None)
  else
    let numMacro :=
      if numMacro =? 0 then
        let numMacro := 10 in
        let numMacro := if (500 <? length vehicles)%nat then 20 else numMacro in
        if (2000 <? length vehicles)%nat then 30 else numMacro
      else numMacro in
    let numMicro :=
      if numMicro =? 0 then
        let numMicro := 10 in
        let numMicro := if (500 <? length vehicles)%nat then 15 else numMicro in
        if (2000 <? length vehicles)%nat then 20 else numMicro
      else numMicro in
    (setGridInitialized true G,
     Some (mkGridInitialization (firstVehicleRange vehicles) numMacro numMicro)).

(** [InterferenceGraph::reinitializeSpatialGrid] *)
Definition reinitializeSpatialGrid (G : InterferenceGraph.t)
    (vehicles : list (option Vehicule.t)) (numMacro numMicro : Z)
    : InterferenceGraph.t * option GridInitialization :=
  if negb (InterferenceGraph.m_useSpatialGrid G) || (length vehicles <? 20)%nat then
    (G, None)
  else
    (setGridInitialized true G,
     Some (mkGridInitialization (firstVehicleRange vehicles) numMacro numMicro)).

(** ** Simulator (simulator.h, simulator.cpp) *)

(** The members of [Simulator] the tick and the parameter commands read or
    write.  The Qt timer is outside the model: a tick receives the
    milliseconds [m_elapsed.restart()] returns. *)
Record Simulator : Type := mkSimulator {
  graph : RoadGraph.t;
  m_tickIntervalMs : Z;
  m_speedMultiplier : Q;
  m_running : bool;
  m_paused : bool;
  m_vehicles : list (option Vehicule.t);
  m_interferenceGraph : InterferenceGraph.t;
  m_calculationInProgress : bool;
  m_nextVehicleId : Z
}.

Definition withVehicles (vehicles : list (option Vehicule.t)) (s : Simulator) : Simulator :=
  mkSimulator (graph s) (m_tickIntervalMs s) (m_speedMultiplier s) (m_running s)
    (m_paused s) vehicles (m_interferenceGraph s) (m_calculationInProgress s)
    (m_nextVehicleId s).

Definition withInterferenceGraph (G : InterferenceGraph.t) (s : Simulator) : Simulator :=
  mkSimulator (graph s) (m_tickIntervalMs s) (m_speedMultiplier s) (m_running s)
    (m_paused s) (m_vehicles s) G (m_calculationInProgress s) (m_nextVehicleId s).

Definition withCalculationInProgress (b : bool) (s : Simulator) : Simulator :=
  mkSimulator (graph s) (m_tickIntervalMs s) (m_speedMultiplier s) (m_running s)
    (m_paused s) (m_vehicles s) (m_interferenceGraph s) b (m_nextVehicleId s).

(** The arguments of a [calculateGraphAsync] task. *)
Record GraphCalculation : Type := mkGraphCalculation {
  taskSnapshots : list VehicleSnapshot.t;
  taskComputeTransitive : bool;
  taskAntennaInfo : AntennaNeighborhood.t
}.

(** [calculateGraphAsync]: a fresh graph, built from the snapshots with the
    address of the antenna info. *)
Definition calculateGraphAsync (task : GraphCalculation) : InterferenceGraph.t :=
  buildGraphFromSnapshots
    (enableTransitiveClosure (taskComputeTransitive task) newInterferenceGraph)
    (taskSnapshots task) (Some (taskAntennaInfo task)).

(** The snapshot loop of [startGraphCalculation]; [getMicroAntennaId] is
    [SpatialGrid::getMicroAntennaId], defined outside the sources. *)
Definition takeSnapshots (g : RoadGraph.t) (getMicroAntennaId : Z → Z)
    (vehicles : list (option Vehicule.t)) : list VehicleSnapshot.t :=
  omap
    (λ p : option Vehicule.t,
       v ← p;
       let '(lat, lon) := getPosition g v in
       Some (VehicleSnapshot.mk (Vehicule.id v) lon lat
               (Vehicule.transmissionRange v)
               (getMicroAntennaId (Vehicule.id v))))
    vehicles.

(** One turn of the loop that fills [vehiclesPerAntenna]: the state is the
    map and the index [i]. *)
Definition assignToAntenna (st : gmap Z (list Z) * nat) (snap : VehicleSnapshot.t)
    : gmap Z (list Z) * nat :=
  let antennaId := VehicleSnapshot.microAntennaId snap in
  (if 0 <=? antennaId
   then <[antennaId := default [] (st.1 !! antennaId) ++ [to_int (Z.of_nat st.2)]]> st.1
   else st.1,
   S st.2).

Definition vehiclesByAntenna (snapshots : list VehicleSnapshot.t) : gmap Z (list Z) :=
  (fold_left assignToAntenna snapshots (∅, 0%nat)).1.

(** The antenna info [startGraphCalculation] assembles; [microNeighbors] maps
    every micro antenna of the grid to its [neighborMicroIds]. *)
Definition assembleAntennaInfo (snapshots : list VehicleSnapshot.t)
    (microNeighbors : gmap Z (gset Z)) : AntennaNeighborhood.t :=
  AntennaNeighborhood.mk (vehiclesByAntenna snapshots) microNeighbors.

(** [Simulator::startGraphCalculation]: the simulator afterwards and the
    task handed to the worker, if any. *)
Definition startGraphCalculation (getMicroAntennaId : Z → Z)
    (microNeighbors : gmap Z (gset Z)) (s : Simulator)
    : Simulator * option GraphCalculation :=
  if m_calculationInProgress s then (s, None)
  else
    let snapshots := takeSnapshots (graph s) getMicroAntennaId (m_vehicles s) in
    match snapshots with
    | [] => (s, None)
    | _ :: _ =>
        (withCalculationInProgress true s,
         Some (mkGraphCalculation snapshots
                 (InterferenceGraph.m_computeTransitive (m_interferenceGraph s))
                 (assembleAntennaInfo snapshots microNeighbors)))
    end.

(** [InterferenceGraph::copyFrom] *)
Definition copyFrom (G other : InterferenceGraph.t) : InterferenceGraph.t :=
  InterferenceGraph.mk
    (InterferenceGraph.m_adjacencyList other)
    (InterferenceGraph.m_transitiveClosure other)
    (InterferenceGraph.m_useSpatialGrid G) (InterferenceGraph.m_gridInitialized G)
    (InterferenceGraph.m_computeTransitive G) (InterferenceGraph.m_vehicleMap G)
    (InterferenceGraph.m_lastComparisons other)
    (InterferenceGraph.m_lastAvgNeighbors other).

(** [Simulator::onGraphCalculationFinished] *)
Definition onGraphCalculationFinished (result : InterferenceGraph.t) (s : Simulator)
    : Simulator :=
  withCalculationInProgress false
    (withInterferenceGraph (copyFrom (m_interferenceGraph s) result) s).

(** The first two statements of [onTick]: the time step, in seconds, from the
    milliseconds the elapsed timer returns. *)
Definition tickDelta (elapsedMs : Z) (s : Simulator) : Q :=
  let deltaTime := (inject_Z elapsedMs / 1000)%Q in
  (deltaTime * m_speedMultiplier s)%Q.

(** The loop of [onTick] over the vehicles. *)
Fixpoint updateVehicles (fuel : nat) (g : RoadGraph.t) (deltaTime : Q)
    (vehicles : list (option Vehicule.t)) (r : Rng)
    : Completion * list (option Vehicule.t) * Rng :=
  match vehicles with
  | [] => (Returned, [], r)
  | None :: rest =>
      let '(c, rest', r') := updateVehicles fuel g deltaTime rest r in
      (c, None :: rest', r')
  | Some v :: rest =>
      match update fuel g deltaTime v r with
      | (OutOfFuel, v', r') => (OutOfFuel, Some v' :: rest, r')
      | (Returned, v', r') =>
          let '(c, rest', r'') := updateVehicles fuel g deltaTime rest r' in
          (c, Some v' :: rest', r'')
      end
  end.

(** What a tick leaves behind: the simulator, the argument of the [ticked]
    signal, and the task it started, if any. *)
Record TickOutcome : Type := mkTickOutcome {
  tickCompletion : Completion;
  tickSimulator : Simulator;
  ticked : Q;
  tickTask : option GraphCalculation;
  tickRng : Rng
}.

(** [Simulator::onTick] *)
Definition onTick (fuel : nat) (getMicroAntennaId : Z → Z)
    (microNeighbors : gmap Z (gset Z)) (elapsedMs : Z) (s : Simulator) (r : Rng)
    : TickOutcome :=
  let deltaTime := tickDelta elapsedMs s in
  let '(c, vehicles, r) := updateVehicles fuel (graph s) deltaTime (m_vehicles s) r in
  let s := withVehicles vehicles s in
  match c with
  | OutOfFuel => mkTickOutcome OutOfFuel s deltaTime None r
  | Returned =>
      let '(s, task) :=
        if negb (m_calculationInProgress s) && negb (bool_decide (m_vehicles s = []))
        then startGraphCalculation getMicroAntennaId microNeighbors s
        else (s, None) in
      mkTickOutcome Returned s deltaTime task r
  end.

(** [Simulator::placeAntennas] *)
Definition placeAntennas (numLarge numSmall : Z) (s : Simulator)
    : Simulator * option GridInitialization :=
  match m_vehicles s with
  | [] => (s, None)
  | _ :: _ =>
      let '(G, init) :=
        reinitializeSpatialGrid (m_interferenceGraph s) (m_vehicles s) numLarge numSmall in
      (withInterferenceGraph G s, init)
  end.

(** * Vocabulary of the properties *)

(** ** Adjacency *)

(** [j ∈ adjacency[i]] *)
Definition adjacent (m : gmap Z (gset Z)) (i j : Z) : Prop :=
  ∃ s, m !! i = Some s ∧ j ∈ s.

(** Invariant 2 of the specification. *)
Definition symmetricAdjacency (m : gmap Z (gset Z)) : Prop :=
  ∀ i j, adjacent m i j ↔ adjacent m j i.

(** A map none of whose sets has a member. *)
Definition noEdges (m : gmap Z (gset Z)) : Prop := ∀ i j, ¬ adjacent m i j.

(** ** The pairs a build from snapshots compares *)

(** Every loop of [buildGraphFromSnapshots] runs [comparePair] over a list of
    ordered pairs of snapshots; the lists are written out here and the loops
    are shown below to be folds over them. *)

(** [comparePair] over a list of pairs. *)
Definition comparePairs (pairs : list (VehicleSnapshot.t * VehicleSnapshot.t))
    (st : gmap Z (gset Z) * Z) : gmap Z (gset Z) * Z :=
  fold_left (λ st p, comparePair p.1 p.2 st) pairs st.

(** The pairs of [compareWithEach]. *)
Definition pairsWithEach (snapshots : list VehicleSnapshot.t)
    (v1 : VehicleSnapshot.t) (indices : list Z)
    : list (VehicleSnapshot.t * VehicleSnapshot.t) :=
  omap (λ i2, v2 ← snapshotAt snapshots i2; Some (v1, v2)) indices.

(** The pairs of the vehicle at [i1], if the guard lets it through. *)
Definition pairsFrom (snapshots : list VehicleSnapshot.t) (i1 : Z) (indices : list Z)
    : list (VehicleSnapshot.t * VehicleSnapshot.t) :=
  match snapshotAt snapshots i1 with
  | None => []
  | Some v1 => pairsWithEach snapshots v1 indices
  end.

(** The pairs of [compareWithinAntenna]. *)
Fixpoint pairsWithin (snapshots : list VehicleSnapshot.t) (vehicleIndices : list Z)
    : list (VehicleSnapshot.t * VehicleSnapshot.t) :=
  match vehicleIndices with
  | [] => []
  | i1 :: rest => pairsFrom snapshots i1 rest ++ pairsWithin snapshots rest
  end.

(** The pairs of [compareAcrossAntennas]. *)
Definition pairsAcross (snapshots : list VehicleSnapshot.t)
    (vehicleIndices neighborVehicles : list Z)
    : list (VehicleSnapshot.t * VehicleSnapshot.t) :=
  flat_map (λ i1, pairsFrom snapshots i1 neighborVehicles) vehicleIndices.

(** The pairs of [compareWithNeighborAntenna]. *)
Definition pairsWithNeighbor (snapshots : list VehicleSnapshot.t)
    (antennaInfo : AntennaNeighborhood.t) (antennaId : Z) (vehicleIndices : list Z)
    (neighborAntennaId : Z) : list (VehicleSnapshot.t * VehicleSnapshot.t) :=
  if neighborAntennaId <=? antennaId then []
  else
    match AntennaNeighborhood.vehiclesPerAntenna antennaInfo !! neighborAntennaId with
    | None => []
    | Some neighborVehicles => pairsAcross snapshots vehicleIndices neighborVehicles
    end.

(** The pairs of [processAntenna]. *)
Definition pairsOfAntenna (snapshots : list VehicleSnapshot.t)
    (antennaInfo : AntennaNeighborhood.t) (entry : Z * list Z)
    : list (VehicleSnapshot.t * VehicleSnapshot.t) :=
  pairsWithin snapshots entry.2 ++
  match AntennaNeighborhood.neighborAntennas antennaInfo !! entry.1 with
  | None => []
  | Some neighbors =>
      flat_map (pairsWithNeighbor snapshots antennaInfo entry.1 entry.2)
               (elements neighbors)
  end.

(** The pairs of [compareAllPairs]. *)
Fixpoint pairsAll (snapshots : list VehicleSnapshot.t)
    : list (VehicleSnapshot.t * VehicleSnapshot.t) :=
  match snapshots with
  | [] => []
  | v1 :: rest => map (pair v1) rest ++ pairsAll rest
  end.

(** The pairs [snapshotEdges] compares, in the order it compares them. *)
Definition comparedPairs (snapshots : list VehicleSnapshot.t)
    (antennaInfo : option AntennaNeighborhood.t)
    : list (VehicleSnapshot.t * VehicleSnapshot.t) :=
  match antennaInfo with
  | Some info =>
      if bool_decide (AntennaNeighborhood.vehiclesPerAntenna info ≠ ∅) then
        flat_map (pairsOfAntenna snapshots info)
                 (map_to_list (AntennaNeighborhood.vehiclesPerAntenna info))
      else pairsAll snapshots
  | None => pairsAll snapshots
  end.

(** The words of the specification for the gate of snapshot [i] against
    snapshot [j]: [d <= range_i] and [d <= range_j] for the distance [d] of
    the local equirectangular projection. *)
Definition withinMutualRange (vi vj : VehicleSnapshot.t) : Prop :=
  let dy := ((VehicleSnapshot.lat vj - VehicleSnapshot.lat vi) * 111000)%Q in
  let dx := ((VehicleSnapshot.lon vj - VehicleSnapshot.lon vi) * 111000 *
             cos (VehicleSnapshot.lat vi * M_PI / 180))%Q in
  let d := sqrt (dx * dx + dy * dy) in
  (d <= VehicleSnapshot.transmissionRange vi)%Q ∧
  (d <= VehicleSnapshot.transmissionRange vj)%Q.

(** The pair [p] passes the gate and joins [i] and [j]. *)
Definition joins (p : VehicleSnapshot.t * VehicleSnapshot.t) (i j : Z) : Prop :=
  withinBothRanges p.1 p.2 = true ∧
  ((i = VehicleSnapshot.id p.1 ∧ j = VehicleSnapshot.id p.2) ∨
   (i = VehicleSnapshot.id p.2 ∧ j = VehicleSnapshot.id p.1)).

(** ** Traversal and builds *)

(** The invariant of the traversal from [startId]. *)
Definition bfsInvariant (adj : gmap Z (gset Z)) (startId : Z)
    (visited : gset Z) (toVisit : list Z) : Prop :=
  startId ∈ visited ∧
  (∀ x, x ∈ toVisit → x ∈ visited) ∧
  (∀ x, x ∈ visited → rtc (adjacent adj) startId x) ∧
  (∀ x y, x ∈ visited → x ∉ toVisit → adjacent adj x y → y ∈ visited).

(** The adjacency [buildGraph] computes from a non-empty vector of vehicles. *)
Definition vehicleEdges (g : RoadGraph.t) (getNearbyVehicles : Z → list Z)
    (G : InterferenceGraph.t) (vehicles : list (option Vehicule.t)) : gmap Z (gset Z) :=
  let '(vehicleMap, adj) := registerVehicles vehicles in
  (if InterferenceGraph.m_useSpatialGrid G && (20 <=? length vehicles)%nat
   then buildGraphWithSpatialGrid g getNearbyVehicles vehicleMap vehicles adj
   else buildGraphClassic g vehicles adj).1.1.

(** A snapshot that is read through an element of a cell's list. *)
Definition listedSnapshot (snapshots : list VehicleSnapshot.t)
    (info : AntennaNeighborhood.t) (x : VehicleSnapshot.t) : Prop :=
  ∃ c L i, AntennaNeighborhood.vehiclesPerAntenna info !! c = Some L ∧
           i ∈ L ∧ snapshotAt snapshots i = Some x.

(** ** The antenna info of the driver *)

(** The positions, from [k] on, of the snapshots of cell [c]. *)
Fixpoint membersFrom (k : nat) (snapshots : list VehicleSnapshot.t) (c : Z) : list nat :=
  match snapshots with
  | [] => []
  | s :: rest =>
      (if decide (VehicleSnapshot.microAntennaId s = c) then [k] else []) ++
      membersFrom (S k) rest c
  end.

(** The [int] that [push_back(i)] stores for the position [i]. *)
Definition indexAsInt (i : nat) : Z := to_int (Z.of_nat i).

(** The order in which the antenna path takes two snapshots of the driver's
    info: positions [i] and [j] of cells [ci] and [cj]. *)
Definition comparedInOrder (microNeighbors : gmap Z (gset Z))
    (i j : nat) (ci cj : Z) : Prop :=
  0 ≤ ci ∧ 0 ≤ cj ∧
  ((ci = cj ∧ (i < j)%nat) ∨
   (ci < cj ∧ ∃ neighbors, microNeighbors !! ci = Some neighbors ∧ cj ∈ neighbors)).

(** ** Motion *)

(** The members an edge selection leaves alone. *)
Definition sameMotionParameters (v v' : Vehicule.t) : Prop :=
  Vehicule.speed v' = Vehicule.speed v ∧
  Vehicule.currentHeading v' = Vehicule.currentHeading v ∧
  Vehicule.headingSmoothingFactor v' = Vehicule.headingSmoothingFactor v.

(** The words of the specification: an angle is normalised into an interval
    by adding a multiple of 360 that brings it there. *)
Definition congruent360 (x y : Q) : Prop :=
  ∃ k : Z, (y == x + 360 * inject_Z k)%Q.

(** The heading [new] the specification prescribes for the heading [old]
    and the movement angle [angleDeg], in degrees: the target is the angle
    normalised to [0, 360), the difference is target - old normalised into
    [-180, 180], and the result is old + 0.15 * difference normalised to
    [0, 360). *)
Definition smoothedHeading (old angleDeg new : Q) : Prop :=
  ∃ target diff : Q,
    congruent360 angleDeg target ∧ (0 <= target < 360)%Q ∧
    congruent360 (target - old) diff ∧ (-180 <= diff <= 180)%Q ∧
    congruent360 (old + 0.15 * diff) new ∧ (0 <= new < 360)%Q.

(** Whether the movement (dLat, dLon) counts as one. *)
Definition significantMovement (dLat dLon : Q) : bool :=
  Qgtb (Qabs dLat) 1e-10 || Qgtb (Qabs dLon) 1e-10.

(** The vehicle once [update] has made sure an edge is selected. *)
Definition withEdgeSelected (g : RoadGraph.t) (v : Vehicule.t) (r : Rng)
    : Vehicule.t * Rng :=
  if Qleb (Vehicule.edgeLength v) 0 then pickNextEdge g v r else (v, r).

(** The vehicle after [positionOnEdge += speed * deltaTime]. *)
Definition advancedOnEdge (deltaTime : Q) (v : Vehicule.t) : Vehicule.t :=
  Vehicule.set_positionOnEdge
    (Vehicule.positionOnEdge v + Vehicule.speed v * deltaTime)%Q v.

(** The movement vector (dLat, dLon) [update] computes for the heading. *)
Definition movement (g : RoadGraph.t) (deltaTime : Q) (v : Vehicule.t) (r : Rng) : Q * Q :=
  let v1 := (withEdgeSelected g v r).1 in
  let prev := getPosition g v1 in
  let curr := getPosition g (advancedOnEdge deltaTime v1) in
  ((curr.1 - prev.1)%Q, (curr.2 - prev.2)%Q).

(** A sequence of calls of [update], one per element of [deltas]; it stops
    at a call that does not return. *)
Fixpoint updates (fuel : nat) (g : RoadGraph.t) (deltas : list Q) (v : Vehicule.t)
    (r : Rng) : Completion * Vehicule.t * Rng :=
  match deltas with
  | [] => (Returned, v, r)
  | deltaTime :: rest =>
      match update fuel g deltaTime v r with
      | (Returned, v', r') => updates fuel g rest v' r'
      | stuck => stuck
      end
  end.

(** ** Tick *)

(** The words of the specification for the time step of a tick: the elapsed
    time bounded by twice the tick interval, in seconds, times the speed
    multiplier. *)
Definition boundedTickDelta (elapsedMs : Z) (s : Simulator) : Q :=
  (Qmin (inject_Z elapsedMs / 1000) (2 * (inject_Z (m_tickIntervalMs s) / 1000)) *
   m_speedMultiplier s)%Q.

(** ** Sample data *)

(** Instances of the libm functions, exact on the sample data: a cosine
    that is 1, the integer square root, and a sine and an arc tangent that
    are 0. *)
Definition unitCos : Q → Q := λ _, 1%Q.
Definition zeroSin : Q → Q := λ _, 0%Q.
Definition floorSqrt : Q → Q := λ q, inject_Z (Z.sqrt (Qfloor q)).
Definition zeroAtan2 : Q → Q → Q := λ _ _, 0%Q.

(** A [rand()] that returns 0. *)
Definition zeroRng : Rng := λ _, 0%nat.

(** Two vehicles on one meridian, 75 m apart, of ranges 100 m and 50 m, in
    the same micro cell. *)
Definition rangeGatePair : list VehicleSnapshot.t :=
  [VehicleSnapshot.mk 1 0%Q 0%Q 100%Q 0;
   VehicleSnapshot.mk 2 0%Q (75 # 111000)%Q 50%Q 0].

(** Five vehicles of range 100 m spaced 90 m apart on one meridian; the
    fourth has no micro cell. *)
Definition chain : list VehicleSnapshot.t :=
  [VehicleSnapshot.mk 1 0%Q 0%Q 100%Q 0;
   VehicleSnapshot.mk 2 0%Q (90 # 111000)%Q 100%Q 0;
   VehicleSnapshot.mk 3 0%Q (180 # 111000)%Q 100%Q 1;
   VehicleSnapshot.mk 4 0%Q (270 # 111000)%Q 100%Q (-1);
   VehicleSnapshot.mk 5 0%Q (360 # 111000)%Q 100%Q 1].

(** Three snapshots of range 100 m on one meridian and in one micro cell,
    the first and the third with the same id: at 0 m, 200 m and 150 m. *)
Definition sharedIdTriple : list VehicleSnapshot.t :=
  [VehicleSnapshot.mk 1 0%Q 0%Q 100%Q 0;
   VehicleSnapshot.mk 2 0%Q (200 # 111000)%Q 100%Q 0;
   VehicleSnapshot.mk 1 0%Q (150 # 111000)%Q 100%Q 0].


(** The micro cells 0 and 1, neighbours of each other. *)
Definition twoCells : gmap Z (gset Z) := {[ 0 := {[ 1 ]}; 1 := {[ 0 ]} ]}.

(** A road of 10 m from vertex 0 to vertex 1, and a vehicle of 14 m/s that
    starts at vertex 0 with vertex 1 as its goal. *)
Definition twoVertexRoad : RoadGraph.t :=
  RoadGraph.mk [VertexData.mk 100 0%Q 0%Q; VertexData.mk 101 0.0001%Q 0%Q]
               [Edge.mk 0%nat 1%nat 10%Q true "primary"].

Definition carAtStart : Vehicule.t :=
  newVehicule 1 0%nat 1%nat 14%Q 500%Q 5%Q 0%nat 0%nat.

(** A simulator of tick interval 50 ms and speed multiplier 1 with that
    vehicle, and one with a hundred vehicles. *)
Definition oneCarSimulator : Simulator :=
  mkSimulator twoVertexRoad 50 1%Q true false [Some carAtStart]
    newInterferenceGraph false 2.

Definition hundredCarSimulator : Simulator :=
  mkSimulator twoVertexRoad 50 1%Q true false
    (map (λ i, Some (newVehicule (Z.of_nat i) 0%nat 1%nat 14%Q 500%Q 5%Q 0%nat 0%nat))
         (seq 0 100))
    newInterferenceGraph false 100.

(** * Further functions of the sources *)

(** ** More of InterferenceGraph *)

(** [InterferenceGraph::clear]; the spatial grid, which it clears too, is
    outside the model. *)
Definition clear (G : InterferenceGraph.t) : InterferenceGraph.t :=
  InterferenceGraph.mk ∅ ∅
    (InterferenceGraph.m_useSpatialGrid G) (InterferenceGraph.m_gridInitialized G)
    (InterferenceGraph.m_computeTransitive G) ∅
    (InterferenceGraph.m_lastComparisons G) (InterferenceGraph.m_lastAvgNeighbors G).

(** [InterferenceGraph::getVehicleCount]: the size of the adjacency map,
    returned as an [int]. *)
Definition getVehicleCount (G : InterferenceGraph.t) : Z :=
  to_int (Z.of_nat (size (InterferenceGraph.m_adjacencyList G))).

(** The vehicles behind the non-null pointers of a vector, in its order. *)
Definition presentVehicles (vehicles : list (option Vehicule.t)) : list Vehicule.t :=
  omap (λ p, p) vehicles.

(** The pairs of positions [i < j] of a list, in the order of two nested
    loops. *)
Fixpoint orderedPairs {A : Type} (l : list A) : list (A * A) :=
  match l with
  | [] => []
  | x :: rest => map (pair x) rest ++ orderedPairs rest
  end.

(** The body of the inner loop of [buildGraphClassic] on a pair of non-null
    pointers. *)
Definition compareVehiclePair (g : RoadGraph.t) (st : gmap Z (gset Z) * Z)
    (p : Vehicule.t * Vehicule.t) : gmap Z (gset Z) * Z :=
  (compareVehicles g p.1 p.2 st.1, st.2 + 1).

(** The pair of vehicles [p] passes the gate and joins [i] and [j]. *)
Definition joinsVehicles (g : RoadGraph.t) (p : Vehicule.t * Vehicule.t) (i j : Z) : Prop :=
  vehiclesInRange g p.1 p.2 = true ∧
  ((i = Vehicule.id p.1 ∧ j = Vehicule.id p.2) ∨
   (i = Vehicule.id p.2 ∧ j = Vehicule.id p.1)).

(** A graph left by a build, from snapshots or from the vehicles, that had
    the computation of the transitive closure enabled. *)
Definition builtWithClosure (G' : InterferenceGraph.t) : Prop :=
  (∃ G snapshots antennaInfo,
     InterferenceGraph.m_computeTransitive G = true ∧
     G' = buildGraphFromSnapshots G snapshots antennaInfo) ∨
  (∃ g getNearbyVehicles G vehicles,
     InterferenceGraph.m_computeTransitive G = true ∧
     G' = buildGraph g getNearbyVehicles G vehicles).

(** The keys of [m'] are those of [m] and the vehicles that have a neighbour
    in [m']. *)
Definition keysFrom (m m' : gmap Z (gset Z)) : Prop :=
  ∀ k, is_Some (m' !! k) ↔ is_Some (m !! k) ∨ ∃ j, adjacent m' k j.

(** ** The choices of [pickNextEdge] *)

(** An outgoing edge of the current vertex with a valid road type. *)
Definition usableEdge (g : RoadGraph.t) (v : Vehicule.t) (e : Edge.t) : Prop :=
  e ∈ out_edges (Vehicule.currVertex v) g ∧ isValidRoad (Edge.type e) = true.

(** A usable edge to a vertex that is neither the previous one nor in the
    history. *)
Definition freshEdge (g : RoadGraph.t) (v : Vehicule.t) (e : Edge.t) : Prop :=
  usableEdge g v e ∧ Edge.target e ≠ Vehicule.previousVertex v ∧
  Edge.target e ∉ Vehicule.recentVertices v.

(** A usable edge to a vertex of the history other than the previous one. *)
Definition seenEdge (g : RoadGraph.t) (v : Vehicule.t) (e : Edge.t) : Prop :=
  usableEdge g v e ∧ Edge.target e ≠ Vehicule.previousVertex v ∧
  Edge.target e ∈ Vehicule.recentVertices v.

(** A usable edge back to the previous vertex. *)
Definition backtrackEdge (g : RoadGraph.t) (v : Vehicule.t) (e : Edge.t) : Prop :=
  usableEdge g v e ∧ Edge.target e = Vehicule.previousVertex v.

(** The members no function of the motion writes. *)
Definition sameVehicleParameters (v v' : Vehicule.t) : Prop :=
  Vehicule.id v' = Vehicule.id v ∧
  Vehicule.transmissionRange v' = Vehicule.transmissionRange v ∧
  Vehicule.collisionDist v' = Vehicule.collisionDist v ∧
  Vehicule.speed v' = Vehicule.speed v ∧
  Vehicule.headingSmoothingFactor v' = Vehicule.headingSmoothingFactor v.

(** The history holds at most [MAX_HISTORY] vertices. *)
Definition boundedHistory (v : Vehicule.t) : Prop :=
  (length (Vehicule.recentVertices v) ≤ MAX_HISTORY)%nat.

(** Two vectors of pointers with null pointers at the same places and, behind
    the others, vehicles with the same parameters. *)
Definition sameFleet (vehicles vehicles' : list (option Vehicule.t)) : Prop :=
  Forall2 (option_Forall2 sameVehicleParameters) vehicles vehicles'.

(** ** Roads on which [update] returns, and roads on which it does not *)

(** Every edge of a valid road type is at least [d] long. *)
Definition roadsAtLeast (g : RoadGraph.t) (d : Q) : Prop :=
  ∀ e, e ∈ RoadGraph.edges g → isValidRoad (Edge.type e) = true →
       (d <= Edge.distance e)%Q.

(** Every edge of a valid road type leads to a vertex with a valid outgoing
    edge. *)
Definition roadsContinue (g : RoadGraph.t) : Prop :=
  ∀ e, e ∈ RoadGraph.edges g → isValidRoad (Edge.type e) = true →
       hasValidOutgoingEdge (Edge.target e) g = true.

(** A set of vertices, none of them [goal], that the valid edges do not
    leave and whose valid outgoing edges have no length. *)
Definition zeroLengthTrap (g : RoadGraph.t) (goal : Vertex) (trap : Vertex → Prop) : Prop :=
  ∀ u, trap u →
       u ≠ goal ∧ hasValidOutgoingEdge u g = true ∧
       ∀ e, e ∈ out_edges u g → isValidRoad (Edge.type e) = true →
            (Edge.distance e <= 0)%Q ∧ trap (Edge.target e).

(** ** More of Simulator *)

(** [m_vertices]: the constructor fills it with the vertex descriptors of
    the graph, in their order; nothing writes it afterwards. *)
Definition m_vertices (s : Simulator) : list Vertex :=
  seq 0 (length (RoadGraph.vertices (graph s))).

Definition withNextVehicleId (n : Z) (s : Simulator) : Simulator :=
  mkSimulator (graph s) (m_tickIntervalMs s) (m_speedMultiplier s) (m_running s)
    (m_paused s) (m_vehicles s) (m_interferenceGraph s) (m_calculationInProgress s) n.

Definition withTickIntervalMs (tickIntervalMs : Z) (s : Simulator) : Simulator :=
  mkSimulator (graph s) tickIntervalMs (m_speedMultiplier s) (m_running s)
    (m_paused s) (m_vehicles s) (m_interferenceGraph s) (m_calculationInProgress s)
    (m_nextVehicleId s).

Definition withPaused (b : bool) (s : Simulator) : Simulator :=
  mkSimulator (graph s) (m_tickIntervalMs s) (m_speedMultiplier s) (m_running s)
    b (m_vehicles s) (m_interferenceGraph s) (m_calculationInProgress s)
    (m_nextVehicleId s).

(** [Simulator::isRunning] *)
Definition isRunning (s : Simulator) : bool := m_running s && negb (m_paused s).

(** [Simulator::pause]; the timer and the signal are outside the model. *)
Definition pause (s : Simulator) : Simulator := withPaused true s.

(** [Simulator::clearVehicles] *)
Definition clearVehicles (s : Simulator) : Simulator := withVehicles [] s.

(** [Simulator::reset] *)
Definition reset (s : Simulator) : Simulator :=
  let s := pause s in
  let s := clearVehicles s in
  withInterferenceGraph (clear (m_interferenceGraph s)) s.

(** [Simulator::addVehicle]; the assignment of the vehicle to an antenna of
    the grid is outside the model. *)
Definition addVehicle (v : option Vehicule.t) (s : Simulator) : Simulator :=
  match v with
  | Some _ => withVehicles (m_vehicles s ++ [v]) s
  | None => s
  end.

(** The squared distance [createVehicleNear] compares. *)
Definition squaredDistance (g : RoadGraph.t) (lon lat : Q) (u : Vertex) : Q :=
  let vLat := VertexData.lat (vertexAt g u) in
  let vLon := VertexData.lon (vertexAt g u) in
  ((vLon - lon) * (vLon - lon) + (vLat - lat) * (vLat - lat))%Q.

(** One turn of the search loop of [createVehicleNear]; the state is
    [nearestVertex] and [minDist], where [None] stands for
    [numeric_limits<double>::max()]. *)
Definition nearer (g : RoadGraph.t) (lon lat : Q) (st : Vertex * option Q) (u : Vertex)
    : Vertex * option Q :=
  let dist := squaredDistance g lon lat u in
  if match st.2 with
     | None => true
     | Some minDist => Qltb dist minDist
     end
  then
    if isValidVertex u g && hasValidOutgoingEdge u g then (u, Some dist) else st
  else st.

(** The loop of [createVehicleNear] that draws the goal again, at most
    [attempts] times. *)
Fixpoint retryGoal (attempts : nat) (g : RoadGraph.t) (vertices : list Vertex)
    (goal : Vertex) (r : Rng) : Vertex * Rng :=
  if negb (isValidVertex goal g) || negb (hasValidOutgoingEdge goal g) then
    match attempts with
    | O => (goal, r)
    | S attempts' =>
        let '(goal', r') := pickRandom 0%nat vertices r in
        retryGoal attempts' g vertices goal' r'
    end
  else (goal, r).

(** [Simulator::createVehicleNear]: the simulator, the pointer it returns and
    the random source afterwards.  [indeterminate] is the value of the two
    members the constructor of the vehicle leaves uninitialised;
    [m_nextVehicleId++] is written with the wrap-around of [int]. *)
Definition createVehicleNear (indeterminate : Vertex) (lon lat : Q) (s : Simulator)
    (r : Rng) : Simulator * option Vehicule.t * Rng :=
  match m_vertices s with
  | [] => (s, None, r)
  | first :: _ =>
      let nearestVertex :=
        (fold_left (nearer (graph s) lon lat) (m_vertices s) (first, None)).1 in
      let '(goal, r) := pickRandom first (m_vertices s) r in
      let '(goal, r) := retryGoal 100 (graph s) (m_vertices s) goal r in
      let car := newVehicule (m_nextVehicleId s) nearestVertex goal 14 500 5
                   indeterminate indeterminate in
      let s := withNextVehicleId (to_int (m_nextVehicleId s + 1)) s in
      (addVehicle (Some car) s, Some car, r)
  end.

(** The loops of [setVehicleCount] that draw a vertex again while it fails
    both tests; [fuel] bounds the number of draws. *)
Fixpoint redraw (fuel : nat) (g : RoadGraph.t) (vertices : list Vertex)
    (x : Vertex) (r : Rng) : Completion * Vertex * Rng :=
  if negb (isValidVertex x g) && negb (hasValidOutgoingEdge x g) then
    match fuel with
    | O => (OutOfFuel, x, r)
    | S fuel' =>
        let '(x', r') := pickRandom 0%nat vertices r in
        redraw fuel' g vertices x' r'
    end
  else (Returned, x, r).

(** The loop of [setVehicleCount] that adds [toAdd] vehicles. *)
Fixpoint addVehicles (fuel : nat) (indeterminate : Vertex) (toAdd : nat)
    (s : Simulator) (r : Rng) : Completion * Simulator * Rng :=
  match toAdd with
  | O => (Returned, s, r)
  | S toAdd' =>
      match m_vertices s with
      | [] => (Returned, s, r)
      | first :: _ =>
          let '(start, r) := pickRandom first (m_vertices s) r in
          let '(goal, r) := pickRandom first (m_vertices s) r in
          match redraw fuel (graph s) (m_vertices s) start r with
          | (OutOfFuel, _, r) => (OutOfFuel, s, r)
          | (Returned, start, r) =>
              match redraw fuel (graph s) (m_vertices s) goal r with
              | (OutOfFuel, _, r) => (OutOfFuel, s, r)
              | (Returned, goal, r) =>
                  let car := newVehicule (m_nextVehicleId s) start goal 14 500 5
                               indeterminate indeterminate in
                  let s := withNextVehicleId (to_int (m_nextVehicleId s + 1)) s in
                  addVehicles fuel indeterminate toAdd' (addVehicle (Some car) s) r
              end
          end
      end
  end.

(** The loop of [setVehicleCount] that removes vehicles from the back; it
    reads the id of each one, so a null pointer there has no defined
    outcome. *)
Fixpoint popVehicles (toRemove : nat) (vehicles : list (option Vehicule.t))
    : option (list (option Vehicule.t)) :=
  match toRemove with
  | O => Some vehicles
  | S toRemove' =>
      match last vehicles with
      | None => Some vehicles
      | Some None => None
      | Some (Some _) => popVehicles toRemove' (removelast vehicles)
      end
  end.

(** [Simulator::setVehicleCount]; [None] when it dereferences a null
    pointer. *)
Definition setVehicleCount (fuel : nat) (indeterminate : Vertex) (count : Z)
    (s : Simulator) (r : Rng) : option (Completion * Simulator * Rng) :=
  let currentCount := to_int (Z.of_nat (length (m_vehicles s))) in
  if count =? currentCount then Some (Returned, s, r)
  else if count <? currentCount then
    let toRemove := to_int (currentCount - count) in
    vehicles ← popVehicles (Z.to_nat toRemove) (m_vehicles s);
    Some (Returned, withVehicles vehicles s, r)
  else
    let toAdd := to_int (count - currentCount) in
    Some (addVehicles fuel indeterminate (Z.to_nat toAdd) s r).

(** The loop of [start] over the vehicles: the largest id, at least 0;
    [None] when it dereferences a null pointer. *)
Definition maxVehicleId (vehicles : list (option Vehicule.t)) : option Z :=
  fold_left
    (λ maxId p, m ← maxId; v ← p; Some (Z.max m (Vehicule.id v)))
    vehicles (Some 0).

(** [Simulator::start]: the simulator afterwards and the initialisation of
    the grid, if there is one; the timers are outside the model. *)
Definition start (tickIntervalMs : Z) (s : Simulator)
    : option (Simulator * option GridInitialization) :=
  let s := mkSimulator (graph s) tickIntervalMs (m_speedMultiplier s) true false
             (m_vehicles s) (m_interferenceGraph s) (m_calculationInProgress s)
             (m_nextVehicleId s) in
  match m_vehicles s with
  | [] => Some (s, None)
  | _ :: _ =>
      maxId ← maxVehicleId (m_vehicles s);
      let s := withNextVehicleId (to_int (maxId + 1)) s in
      let '(G, init) := initializeSpatialGrid (m_interferenceGraph s) (m_vehicles s) 5 20 in
      Some (withInterferenceGraph G s, init)
  end.

(** Every vehicle of the simulator has an id below [m_nextVehicleId], and no
    two have the same. *)
Definition freshIds (s : Simulator) : Prop :=
  NoDup (Vehicule.id <$> presentVehicles (m_vehicles s)) ∧
  ∀ v, Some v ∈ m_vehicles s → Vehicule.id v < m_nextVehicleId s.

(** A vertex that passes both tests of the vehicle placement. *)
Definition placeable (g : RoadGraph.t) (u : Vertex) : bool :=
  isValidVertex u g && hasValidOutgoingEdge u g.

(** ** Collision avoidance (vehicule.h, vehicule.cpp) *)

(** [Vehicule::setSpeed] *)
Definition setSpeed (s : Q) (v : Vehicule.t) : Vehicule.t :=
  Vehicule.mk (Vehicule.id v) (Vehicule.start v) (Vehicule.goal v)
    (Vehicule.nextVertex v) (Vehicule.currEdge v) (Vehicule.previousVertex v)
    (Vehicule.collisionDist v) (Vehicule.transmissionRange v) s
    (Vehicule.recentVertices v) (Vehicule.stuckCounter v) (Vehicule.currVertex v)
    (Vehicule.edgeLength v) (Vehicule.positionOnEdge v) (Vehicule.currentHeading v)
    (Vehicule.targetHeading v) (Vehicule.headingSmoothingFactor v).

(** The member [slowFactor]: its in-class value, which nothing writes. *)
Definition slowFactor : Q := 0.8%Q.

(** [Vehicule::avoidCollision]; [neighbors] holds the vehicles behind the
    pointers of the member [neighbors]. *)
Definition avoidCollision (g : RoadGraph.t) (neighbors : list Vehicule.t)
    (v : Vehicule.t) : Vehicule.t :=
  fold_left
    (λ v n,
       let dist := calculateDist g v n in
       if Qleb dist (Vehicule.collisionDist v)
       then setSpeed (Vehicule.speed v * slowFactor)%Q v else v)
    neighbors v.

(** The neighbours within the collision distance of [v]. *)
Definition tooClose (g : RoadGraph.t) (neighbors : list Vehicule.t) (v : Vehicule.t)
    : list Vehicule.t :=
  filter (λ n, Qleb (calculateDist g v n) (Vehicule.collisionDist v) = true) neighbors.

(** The speed after [k] executions of [speed *= slowFactor]. *)
Definition slowedSpeed (k : nat) (speed : Q) : Q :=
  Nat.iter k (λ speed, (speed * slowFactor)%Q) speed.

(** ** More sample data *)

(** A second vehicle, standing at vertex 1 of [twoVertexRoad]. *)
Definition carAtGoal : Vehicule.t :=
  newVehicule 2 1%nat 0%nat 14%Q 500%Q 5%Q 1%nat 1%nat.

(** [carAtStart] on the edge it picks on [twoVertexRoad], with a position
    beyond the end of the edge. *)
Definition carPastTheEdge : Vehicule.t :=
  Vehicule.set_positionOnEdge 25%Q (pickNextEdge twoVertexRoad carAtStart zeroRng).1.

(** Two vertices joined by a road of 10 m in each direction. *)
Definition ringRoad : RoadGraph.t :=
  RoadGraph.mk [VertexData.mk 100 0%Q 0%Q; VertexData.mk 101 0.0001%Q 0%Q]
               [Edge.mk 0%nat 1%nat 10%Q false "primary";
                Edge.mk 1%nat 0%nat 10%Q false "primary"].

(** A vertex with a road of length 0 back to itself, and a second vertex
    that no road reaches. *)
Definition zeroLoopRoad : RoadGraph.t :=
  RoadGraph.mk [VertexData.mk 100 0%Q 0%Q; VertexData.mk 101 0.0001%Q 0%Q]
               [Edge.mk 0%nat 0%nat 0%Q true "primary"].

(** Two vertices joined by a footway, which is no valid road. *)
Definition footpathRoad : RoadGraph.t :=
  RoadGraph.mk [VertexData.mk 100 0%Q 0%Q; VertexData.mk 101 0.0001%Q 0%Q]
               [Edge.mk 0%nat 1%nat 10%Q false "footway"].

(** A simulator without vehicles on [footpathRoad], and [oneCarSimulator]
    with a calculation in progress. *)
Definition footpathSimulator : Simulator :=
  mkSimulator footpathRoad 50 1%Q true false [] newInterferenceGraph false 0.

Definition busySimulator : Simulator := withCalculationInProgress true oneCarSimulator.

(** * Properties *)

(** ** Adjacency maps *)

Lemma adjacent_adjInsert a b m i j :
  adjacent (adjInsert a b m) i j ↔ adjacent m i j ∨ (i = a ∧ j = b).
Proof.
  unfold adjacent, adjInsert. destruct (decide (i = a)) as [->|Hne].
  - rewrite lookup_insert_eq. split.
    + intros (s & [= <-] & Hj). apply elem_of_union in Hj as [Hj|Hj].
      * right. apply elem_of_singleton in Hj. auto.
      * left. destruct (m !! a) as [s|]; simpl in Hj; [eauto | set_solver].
    + intros [(s & Hs & Hj) | [_ ->]].
      * eexists; split; [reflexivity|]. rewrite Hs. simpl. set_solver.
      * eexists; split; [reflexivity|]. set_solver.
  - rewrite lookup_insert_ne by congruence. split; [auto | intros [?|[? _]]; [auto | contradiction]].
Qed.

Lemma adjacent_addEdge a b m i j :
  adjacent (addEdge a b m) i j ↔
  adjacent m i j ∨ (i = a ∧ j = b) ∨ (i = b ∧ j = a).
Proof. unfold addEdge. rewrite !adjacent_adjInsert. tauto. Qed.

Lemma lookup_adjInsert_is_Some a b m k :
  is_Some (adjInsert a b m !! k) ↔ is_Some (m !! k) ∨ k = a.
Proof.
  unfold adjInsert. destruct (decide (k = a)) as [->|Hne].
  - rewrite lookup_insert_eq. split; eauto.
  - rewrite lookup_insert_ne by congruence. split; [auto | intros [?|?]; [auto | contradiction]].
Qed.

Lemma lookup_addEdge_is_Some a b m k :
  is_Some (addEdge a b m !! k) ↔ is_Some (m !! k) ∨ k = a ∨ k = b.
Proof. unfold addEdge. rewrite !lookup_adjInsert_is_Some. tauto. Qed.

Lemma symmetricAdjacency_addEdge a b m :
  symmetricAdjacency m → symmetricAdjacency (addEdge a b m).
Proof.
  intros Hm i j. rewrite !adjacent_addEdge. specialize (Hm i j). tauto.
Qed.

Lemma noEdges_symmetric m : noEdges m → symmetricAdjacency m.
Proof. intros Hm i j. split; intros H; destruct (Hm _ _ H). Qed.

Lemma emptyAdjacency_from_lookup (snapshots : list VehicleSnapshot.t)
    (m : gmap Z (gset Z)) (k : Z) :
  fold_left (λ m snap, <[VehicleSnapshot.id snap := ∅]> m) snapshots m !! k =
  if bool_decide (k ∈ VehicleSnapshot.id <$> snapshots) then Some ∅ else m !! k.
Proof.
  revert m. induction snapshots as [|s l IH]; intros m.
  - done.
  - cbn [fold_left]. rewrite IH, fmap_cons.
    destruct (decide (k ∈ VehicleSnapshot.id <$> l)) as [Hin|Hin].
    + rewrite !bool_decide_eq_true_2; [done | | done]. by apply list_elem_of_further.
    + rewrite (bool_decide_eq_false_2 _ Hin).
      destruct (decide (k = VehicleSnapshot.id s)) as [->|Hne].
      * rewrite lookup_insert_eq, bool_decide_eq_true_2; [done | apply list_elem_of_here].
      * rewrite lookup_insert_ne by congruence.
        rewrite bool_decide_eq_false_2; [done|].
        intros [?|?]%elem_of_cons; contradiction.
Qed.

Lemma emptyAdjacency_lookup (snapshots : list VehicleSnapshot.t) (k : Z) :
  emptyAdjacency snapshots !! k =
  if bool_decide (k ∈ VehicleSnapshot.id <$> snapshots) then Some ∅ else None.
Proof. unfold emptyAdjacency. by rewrite emptyAdjacency_from_lookup, lookup_empty. Qed.

Lemma emptyAdjacency_noEdges snapshots : noEdges (emptyAdjacency snapshots).
Proof.
  intros i j (s & Hs & Hj). rewrite emptyAdjacency_lookup in Hs.
  case_bool_decide; [|done]. injection Hs as <-. set_solver.
Qed.

(** ** The pairs a build from snapshots compares *)

Lemma comparePairs_app l1 l2 st :
  comparePairs (l1 ++ l2) st = comparePairs l2 (comparePairs l1 st).
Proof. apply fold_left_app. Qed.

Lemma compareWithEach_pairs snapshots v1 indices st :
  compareWithEach snapshots v1 indices st =
  comparePairs (pairsWithEach snapshots v1 indices) st.
Proof.
  unfold compareWithEach, pairsWithEach, comparePairs. revert st.
  induction indices as [|i l IH]; intros st; [done|].
  cbn [fold_left omap list_omap]. destruct (snapshotAt snapshots i); simpl; apply IH.
Qed.

Lemma compareFrom_pairs snapshots i1 indices st :
  match snapshotAt snapshots i1 with
  | None => st
  | Some v1 => compareWithEach snapshots v1 indices st
  end = comparePairs (pairsFrom snapshots i1 indices) st.
Proof.
  unfold pairsFrom. destruct (snapshotAt snapshots i1); [|done].
  apply compareWithEach_pairs.
Qed.

Lemma compareWithinAntenna_pairs snapshots vehicleIndices st :
  compareWithinAntenna snapshots vehicleIndices st =
  comparePairs (pairsWithin snapshots vehicleIndices) st.
Proof.
  revert st. induction vehicleIndices as [|i l IH]; intros st; [done|].
  cbn [compareWithinAntenna pairsWithin].
  by rewrite IH, compareFrom_pairs, comparePairs_app.
Qed.

Lemma compareAcrossAntennas_pairs snapshots vehicleIndices neighborVehicles st :
  compareAcrossAntennas snapshots vehicleIndices neighborVehicles st =
  comparePairs (pairsAcross snapshots vehicleIndices neighborVehicles) st.
Proof.
  unfold compareAcrossAntennas, pairsAcross. revert st.
  induction vehicleIndices as [|i l IH]; intros st; [done|].
  cbn [fold_left flat_map].
  by rewrite IH, compareFrom_pairs, comparePairs_app.
Qed.

Lemma compareWithNeighborAntenna_pairs snapshots info antennaId vehicleIndices st nid :
  compareWithNeighborAntenna snapshots info antennaId vehicleIndices st nid =
  comparePairs (pairsWithNeighbor snapshots info antennaId vehicleIndices nid) st.
Proof.
  unfold compareWithNeighborAntenna, pairsWithNeighbor.
  destruct (nid <=? antennaId); [done|].
  destruct (AntennaNeighborhood.vehiclesPerAntenna info !! nid); [|done].
  apply compareAcrossAntennas_pairs.
Qed.

Lemma processAntenna_pairs snapshots info st entry :
  processAntenna snapshots info st entry =
  comparePairs (pairsOfAntenna snapshots info entry) st.
Proof.
  destruct entry as [antennaId vehicleIndices].
  unfold processAntenna, pairsOfAntenna. cbn [fst snd].
  rewrite comparePairs_app, compareWithinAntenna_pairs.
  destruct (AntennaNeighborhood.neighborAntennas info !! antennaId) as [nb|]; [|done].
  generalize (comparePairs (pairsWithin snapshots vehicleIndices) st).
  induction (elements nb) as [|n l IH]; intros st'; [done|].
  cbn [fold_left flat_map].
  by rewrite IH, compareWithNeighborAntenna_pairs, comparePairs_app.
Qed.

Lemma compareAllPairs_pairs snapshots st :
  compareAllPairs snapshots st = comparePairs (pairsAll snapshots) st.
Proof.
  revert st. induction snapshots as [|v l IH]; intros st; [done|].
  cbn [compareAllPairs pairsAll]. rewrite IH, comparePairs_app. f_equal.
  unfold comparePairs. clear IH. revert st.
  induction l as [|w l' IHl]; intros st; [done|]. cbn [fold_left map]. apply IHl.
Qed.

Lemma snapshotEdges_pairs snapshots antennaInfo :
  snapshotEdges snapshots antennaInfo =
  comparePairs (comparedPairs snapshots antennaInfo) (emptyAdjacency snapshots, 0).
Proof.
  unfold snapshotEdges, comparedPairs.
  destruct antennaInfo as [info|]; [|apply compareAllPairs_pairs].
  case_bool_decide; [|apply compareAllPairs_pairs].
  generalize (emptyAdjacency snapshots, 0).
  induction (map_to_list (AntennaNeighborhood.vehiclesPerAntenna info)) as [|e l IH];
    intros st; [done|].
  cbn [fold_left flat_map].
  by rewrite IH, processAntenna_pairs, comparePairs_app.
Qed.

Lemma comparePairs_count pairs adj c :
  (comparePairs pairs (adj, c)).2 = c + Z.of_nat (length pairs).
Proof.
  revert adj c. induction pairs as [|p l IH]; intros adj c.
  - simpl. lia.
  - unfold comparePairs in *. cbn [fold_left comparePair]. rewrite IH.
    cbn [length]. lia.
Qed.

Lemma comparePairs_adjacent pairs adj c i j :
  adjacent (comparePairs pairs (adj, c)).1 i j ↔
  adjacent adj i j ∨ ∃ p, p ∈ pairs ∧ joins p i j.
Proof.
  revert adj c. induction pairs as [|p l IH]; intros adj c.
  - simpl. split; [auto|]. intros [?|(p & Hp & _)]; [done|]. by apply not_elem_of_nil in Hp.
  - unfold comparePairs in *. cbn [fold_left comparePair]. rewrite IH.
    unfold joins at 2. destruct (withinBothRanges p.1 p.2) eqn:Hgate.
    + rewrite adjacent_addEdge. split.
      * intros [[?|Hij]|(q & Hq & Hj)]; [by left | |].
        -- right. exists p. split; [apply list_elem_of_here|]. by split.
        -- right. exists q. split; [by apply list_elem_of_further|done].
      * intros [?|(q & [->|Hq]%elem_of_cons & Hj)]; [by left; left | |].
        -- left; right. by destruct Hj.
        -- right. by exists q.
    + split.
      * intros [?|(q & Hq & Hj)]; [by left|].
        right. exists q. split; [by apply list_elem_of_further|done].
      * intros [?|(q & [->|Hq]%elem_of_cons & Hj)]; [by left | |].
        -- destruct Hj as [Hj _]. congruence.
        -- right. by exists q.
Qed.


(** The adjacency of a build from snapshots: exactly the compared pairs that
    pass the gate, in both directions. *)
Lemma snapshotEdges_adjacent snapshots antennaInfo i j :
  adjacent (snapshotEdges snapshots antennaInfo).1 i j ↔
  ∃ p, p ∈ comparedPairs snapshots antennaInfo ∧ joins p i j.
Proof.
  rewrite snapshotEdges_pairs, comparePairs_adjacent. split; [|auto].
  intros [H|H]; [|done]. by apply emptyAdjacency_noEdges in H.
Qed.

Lemma snapshotEdges_symmetric snapshots antennaInfo :
  symmetricAdjacency (snapshotEdges snapshots antennaInfo).1.
Proof.
  intros i j. rewrite !snapshotEdges_adjacent.
  split; intros (p & Hp & Hg & Hij); exists p; (split; [done|]); split; tauto.
Qed.

(** ** Breadth-first traversal *)

Lemma size_difference_step (U V : gset Z) (x : Z) :
  x ∈ U → x ∉ V → size (U ∖ V) = S (size (U ∖ ({[x]} ∪ V))).
Proof.
  intros HU HV.
  assert (U ∖ V = {[x]} ∪ (U ∖ ({[x]} ∪ V))) as ->.
  { apply set_eq. intros y. set_unfold. destruct (decide (y = x)) as [->|Hne]; tauto. }
  rewrite size_union; [by rewrite size_singleton|].
  intros y Hy1 Hy2. apply elem_of_singleton in Hy1 as ->.
  apply elem_of_difference in Hy2 as [_ Hy2]. apply Hy2, elem_of_union_l.
  by apply elem_of_singleton.
Qed.

(** The loop over the neighbours marks each of them as visited and queues
    those that were not. *)
Lemma visitNeighbors_spec (l : list Z) (visited : gset Z) (toVisit : list Z) :
  ∃ visited' new,
    fold_left visitNeighbor l (visited, toVisit) = (visited', toVisit ++ new) ∧
    (∀ x, x ∈ visited' ↔ x ∈ visited ∨ x ∈ l) ∧
    (∀ x, x ∈ new ↔ x ∈ l ∧ x ∉ visited) ∧
    (∀ U : gset Z, (∀ x, x ∈ l → x ∈ U) →
       (size (U ∖ visited') + length new = size (U ∖ visited))%nat).
Proof.
  revert visited toVisit. induction l as [|n l IH]; intros visited toVisit.
  - exists visited, []. rewrite app_nil_r. split; [done|]. split; [|split].
    + intros x. split; [auto | intros [?|Hx]; [done | by apply not_elem_of_nil in Hx]].
    + intros x. split; [intros Hx | intros [Hx _]]; by apply not_elem_of_nil in Hx.
    + intros U _. simpl. lia.
  - cbn [fold_left]. unfold visitNeighbor at 2.
    destruct (decide (n ∈ visited)) as [Hin|Hin].
    + destruct (IH visited toVisit) as (V' & new & Hfold & HV & Hnew & Hsize).
      exists V', new. split; [done|]. split; [|split].
      * intros x. rewrite HV, elem_of_cons. split; [tauto|].
        intros [?|[->|?]]; auto.
      * intros x. rewrite Hnew, elem_of_cons. split; [tauto|].
        intros [[->|?] ?]; [contradiction | auto].
      * intros U HU. apply Hsize. intros x Hx. apply HU. by apply list_elem_of_further.
    + destruct (IH ({[n]} ∪ visited) (toVisit ++ [n]))
        as (V' & new & Hfold & HV & Hnew & Hsize).
      exists V', (n :: new). split; [|split; [|split]].
      * rewrite Hfold. f_equal. by rewrite <- app_assoc.
      * intros x. rewrite HV, elem_of_cons, elem_of_union, elem_of_singleton. tauto.
      * intros x. rewrite !elem_of_cons, Hnew. set_unfold.
        destruct (decide (x = n)) as [->|Hne]; tauto.
      * intros U HU. cbn [length].
        rewrite (size_difference_step U visited n);
          [| apply HU, list_elem_of_here | done].
        rewrite <- (Hsize U); [lia|].
        intros x Hx. apply HU. by apply list_elem_of_further.
Qed.

Lemma graphNodes_start adj startId : startId ∈ graphNodes adj startId.
Proof. unfold graphNodes. set_solver. Qed.

Lemma graphNodes_neighbors adj startId k s x :
  adj !! k = Some s → x ∈ s → x ∈ graphNodes adj startId.
Proof.
  intros Hk Hx. unfold graphNodes. apply elem_of_union_r, elem_of_union_list.
  exists s. split; [|done]. apply list_elem_of_fmap. exists (k, s).
  split; [done|]. by apply elem_of_map_to_list.
Qed.

(** A budget of one turn per unvisited node and per queued node is enough
    for the loop to empty the queue. *)
Lemma bfsLoop_enough_fuel adj (U : gset Z) fuel visited toVisit :
  (∀ k s x, adj !! k = Some s → x ∈ s → x ∈ U) →
  (size (U ∖ visited) + length toVisit ≤ fuel)%nat →
  is_Some (bfsLoop fuel adj visited toVisit).
Proof.
  intros HU. revert visited toVisit.
  induction fuel as [|fuel IH]; intros visited toVisit Hfuel.
  - destruct toVisit; [by eexists | simpl in Hfuel; lia].
  - destruct toVisit as [|c rest]; [by eexists|]. cbn [bfsLoop].
    destruct (adj !! c) as [nbrs|] eqn:Hc.
    + destruct (visitNeighbors_spec (elements nbrs) visited rest)
        as (V' & new & -> & _ & _ & Hsize).
      apply IH. rewrite length_app.
      specialize (Hsize U). cbn [length] in Hfuel.
      rewrite <- Hsize in Hfuel; [lia|].
      intros x Hx. apply (HU c nbrs); [done|]. by apply elem_of_elements.
    + apply IH. cbn [length] in Hfuel. lia.
Qed.

(** The run [bfsReachable] starts never exhausts its budget. *)
Lemma bfsLoop_terminates adj startId :
  is_Some (bfsLoop (size (graphNodes adj startId)) adj {[startId]} [startId]).
Proof.
  apply (bfsLoop_enough_fuel adj (graphNodes adj startId)).
  - intros k s x. apply graphNodes_neighbors.
  - cbn [length].
    pose proof (size_difference_step (graphNodes adj startId) ∅ startId
                  (graphNodes_start adj startId) (not_elem_of_empty startId)) as Hsize.
    rewrite difference_empty_L, (right_id_L ∅ (∪)) in Hsize. lia.
Qed.

Lemma bfsInvariant_step_absent adj startId visited c rest :
  adj !! c = None →
  bfsInvariant adj startId visited (c :: rest) →
  bfsInvariant adj startId visited rest.
Proof.
  intros Hc (Hs & Hq & Hr & Hd). repeat split; [done | | done |].
  - intros x Hx. apply Hq. by apply list_elem_of_further.
  - intros x y Hx Hnot Hxy. destruct (decide (x = c)) as [->|Hne].
    + destruct Hxy as (s & Hs' & _). congruence.
    + apply (Hd x y); [done | | done].
      intros [?|?]%elem_of_cons; contradiction.
Qed.

Lemma bfsInvariant_step_present adj startId visited c rest nbrs visited' new :
  adj !! c = Some nbrs →
  (∀ x, x ∈ visited' ↔ x ∈ visited ∨ x ∈ elements nbrs) →
  (∀ x, x ∈ new ↔ x ∈ elements nbrs ∧ x ∉ visited) →
  bfsInvariant adj startId visited (c :: rest) →
  bfsInvariant adj startId visited' (rest ++ new).
Proof.
  intros Hc HV Hnew (Hs & Hq & Hr & Hd).
  assert (c ∈ visited) as Hcv by apply Hq, list_elem_of_here.
  repeat split.
  - apply HV. by left.
  - intros x [Hx|Hx]%elem_of_app; apply HV.
    + left. apply Hq. by apply list_elem_of_further.
    + right. by apply Hnew in Hx as [? _].
  - intros x [Hx|Hx]%HV; [by apply Hr|].
    eapply rtc_r; [by apply Hr|]. exists nbrs. split; [done|]. by apply elem_of_elements.
  - intros x y Hx Hnot Hxy. apply HV.
    assert (x ∈ visited) as Hxv.
    { apply HV in Hx as [?|Hx]; [done|].
      destruct (decide (x ∈ visited)) as [?|Hnv]; [done|].
      exfalso. apply Hnot, elem_of_app. right. by apply Hnew. }
    destruct (decide (x = c)) as [->|Hne].
    + right. destruct Hxy as (s & Hs' & Hy). rewrite Hc in Hs'. injection Hs' as <-.
      by apply elem_of_elements.
    + left. apply (Hd x y); [done | | done].
      intros [?|Hin]%elem_of_cons; [contradiction|].
      apply Hnot, elem_of_app. by left.
Qed.

Lemma bfsInvariant_done adj startId visited :
  bfsInvariant adj startId visited [] →
  ∀ x, x ∈ visited ↔ rtc (adjacent adj) startId x.
Proof.
  intros (Hs & _ & Hr & Hd) x. split; [apply Hr|].
  revert x. apply rtc_ind_r; [done|].
  intros y z _ Hyz Hy. apply (Hd y z); [done | apply not_elem_of_nil | done].
Qed.

Lemma bfsLoop_reachable adj startId fuel visited toVisit result :
  bfsInvariant adj startId visited toVisit →
  bfsLoop fuel adj visited toVisit = Some result →
  ∀ x, x ∈ result ↔ rtc (adjacent adj) startId x.
Proof.
  revert visited toVisit. induction fuel as [|fuel IH]; intros visited toVisit Hinv Hrun.
  - destruct toVisit as [|c rest]; [|done]. injection Hrun as <-.
    by apply bfsInvariant_done.
  - destruct toVisit as [|c rest].
    + injection Hrun as <-. by apply bfsInvariant_done.
    + cbn [bfsLoop] in Hrun. destruct (adj !! c) as [nbrs|] eqn:Hc.
      * destruct (visitNeighbors_spec (elements nbrs) visited rest)
          as (V' & new & Hfold & HV & Hnew & _).
        rewrite Hfold in Hrun.
        apply (IH V' (rest ++ new)); [|done].
        by apply (bfsInvariant_step_present adj startId visited c rest nbrs).
      * apply (IH visited rest); [|done].
        by apply (bfsInvariant_step_absent adj startId visited c).
Qed.

Lemma bfsInvariant_initial adj startId :
  bfsInvariant adj startId {[startId]} [startId].
Proof.
  repeat split.
  - set_solver.
  - intros x Hx. apply list_elem_of_singleton in Hx. set_solver.
  - intros x Hx. apply elem_of_singleton in Hx as ->. apply rtc_refl.
  - intros x y Hx Hnot. apply elem_of_singleton in Hx as ->.
    exfalso. apply Hnot, list_elem_of_here.
Qed.

(** What [bfsReachable] returns: the ids other than [startId] that a path of
    at least one edge reaches. *)
Lemma bfsReachable_spec adj startId j :
  j ∈ bfsReachable adj startId ↔ j ≠ startId ∧ tc (adjacent adj) startId j.
Proof.
  unfold bfsReachable.
  destruct (bfsLoop_terminates adj startId) as [result Hrun]. rewrite Hrun. simpl.
  pose proof (bfsLoop_reachable adj startId _ _ _ result
                (bfsInvariant_initial adj startId) Hrun j) as Hres.
  rewrite elem_of_difference, elem_of_singleton, Hres, rtc_tc.
  split; [intros [[?|?] ?]; [congruence | done] | intros [? ?]; auto].
Qed.

Lemma computeTransitiveClosure_lookup adj i :
  computeTransitiveClosure adj !! i =
  match adj !! i with
  | Some _ => Some (bfsReachable adj i)
  | None => None
  end.
Proof.
  unfold computeTransitiveClosure. rewrite map_lookup_imap.
  by destruct (adj !! i).
Qed.

(** ** The graph a build leaves *)

Lemma buildGraphFromSnapshots_adjacency G snapshots antennaInfo :
  InterferenceGraph.m_adjacencyList (buildGraphFromSnapshots G snapshots antennaInfo) =
  match snapshots with
  | [] => ∅
  | _ :: _ => (snapshotEdges snapshots antennaInfo).1
  end.
Proof.
  unfold buildGraphFromSnapshots. destruct snapshots as [|s l]; [done|].
  by destruct (snapshotEdges (s :: l) antennaInfo).
Qed.

Lemma buildGraphFromSnapshots_closure G snapshots antennaInfo :
  InterferenceGraph.m_transitiveClosure (buildGraphFromSnapshots G snapshots antennaInfo) =
  match snapshots with
  | [] => ∅
  | _ :: _ =>
      if InterferenceGraph.m_computeTransitive G
      then computeTransitiveClosure (snapshotEdges snapshots antennaInfo).1
      else ∅
  end.
Proof.
  unfold buildGraphFromSnapshots. destruct snapshots as [|s l]; [done|].
  by destruct (snapshotEdges (s :: l) antennaInfo).
Qed.

Lemma buildGraphFromSnapshots_comparisons G snapshots antennaInfo :
  snapshots ≠ [] →
  InterferenceGraph.m_lastComparisons (buildGraphFromSnapshots G snapshots antennaInfo) =
  Z.of_nat (length (comparedPairs snapshots antennaInfo)).
Proof.
  intros Hne. unfold buildGraphFromSnapshots. destruct snapshots as [|s l]; [done|].
  pose proof (snapshotEdges_pairs (s :: l) antennaInfo) as Hp.
  destruct (snapshotEdges (s :: l) antennaInfo) as [adj c]. cbn.
  apply (f_equal snd) in Hp. rewrite comparePairs_count in Hp. simpl in Hp. lia.
Qed.

Lemma buildGraph_adjacency g getNearbyVehicles G vehicles :
  InterferenceGraph.m_adjacencyList (buildGraph g getNearbyVehicles G vehicles) =
  match vehicles with
  | [] => ∅
  | _ :: _ => vehicleEdges g getNearbyVehicles G vehicles
  end.
Proof.
  unfold buildGraph, vehicleEdges. destruct vehicles as [|v l]; [done|].
  destruct (registerVehicles (v :: l)) as [vm adj].
  by destruct (if InterferenceGraph.m_useSpatialGrid G && _ then _ else _)
    as [[adj' c] a].
Qed.

Lemma buildGraph_closure g getNearbyVehicles G vehicles :
  InterferenceGraph.m_transitiveClosure (buildGraph g getNearbyVehicles G vehicles) =
  match vehicles with
  | [] => ∅
  | _ :: _ =>
      if InterferenceGraph.m_computeTransitive G
      then computeTransitiveClosure (vehicleEdges g getNearbyVehicles G vehicles)
      else ∅
  end.
Proof.
  unfold buildGraph, vehicleEdges. destruct vehicles as [|v l]; [done|].
  destruct (registerVehicles (v :: l)) as [vm adj].
  by destruct (if InterferenceGraph.m_useSpatialGrid G && _ then _ else _)
    as [[adj' c] a].
Qed.

Lemma noEdges_empty : noEdges ∅.
Proof. intros i j (s & Hs & _). by rewrite lookup_empty in Hs. Qed.

Lemma noEdges_insert_empty k m : noEdges m → noEdges (<[k := ∅]> m).
Proof.
  intros Hm i j (s & Hs & Hj). destruct (decide (i = k)) as [->|Hne].
  - rewrite lookup_insert_eq in Hs. injection Hs as <-. by apply not_elem_of_empty in Hj.
  - rewrite lookup_insert_ne in Hs by congruence. apply (Hm i j). by exists s.
Qed.

Lemma registerVehicles_noEdges vehicles : noEdges (registerVehicles vehicles).2.
Proof.
  unfold registerVehicles.
  assert (∀ st : gmap Z Vehicule.t * gmap Z (gset Z), noEdges st.2 →
            noEdges (fold_left
              (λ st p, match p with
                       | None => st
                       | Some v => (<[Vehicule.id v := v]> st.1,
                                    <[Vehicule.id v := ∅]> st.2)
                       end) vehicles st).2) as Hgen.
  { induction vehicles as [|[v|] l IH]; intros st Hst; cbn [fold_left]; [done | |].
    - apply IH. cbn. by apply noEdges_insert_empty.
    - by apply IH. }
  apply Hgen. apply noEdges_empty.
Qed.

Lemma compareVehicles_symmetric g v1 v2 adj :
  symmetricAdjacency adj → symmetricAdjacency (compareVehicles g v1 v2 adj).
Proof.
  intros Hadj. unfold compareVehicles. destruct (vehiclesInRange g v1 v2); [|done].
  by apply symmetricAdjacency_addEdge.
Qed.

Lemma classicPairs_symmetric g vehicles st :
  symmetricAdjacency st.1 → symmetricAdjacency (classicPairs g vehicles st).1.
Proof.
  revert st. induction vehicles as [|[v1|] l IH]; intros st Hst; cbn [classicPairs];
    [done | | by apply IH].
  apply IH. clear IH. revert st Hst.
  induction l as [|[v2|] l' IHl]; intros st Hst; cbn [fold_left]; [done | |].
  - apply IHl. cbn. by apply compareVehicles_symmetric.
  - by apply IHl.
Qed.

Lemma compareWithNearby_symmetric g vehicleMap v1 nearbyIds st :
  symmetricAdjacency st.1 →
  symmetricAdjacency (fold_left (compareWithNearby g vehicleMap v1) nearbyIds st).1.
Proof.
  revert st. induction nearbyIds as [|n l IH]; intros st Hst; cbn [fold_left]; [done|].
  apply IH. unfold compareWithNearby. destruct (n <=? Vehicule.id v1); [done|].
  destruct (vehicleMap !! n); cbn; [by apply compareVehicles_symmetric | done].
Qed.

Lemma buildGraphWithSpatialGrid_symmetric g getNearbyVehicles vehicleMap vehicles adj :
  symmetricAdjacency adj →
  symmetricAdjacency
    (buildGraphWithSpatialGrid g getNearbyVehicles vehicleMap vehicles adj).1.1.
Proof.
  intros Hadj. unfold buildGraphWithSpatialGrid.
  match goal with
  | |- context [fold_left ?f vehicles ?st0] =>
      assert (∀ st : gmap Z (gset Z) * Z * Z, symmetricAdjacency st.1.1 →
                symmetricAdjacency (fold_left f vehicles st).1.1) as Hgen
  end.
  { induction vehicles as [|[v1|] l IH]; intros st Hst; cbn [fold_left];
      [done | | by apply IH].
    apply IH.
    pose proof (compareWithNearby_symmetric g vehicleMap v1
                  (getNearbyVehicles (Vehicule.id v1)) st.1 Hst) as Hsym.
    by destruct (fold_left _ (getNearbyVehicles (Vehicule.id v1)) st.1). }
  specialize (Hgen (adj, 0, 0) Hadj).
  by destruct (fold_left _ vehicles (adj, 0, 0)) as [[adj' c] n].
Qed.

Lemma buildGraphClassic_symmetric g vehicles adj :
  symmetricAdjacency adj →
  symmetricAdjacency (buildGraphClassic g vehicles adj).1.1.
Proof.
  intros Hadj. unfold buildGraphClassic.
  pose proof (classicPairs_symmetric g vehicles (adj, 0) Hadj) as Hsym.
  by destruct (classicPairs g vehicles (adj, 0)).
Qed.

Lemma vehicleEdges_symmetric g getNearbyVehicles G vehicles :
  symmetricAdjacency (vehicleEdges g getNearbyVehicles G vehicles).
Proof.
  unfold vehicleEdges.
  pose proof (registerVehicles_noEdges vehicles) as Hne.
  destruct (registerVehicles vehicles) as [vm adj]. apply noEdges_symmetric in Hne.
  destruct (_ && _).
  - by apply buildGraphWithSpatialGrid_symmetric.
  - by apply buildGraphClassic_symmetric.
Qed.

Lemma buildGraphFromSnapshots_symmetric G snapshots antennaInfo :
  symmetricAdjacency
    (InterferenceGraph.m_adjacencyList (buildGraphFromSnapshots G snapshots antennaInfo)).
Proof.
  rewrite buildGraphFromSnapshots_adjacency. destruct snapshots as [|s l].
  - apply noEdges_symmetric, noEdges_empty.
  - apply snapshotEdges_symmetric.
Qed.

(** ** Claims on the interference graph *)

(** C3. Whatever build produced it (from snapshots, with an antenna info or
    without one, or from the vehicles, by the classic path or by the spatial
    grid, with any answer of the grid), the adjacency map is symmetric:
    j is in adjacency[i] exactly when i is in adjacency[j]. *)
Theorem adjacency_symmetric :
  (∀ G snapshots antennaInfo i j,
     adjacent (InterferenceGraph.m_adjacencyList
                 (buildGraphFromSnapshots G snapshots antennaInfo)) i j ↔
     adjacent (InterferenceGraph.m_adjacencyList
                 (buildGraphFromSnapshots G snapshots antennaInfo)) j i) ∧
  (∀ g getNearbyVehicles G vehicles i j,
     adjacent (InterferenceGraph.m_adjacencyList
                 (buildGraph g getNearbyVehicles G vehicles)) i j ↔
     adjacent (InterferenceGraph.m_adjacencyList
                 (buildGraph g getNearbyVehicles G vehicles)) j i) ∧
  (∀ g vehicles i j,
     adjacent (buildGraphClassic g vehicles (registerVehicles vehicles).2).1.1 i j ↔
     adjacent (buildGraphClassic g vehicles (registerVehicles vehicles).2).1.1 j i) ∧
  (∀ g getNearbyVehicles vehicles i j,
     adjacent (buildGraphWithSpatialGrid g getNearbyVehicles
                 (registerVehicles vehicles).1 vehicles
                 (registerVehicles vehicles).2).1.1 i j ↔
     adjacent (buildGraphWithSpatialGrid g getNearbyVehicles
                 (registerVehicles vehicles).1 vehicles
                 (registerVehicles vehicles).2).1.1 j i).
Proof.
  split; [|split; [|split]].
  - intros G snapshots antennaInfo. apply buildGraphFromSnapshots_symmetric.
  - intros g getNearbyVehicles G vehicles. rewrite buildGraph_adjacency.
    destruct vehicles as [|v l].
    + apply noEdges_symmetric, noEdges_empty.
    + apply vehicleEdges_symmetric.
  - intros g vehicles. apply buildGraphClassic_symmetric, noEdges_symmetric,
      registerVehicles_noEdges.
  - intros g getNearbyVehicles vehicles.
    apply buildGraphWithSpatialGrid_symmetric, noEdges_symmetric,
      registerVehicles_noEdges.
Qed.

(** C2. With the computation of the transitive closure enabled, after a
    build every id i of the adjacency map has an entry closure[i], whose
    members are exactly the ids j other than i that an adjacency path of at
    least one edge reaches from i; i is not a member of closure[i]. *)
Theorem closure_is_reachability (G : InterferenceGraph.t)
    (snapshots : list VehicleSnapshot.t)
    (antennaInfo : option AntennaNeighborhood.t) (i : Z) :
  InterferenceGraph.m_computeTransitive G = true →
  is_Some (InterferenceGraph.m_adjacencyList
             (buildGraphFromSnapshots G snapshots antennaInfo) !! i) →
  ∃ reachable,
    InterferenceGraph.m_transitiveClosure
      (buildGraphFromSnapshots G snapshots antennaInfo) !! i = Some reachable ∧
    (∀ j, j ∈ reachable ↔
          j ≠ i ∧
          tc (adjacent (InterferenceGraph.m_adjacencyList
                          (buildGraphFromSnapshots G snapshots antennaInfo))) i j) ∧
    i ∉ reachable.
Proof.
  intros Hct. rewrite buildGraphFromSnapshots_adjacency, buildGraphFromSnapshots_closure.
  destruct snapshots as [|s l].
  - intros [x Hx]. by rewrite lookup_empty in Hx.
  - rewrite Hct. intros [x Hx]. exists (bfsReachable (snapshotEdges (s :: l) antennaInfo).1 i).
    split; [|split].
    + by rewrite computeTransitiveClosure_lookup, Hx.
    + intros j. apply bfsReachable_spec.
    + intros Hi. by apply bfsReachable_spec in Hi as [? _].
Qed.

(** The same for a build from the vehicles. *)
Lemma closure_is_reachability_vehicles g getNearbyVehicles G vehicles i :
  InterferenceGraph.m_computeTransitive G = true →
  is_Some (InterferenceGraph.m_adjacencyList
             (buildGraph g getNearbyVehicles G vehicles) !! i) →
  ∃ reachable,
    InterferenceGraph.m_transitiveClosure
      (buildGraph g getNearbyVehicles G vehicles) !! i = Some reachable ∧
    (∀ j, j ∈ reachable ↔
          j ≠ i ∧
          tc (adjacent (InterferenceGraph.m_adjacencyList
                          (buildGraph g getNearbyVehicles G vehicles))) i j).
Proof.
  intros Hct. rewrite buildGraph_adjacency, buildGraph_closure.
  destruct vehicles as [|v l].
  - intros [x Hx]. by rewrite lookup_empty in Hx.
  - rewrite Hct. intros [x Hx].
    exists (bfsReachable (vehicleEdges g getNearbyVehicles G (v :: l)) i). split.
    + by rewrite computeTransitiveClosure_lookup, Hx.
    + intros j. apply bfsReachable_spec.
Qed.

(** C10. [canCommunicate] reads the closure map only: on a graph built,
    from snapshots or from the vehicles, with the computation of the closure
    disabled it answers false for every pair of ids, and it answers false
    whenever the first id has no entry in the closure map. *)
Theorem canCommunicate_reads_closure_only :
  (∀ G snapshots antennaInfo id1 id2,
     InterferenceGraph.m_computeTransitive G = false →
     canCommunicate (buildGraphFromSnapshots G snapshots antennaInfo) id1 id2 = false) ∧
  (∀ g getNearbyVehicles G vehicles id1 id2,
     InterferenceGraph.m_computeTransitive G = false →
     canCommunicate (buildGraph g getNearbyVehicles G vehicles) id1 id2 = false) ∧
  (∀ G id1 id2,
     InterferenceGraph.m_transitiveClosure G !! id1 = None →
     canCommunicate G id1 id2 = false).
Proof.
  split; [|split].
  - intros G snapshots antennaInfo id1 id2 Hct. unfold canCommunicate.
    rewrite buildGraphFromSnapshots_closure, Hct.
    destruct snapshots; by rewrite lookup_empty.
  - intros g getNearbyVehicles G vehicles id1 id2 Hct. unfold canCommunicate.
    rewrite buildGraph_closure, Hct.
    destruct vehicles; by rewrite lookup_empty.
  - intros G id1 id2 Hnone. unfold canCommunicate. by rewrite Hnone.
Qed.

(** ** The fallback over all pairs *)

Lemma Qplus_comm_eq (x y : Q) : (x + y)%Q = (y + x)%Q.
Proof. unfold Qplus. f_equal; lia. Qed.

(** The gate, with the distance written out. *)
Lemma withinBothRanges_spec v1 v2 :
  withinBothRanges v1 v2 = true ↔
  let dy := ((VehicleSnapshot.lat v2 - VehicleSnapshot.lat v1) * 111000)%Q in
  let dx := ((VehicleSnapshot.lon v2 - VehicleSnapshot.lon v1) * 111000 *
             cos (VehicleSnapshot.lat v1 * M_PI / 180))%Q in
  let d := sqrt (dy * dy + dx * dx) in
  (d <= VehicleSnapshot.transmissionRange v1)%Q ∧
  (d <= VehicleSnapshot.transmissionRange v2)%Q.
Proof.
  unfold withinBothRanges, snapshotDistance, Qleb. cbv zeta.
  by rewrite andb_true_iff, !Qle_bool_iff.
Qed.

Lemma withinBothRanges_mutual v1 v2 :
  withinBothRanges v1 v2 = true ↔ withinMutualRange v1 v2.
Proof.
  rewrite withinBothRanges_spec. unfold withinMutualRange. cbv zeta.
  by rewrite (Qplus_comm_eq (_ * _) (_ * _)).
Qed.

Lemma pairsAll_length (snapshots : list VehicleSnapshot.t) :
  2 * Z.of_nat (length (pairsAll snapshots)) =
  Z.of_nat (length snapshots) * (Z.of_nat (length snapshots) - 1).
Proof.
  induction snapshots as [|v l IH]; [done|].
  cbn [pairsAll]. rewrite length_app, length_map. cbn [length]. lia.
Qed.

Lemma pairsAll_elem_of (snapshots : list VehicleSnapshot.t) x y :
  (x, y) ∈ pairsAll snapshots ↔
  ∃ i j, (i < j)%nat ∧ snapshots !! i = Some x ∧ snapshots !! j = Some y.
Proof.
  induction snapshots as [|v l IH].
  - split; [intros H; by apply not_elem_of_nil in H | by intros (i & j & _ & H & _)].
  - cbn [pairsAll]. rewrite elem_of_app, IH. split.
    + intros [Hin|(i & j & Hij & Hi & Hj)].
      * apply list_elem_of_fmap in Hin as (w & [= -> ->] & Hw).
        apply list_elem_of_lookup in Hw as [k Hk].
        exists 0%nat, (S k). split; [lia|]. by split.
      * exists (S i), (S j). split; [lia|]. by split.
    + intros (i & j & Hij & Hi & Hj). destruct j as [|j]; [lia|].
      destruct i as [|i].
      * left. injection Hi as ->. apply list_elem_of_fmap. exists y. split; [done|].
        apply list_elem_of_lookup. by exists j.
      * right. exists i, j. split; [lia|]. by split.
Qed.

(** C7. For a non-empty snapshot list and a null antenna info, or one whose
    vehicles-per-cell map is empty, the build compares the pairs of positions
    i < j of the list, n(n-1)/2 comparisons in all, with the distance and
    the two-sided gate of the cell path; the adjacency holds exactly the
    pairs of ids within mutual range, in both directions. *)
Theorem fallback_compares_all_pairs (G : InterferenceGraph.t)
    (snapshots : list VehicleSnapshot.t)
    (antennaInfo : option AntennaNeighborhood.t) :
  snapshots ≠ [] →
  (antennaInfo = None ∨
   ∃ info, antennaInfo = Some info ∧ AntennaNeighborhood.vehiclesPerAntenna info = ∅) →
  (∀ x y, (x, y) ∈ comparedPairs snapshots antennaInfo ↔
          ∃ i j, (i < j)%nat ∧ snapshots !! i = Some x ∧ snapshots !! j = Some y) ∧
  Z.of_nat (length (comparedPairs snapshots antennaInfo)) =
    Z.of_nat (length snapshots) * (Z.of_nat (length snapshots) - 1) / 2 ∧
  InterferenceGraph.m_lastComparisons (buildGraphFromSnapshots G snapshots antennaInfo) =
    Z.of_nat (length snapshots) * (Z.of_nat (length snapshots) - 1) / 2 ∧
  (∀ a b,
     adjacent (InterferenceGraph.m_adjacencyList
                 (buildGraphFromSnapshots G snapshots antennaInfo)) a b ↔
     ∃ i j vi vj,
       (i < j)%nat ∧ snapshots !! i = Some vi ∧ snapshots !! j = Some vj ∧
       withinMutualRange vi vj ∧
       ((a = VehicleSnapshot.id vi ∧ b = VehicleSnapshot.id vj) ∨
        (a = VehicleSnapshot.id vj ∧ b = VehicleSnapshot.id vi))).
Proof.
  intros Hne Hinfo.
  assert (comparedPairs snapshots antennaInfo = pairsAll snapshots) as Hpairs.
  { destruct Hinfo as [->|(info & -> & Hempty)]; [done|].
    unfold comparedPairs. by rewrite bool_decide_eq_false_2 by (by intros []). }
  assert (Z.of_nat (length (pairsAll snapshots)) =
          Z.of_nat (length snapshots) * (Z.of_nat (length snapshots) - 1) / 2) as Hcount.
  { pose proof (pairsAll_length snapshots) as Hlen. apply Z.div_unique_exact; lia. }
  split; [|split; [|split]].
  - intros x y. rewrite Hpairs. apply pairsAll_elem_of.
  - by rewrite Hpairs.
  - by rewrite buildGraphFromSnapshots_comparisons, Hpairs.
  - intros a b. rewrite buildGraphFromSnapshots_adjacency.
    destruct snapshots as [|s l]; [done|].
    rewrite snapshotEdges_adjacent, Hpairs. split.
    + intros ([vi vj] & Hin & Hgate & Hids).
      apply pairsAll_elem_of in Hin as (i & j & Hij & Hi & Hj).
      apply withinBothRanges_mutual in Hgate. by exists i, j, vi, vj.
    + intros (i & j & vi & vj & Hij & Hi & Hj & Hgate & Hids).
      apply withinBothRanges_mutual in Hgate.
      exists (vi, vj). split; [|by split].
      apply pairsAll_elem_of. by exists i, j.
Qed.

(** ** The pairs of the antenna path *)

Lemma elem_of_flat_map {A B : Type} (f : A → list B) (l : list A) (y : B) :
  y ∈ flat_map f l ↔ ∃ x, x ∈ l ∧ y ∈ f x.
Proof.
  rewrite list_elem_of_In, in_flat_map.
  split; intros (x & Hx & Hy); exists x; by rewrite ?list_elem_of_In in *.
Qed.

Lemma pairsWithEach_elem_of snapshots v1 indices x y :
  (x, y) ∈ pairsWithEach snapshots v1 indices ↔
  x = v1 ∧ ∃ i2, i2 ∈ indices ∧ snapshotAt snapshots i2 = Some y.
Proof.
  unfold pairsWithEach. rewrite list_elem_of_omap. split.
  - intros (i2 & Hi2 & Hp). destruct (snapshotAt snapshots i2) as [v2|] eqn:Hv2; [|done].
    simpl in Hp. injection Hp as <- <-. split; [done|]. by exists i2.
  - intros (-> & i2 & Hi2 & Hv2). exists i2. split; [done|]. by rewrite Hv2.
Qed.

Lemma pairsFrom_elem_of snapshots i1 indices x y :
  (x, y) ∈ pairsFrom snapshots i1 indices ↔
  snapshotAt snapshots i1 = Some x ∧
  ∃ i2, i2 ∈ indices ∧ snapshotAt snapshots i2 = Some y.
Proof.
  unfold pairsFrom. destruct (snapshotAt snapshots i1) as [v1|].
  - rewrite pairsWithEach_elem_of. split; intros [H1 H2]; (split; [congruence|done]).
  - split; [intros H; by apply not_elem_of_nil in H | by intros [? _]].
Qed.

Lemma pairsWithin_elem_of snapshots vehicleIndices x y :
  (x, y) ∈ pairsWithin snapshots vehicleIndices ↔
  ∃ p q i1 i2,
    (p < q)%nat ∧ vehicleIndices !! p = Some i1 ∧ vehicleIndices !! q = Some i2 ∧
    snapshotAt snapshots i1 = Some x ∧ snapshotAt snapshots i2 = Some y.
Proof.
  induction vehicleIndices as [|i l IH].
  - split; [intros H; by apply not_elem_of_nil in H | by intros (p & q & ? & ? & _ & H & _)].
  - cbn [pairsWithin]. rewrite elem_of_app, pairsFrom_elem_of, IH. split.
    + intros [(Hx & i2 & Hi2 & Hy)|(p & q & i1 & i2 & Hpq & Hp & Hq & Hx & Hy)].
      * apply list_elem_of_lookup in Hi2 as [q Hq].
        exists 0%nat, (S q), i, i2. split; [lia|]. by repeat split.
      * exists (S p), (S q), i1, i2. split; [lia|]. by repeat split.
    + intros (p & q & i1 & i2 & Hpq & Hp & Hq & Hx & Hy).
      destruct q as [|q]; [lia|]. destruct p as [|p].
      * left. injection Hp as ->. split; [done|]. exists i2. split; [|done].
        apply list_elem_of_lookup. by exists q.
      * right. exists p, q, i1, i2. split; [lia|]. by repeat split.
Qed.

Lemma pairsAcross_elem_of snapshots vehicleIndices neighborVehicles x y :
  (x, y) ∈ pairsAcross snapshots vehicleIndices neighborVehicles ↔
  ∃ i1 i2, i1 ∈ vehicleIndices ∧ i2 ∈ neighborVehicles ∧
           snapshotAt snapshots i1 = Some x ∧ snapshotAt snapshots i2 = Some y.
Proof.
  unfold pairsAcross. rewrite elem_of_flat_map. split.
  - intros (i1 & Hi1 & Hp). apply pairsFrom_elem_of in Hp as (Hx & i2 & Hi2 & Hy).
    by exists i1, i2.
  - intros (i1 & i2 & Hi1 & Hi2 & Hx & Hy). exists i1. split; [done|].
    apply pairsFrom_elem_of. split; [done|]. by exists i2.
Qed.

(** The pairs the loop over the cells compares: two positions [p < q] of one
    cell's list, or a vehicle of a cell [c] and one of a cell [c' > c] that
    the neighbour set of [c] holds. *)
Lemma antennaPairs_elem_of snapshots info x y :
  (x, y) ∈ flat_map (pairsOfAntenna snapshots info)
             (map_to_list (AntennaNeighborhood.vehiclesPerAntenna info)) ↔
  ∃ c L,
    AntennaNeighborhood.vehiclesPerAntenna info !! c = Some L ∧
    ((x, y) ∈ pairsWithin snapshots L ∨
     ∃ neighbors c' L',
       AntennaNeighborhood.neighborAntennas info !! c = Some neighbors ∧
       c' ∈ neighbors ∧ c < c' ∧
       AntennaNeighborhood.vehiclesPerAntenna info !! c' = Some L' ∧
       (x, y) ∈ pairsAcross snapshots L L').
Proof.
  rewrite elem_of_flat_map. split.
  - intros ([c L] & Hin & Hp). apply elem_of_map_to_list in Hin.
    exists c, L. split; [done|]. unfold pairsOfAntenna in Hp. cbn [fst snd] in Hp.
    apply elem_of_app in Hp as [Hp|Hp]; [by left|]. right.
    destruct (AntennaNeighborhood.neighborAntennas info !! c) as [nb|];
      [|by apply not_elem_of_nil in Hp].
    apply elem_of_flat_map in Hp as (c' & Hc' & Hp). apply elem_of_elements in Hc'.
    unfold pairsWithNeighbor in Hp. destruct (c' <=? c) eqn:Hle;
      [by apply not_elem_of_nil in Hp|].
    destruct (AntennaNeighborhood.vehiclesPerAntenna info !! c') as [L'|] eqn:HL';
      [|by apply not_elem_of_nil in Hp].
    exists nb, c', L'. split; [done|]. split; [done|]. split; [lia|]. by split.
  - intros (c & L & HL & Hp). exists (c, L). split; [by apply elem_of_map_to_list|].
    unfold pairsOfAntenna. cbn [fst snd]. apply elem_of_app.
    destruct Hp as [Hp|(nb & c' & L' & Hnb & Hc' & Hlt & HL' & Hp)]; [by left|]. right.
    rewrite Hnb. apply elem_of_flat_map. exists c'. split; [by apply elem_of_elements|].
    unfold pairsWithNeighbor. destruct (c' <=? c) eqn:Hle; [lia|]. by rewrite HL'.
Qed.

Lemma antennaPairs_listed snapshots info x y :
  (x, y) ∈ flat_map (pairsOfAntenna snapshots info)
             (map_to_list (AntennaNeighborhood.vehiclesPerAntenna info)) →
  listedSnapshot snapshots info x ∧ listedSnapshot snapshots info y.
Proof.
  intros (c & L & HL & [Hp|(nb & c' & L' & _ & _ & _ & HL' & Hp)])%antennaPairs_elem_of.
  - apply pairsWithin_elem_of in Hp as (p & q & i1 & i2 & _ & Hp & Hq & Hx & Hy).
    split; [exists c, L, i1 | exists c, L, i2]; (split; [done|]); (split; [|done]);
      apply list_elem_of_lookup; eauto.
  - apply pairsAcross_elem_of in Hp as (i1 & i2 & Hi1 & Hi2 & Hx & Hy).
    split; [by exists c, L, i1 | by exists c', L', i2].
Qed.

Lemma snapshotAt_lookup snapshots i x :
  snapshotAt snapshots i = Some x →
  0 ≤ to_size_t i < Z.of_nat (length snapshots) ∧
  snapshots !! Z.to_nat (to_size_t i) = Some x.
Proof.
  unfold snapshotAt. destruct (Z.of_nat (length snapshots) <=? to_size_t i) eqn:Hle; [done|].
  intros Hx. split; [|done]. unfold to_size_t in *.
  pose proof (Z.mod_pos_bound i (2 ^ 64)). lia.
Qed.

Lemma distinct_ids_index (snapshots : list VehicleSnapshot.t) i j x y :
  NoDup (VehicleSnapshot.id <$> snapshots) →
  snapshots !! i = Some x → snapshots !! j = Some y →
  VehicleSnapshot.id x = VehicleSnapshot.id y → i = j.
Proof.
  intros Hnd Hi Hj Hid.
  apply (NoDup_lookup _ i j (VehicleSnapshot.id x) Hnd);
    rewrite list_lookup_fmap; [by rewrite Hi | by rewrite Hj, Hid].
Qed.



(** ** The antenna info the driver assembles *)

Lemma assignToAntenna_fold_lookup snapshots (m : gmap Z (list Z)) (k : nat) (c : Z) :
  (fold_left assignToAntenna snapshots (m, k)).1 !! c =
  match (if 0 <=? c then membersFrom k snapshots c else []) with
  | [] => m !! c
  | ms => Some (default [] (m !! c) ++ (indexAsInt <$> ms))
  end.
Proof.
  revert m k. induction snapshots as [|s r IH]; intros m k.
  - cbn [fold_left membersFrom]. by destruct (0 <=? c).
  - cbn [fold_left membersFrom]. unfold assignToAntenna at 2. cbn [fst snd].
    rewrite IH. clear IH. destruct (0 <=? c) eqn:Hc.
    + destruct (decide (VehicleSnapshot.microAntennaId s = c)) as [->|Hne].
      * rewrite Hc, lookup_insert_eq.
        destruct (membersFrom (S k) r c) as [|i ms]; [done|].
        cbn [app]. rewrite (fmap_cons indexAsInt k). f_equal.
        change (default [] (Some ?l)) with l. by rewrite <- app_assoc.
      * cbn [app].
        assert ((if 0 <=? VehicleSnapshot.microAntennaId s
                 then <[VehicleSnapshot.microAntennaId s :=
                          default [] (m !! VehicleSnapshot.microAntennaId s) ++
                          [to_int (Z.of_nat k)]]> m
                 else m) !! c = m !! c) as ->; [|done].
        destruct (0 <=? VehicleSnapshot.microAntennaId s); [|done].
        by rewrite lookup_insert_ne.
    + destruct (0 <=? VehicleSnapshot.microAntennaId s) eqn:Hs; [|done].
      rewrite lookup_insert_ne; [done|]. lia.
Qed.

Lemma vehiclesByAntenna_lookup snapshots c L :
  vehiclesByAntenna snapshots !! c = Some L ↔
  0 ≤ c ∧ membersFrom 0 snapshots c ≠ [] ∧
  L = indexAsInt <$> membersFrom 0 snapshots c.
Proof.
  unfold vehiclesByAntenna. rewrite assignToAntenna_fold_lookup, lookup_empty.
  destruct (0 <=? c) eqn:Hc.
  - destruct (membersFrom 0 snapshots c) as [|i ms]; cbn [default app].
    + split; [done | by intros (_ & ? & _)].
    + split; [intros [= <-]; split; [lia|done] | by intros (_ & _ & ->)].
  - split; [done | intros (? & _); lia].
Qed.

Lemma membersFrom_elem_of k snapshots c i :
  i ∈ membersFrom k snapshots c ↔
  (k ≤ i)%nat ∧ ∃ s, snapshots !! (i - k)%nat = Some s ∧
                     VehicleSnapshot.microAntennaId s = c.
Proof.
  revert k. induction snapshots as [|s r IH]; intros k.
  - split; [intros H; by apply not_elem_of_nil in H | by intros (_ & ? & ? & _)].
  - cbn [membersFrom]. rewrite elem_of_app, IH. split.
    + intros [Hi|(Hle & s' & Hs' & Hc)].
      * destruct (decide (VehicleSnapshot.microAntennaId s = c)) as [Heq|];
          [|by apply not_elem_of_nil in Hi].
        apply list_elem_of_singleton in Hi as ->. split; [lia|].
        exists s. by rewrite Nat.sub_diag.
      * split; [lia|]. exists s'. split; [|done].
        replace (i - k)%nat with (S (i - S k)) by lia. done.
    + intros (Hle & s' & Hs' & Hc). destruct (decide (i = k)) as [->|Hne].
      * left. rewrite Nat.sub_diag in Hs'. injection Hs' as ->.
        rewrite decide_True by done. apply list_elem_of_here.
      * right. split; [lia|]. exists s'. split; [|done].
        replace (i - k)%nat with (S (i - S k)) in Hs' by lia. done.
Qed.

(** The positions come in increasing order. *)
Lemma membersFrom_increasing k snapshots c p q i j :
  (p < q)%nat →
  membersFrom k snapshots c !! p = Some i →
  membersFrom k snapshots c !! q = Some j → (i < j)%nat.
Proof.
  revert k p q. induction snapshots as [|s r IH]; intros k p q Hpq Hp Hq; [done|].
  cbn [membersFrom] in Hp, Hq.
  destruct (decide (VehicleSnapshot.microAntennaId s = c)) as [Heq|Hne];
    cbn [app] in Hp, Hq.
  - destruct q as [|q]; [lia|]. cbn in Hq. destruct p as [|p].
    + injection Hp as <-.
      assert (j ∈ membersFrom (S k) r c) as Hj by (apply list_elem_of_lookup; eauto).
      apply membersFrom_elem_of in Hj as [Hj _]. lia.
    + cbn in Hp. apply (IH (S k) p q); [lia | done | done].
  - by apply (IH (S k) p q).
Qed.

Lemma membersFrom_positions k snapshots c i j :
  (i < j)%nat →
  i ∈ membersFrom k snapshots c → j ∈ membersFrom k snapshots c →
  ∃ p q, (p < q)%nat ∧ membersFrom k snapshots c !! p = Some i ∧
         membersFrom k snapshots c !! q = Some j.
Proof.
  intros Hij [p Hp]%list_elem_of_lookup [q Hq]%list_elem_of_lookup.
  exists p, q. split; [|done].
  destruct (Nat.lt_trichotomy p q) as [Hlt|[->|Hgt]]; [done | |].
  - rewrite Hp in Hq. injection Hq as ->. lia.
  - pose proof (membersFrom_increasing k snapshots c q p j i Hgt Hq Hp). lia.
Qed.

Lemma to_size_t_indexAsInt (i : nat) :
  Z.of_nat i < 2 ^ 31 → to_size_t (indexAsInt i) = Z.of_nat i.
Proof.
  intros Hi. unfold to_size_t, indexAsInt, to_int.
  rewrite (Z.mod_small (Z.of_nat i + 2 ^ 31)) by lia.
  rewrite Z.mod_small; lia.
Qed.

Lemma snapshotAt_indexAsInt (snapshots : list VehicleSnapshot.t) (i : nat) :
  Z.of_nat (length snapshots) ≤ 2 ^ 31 →
  (i < length snapshots)%nat →
  snapshotAt snapshots (indexAsInt i) = snapshots !! i.
Proof.
  intros Hlen Hi. unfold snapshotAt. rewrite to_size_t_indexAsInt by lia.
  rewrite Nat2Z.id. destruct (Z.of_nat (length snapshots) <=? Z.of_nat i) eqn:Hle; [lia|done].
Qed.

(** Reading a snapshot through an element of a list of the driver's info. *)
Lemma driver_listed (snapshots : list VehicleSnapshot.t) c L i x :
  Z.of_nat (length snapshots) ≤ 2 ^ 31 →
  vehiclesByAntenna snapshots !! c = Some L →
  i ∈ L → snapshotAt snapshots i = Some x →
  ∃ m, i = indexAsInt m ∧ m ∈ membersFrom 0 snapshots c ∧
       snapshots !! m = Some x ∧ VehicleSnapshot.microAntennaId x = c ∧ 0 ≤ c.
Proof.
  intros Hlen (Hc & _ & ->)%vehiclesByAntenna_lookup Hi Hx.
  apply list_elem_of_fmap in Hi as (m & -> & Hm). exists m.
  pose proof Hm as (_ & s & Hs & Hcs)%membersFrom_elem_of.
  rewrite Nat.sub_0_r in Hs.
  rewrite snapshotAt_indexAsInt in Hx by (by apply lookup_lt_Some in Hs || done).
  rewrite Hs in Hx. injection Hx as <-. done.
Qed.

Lemma driver_member (snapshots : list VehicleSnapshot.t) m x :
  snapshots !! m = Some x → 0 ≤ VehicleSnapshot.microAntennaId x →
  m ∈ membersFrom 0 snapshots (VehicleSnapshot.microAntennaId x) ∧
  vehiclesByAntenna snapshots !! VehicleSnapshot.microAntennaId x =
    Some (indexAsInt <$> membersFrom 0 snapshots (VehicleSnapshot.microAntennaId x)).
Proof.
  intros Hm Hc.
  assert (m ∈ membersFrom 0 snapshots (VehicleSnapshot.microAntennaId x)) as Hin.
  { apply membersFrom_elem_of. split; [lia|]. exists x. by rewrite Nat.sub_0_r. }
  split; [done|]. apply vehiclesByAntenna_lookup. split; [done|]. split; [|done].
  intros Hnil. rewrite Hnil in Hin. by apply not_elem_of_nil in Hin.
Qed.

Lemma driverPairs_elem_of (snapshots : list VehicleSnapshot.t) microNeighbors x y :
  Z.of_nat (length snapshots) ≤ 2 ^ 31 →
  (x, y) ∈ flat_map (pairsOfAntenna snapshots (assembleAntennaInfo snapshots microNeighbors))
             (map_to_list (vehiclesByAntenna snapshots)) ↔
  ∃ i j, snapshots !! i = Some x ∧ snapshots !! j = Some y ∧
         comparedInOrder microNeighbors i j
           (VehicleSnapshot.microAntennaId x) (VehicleSnapshot.microAntennaId y).
Proof.
  intros Hlen.
  rewrite (antennaPairs_elem_of snapshots (assembleAntennaInfo snapshots microNeighbors)).
  cbn [assembleAntennaInfo AntennaNeighborhood.vehiclesPerAntenna
       AntennaNeighborhood.neighborAntennas].
  split.
  - intros (c & L & HL & [Hp|(nb & c' & L' & Hnb & Hc' & Hlt & HL' & Hp)]).
    + apply pairsWithin_elem_of in Hp as (p & q & i1 & i2 & Hpq & Hp & Hq & Hx & Hy).
      destruct (driver_listed snapshots c L i1 x Hlen HL) as (m1 & -> & Hm1 & Hx1 & Hcx & Hc);
        [apply list_elem_of_lookup; eauto | done |].
      destruct (driver_listed snapshots c L i2 y Hlen HL) as (m2 & -> & Hm2 & Hy2 & Hcy & _);
        [apply list_elem_of_lookup; eauto | done |].
      exists m1, m2. split; [done|]. split; [done|]. rewrite Hcx, Hcy.
      split; [done|]. split; [done|]. left. split; [done|].
      apply vehiclesByAntenna_lookup in HL as (_ & _ & ->).
      rewrite list_lookup_fmap in Hp, Hq.
      destruct (membersFrom 0 snapshots c !! p) as [n1|] eqn:Hn1; [|done].
      destruct (membersFrom 0 snapshots c !! q) as [n2|] eqn:Hn2; [|done].
      pose proof (membersFrom_increasing 0 snapshots c p q n1 n2 Hpq Hn1 Hn2) as Hlt.
      assert (n1 ∈ membersFrom 0 snapshots c) as (_ & s1 & Hs1 & _)%membersFrom_elem_of
        by (apply list_elem_of_lookup; eauto).
      assert (n2 ∈ membersFrom 0 snapshots c) as (_ & s2 & Hs2 & _)%membersFrom_elem_of
        by (apply list_elem_of_lookup; eauto).
      apply lookup_lt_Some in Hs1, Hs2, Hx1, Hy2. rewrite Nat.sub_0_r in Hs1, Hs2.
      injection Hp as Hp. injection Hq as Hq.
      apply (f_equal to_size_t) in Hp, Hq.
      rewrite !to_size_t_indexAsInt in Hp, Hq by lia. lia.
    + apply pairsAcross_elem_of in Hp as (i1 & i2 & Hi1 & Hi2 & Hx & Hy).
      destruct (driver_listed snapshots c L i1 x Hlen HL Hi1 Hx)
        as (m1 & -> & Hm1 & Hx1 & Hcx & Hc).
      destruct (driver_listed snapshots c' L' i2 y Hlen HL' Hi2 Hy)
        as (m2 & -> & Hm2 & Hy2 & Hcy & Hc2).
      exists m1, m2. split; [done|]. split; [done|]. rewrite Hcx, Hcy.
      split; [done|]. split; [done|]. right. split; [done|]. by exists nb.
  - intros (i & j & Hi & Hj & Hcx & Hcy & Horder).
    destruct (driver_member snapshots i x Hi Hcx) as [Hmi HLi].
    destruct (driver_member snapshots j y Hj Hcy) as [Hmj HLj].
    pose proof (lookup_lt_Some _ _ _ Hi) as Hilt.
    pose proof (lookup_lt_Some _ _ _ Hj) as Hjlt.
    eexists (VehicleSnapshot.microAntennaId x), _. split; [exact HLi|].
    destruct Horder as [[Heq Hlt]|(Hlt & nb & Hnb & Hin)].
    + left. apply pairsWithin_elem_of. rewrite <- Heq in Hmj.
      destruct (membersFrom_positions 0 snapshots _ i j Hlt Hmi Hmj) as (p & q & Hpq & Hp & Hq).
      exists p, q, (indexAsInt i), (indexAsInt j). split; [done|].
      rewrite !list_lookup_fmap, Hp, Hq, !snapshotAt_indexAsInt by done. done.
    + right. eexists nb, (VehicleSnapshot.microAntennaId y), _.
      split; [done|]. split; [done|]. split; [done|]. split; [exact HLj|].
      apply pairsAcross_elem_of. exists (indexAsInt i), (indexAsInt j).
      rewrite !snapshotAt_indexAsInt by done.
      split; [apply list_elem_of_fmap; eauto|]. split; [apply list_elem_of_fmap; eauto|]. done.
Qed.

Lemma vehiclesByAntenna_nonempty (snapshots : list VehicleSnapshot.t) m x :
  snapshots !! m = Some x → 0 ≤ VehicleSnapshot.microAntennaId x →
  vehiclesByAntenna snapshots ≠ ∅.
Proof.
  intros Hm Hc Hempty. destruct (driver_member snapshots m x Hm Hc) as [_ HL].
  by rewrite Hempty, lookup_empty in HL.
Qed.

(** On the driver's info, with distinct ids, a pair the antenna path takes
    in the order [(va, vb)] is joined exactly when it passes the gate. *)
Lemma driver_edge_iff_gate (snapshots : list VehicleSnapshot.t) microNeighbors a b va vb :
  NoDup (VehicleSnapshot.id <$> snapshots) →
  Z.of_nat (length snapshots) ≤ 2 ^ 31 →
  snapshots !! a = Some va → snapshots !! b = Some vb →
  comparedInOrder microNeighbors a b
    (VehicleSnapshot.microAntennaId va) (VehicleSnapshot.microAntennaId vb) →
  adjacent (snapshotEdges snapshots (Some (assembleAntennaInfo snapshots microNeighbors))).1
    (VehicleSnapshot.id va) (VehicleSnapshot.id vb) ↔
  withinBothRanges va vb = true.
Proof.
  intros Hnd Hlen Ha Hb Horder.
  rewrite snapshotEdges_adjacent. unfold comparedPairs.
  cbn [assembleAntennaInfo AntennaNeighborhood.vehiclesPerAntenna].
  rewrite bool_decide_eq_true_2
    by (apply (vehiclesByAntenna_nonempty snapshots a va Ha), Horder).
  split.
  - intros ([x y] & Hin & Hgate & Hids). cbn [fst snd] in *.
    apply (driverPairs_elem_of snapshots microNeighbors x y Hlen) in Hin
      as (i & j & Hi & Hj & Hij).
    destruct Hids as [[Hx Hy]|[Hy Hx]].
    + pose proof (distinct_ids_index snapshots _ _ _ _ Hnd Ha Hi Hx) as <-.
      pose proof (distinct_ids_index snapshots _ _ _ _ Hnd Hb Hj Hy) as <-.
      congruence.
    + pose proof (distinct_ids_index snapshots _ _ _ _ Hnd Ha Hj Hy) as <-.
      pose proof (distinct_ids_index snapshots _ _ _ _ Hnd Hb Hi Hx) as <-.
      exfalso. assert (x = vb) as -> by congruence. assert (y = va) as -> by congruence.
      destruct Horder as (_ & _ & [[? ?]|[? _]]), Hij as (_ & _ & [[? ?]|[? _]]); lia.
  - intros Hgate. exists (va, vb). split; [|split; [done | by left]].
    apply (driverPairs_elem_of snapshots microNeighbors va vb Hlen). by exists a, b.
Qed.

(** C1 (amended). For snapshots with pairwise distinct ids, handed over with
    the antenna info the driver assembles from them, and for every pair the
    antenna path takes (two snapshots of one micro cell, in the order of
    their positions, or a snapshot of a cell and one of a cell of larger id
    that is in the neighbour set of the first), the edge is in the adjacency, in both
    directions, exactly when d <= range_i and d <= range_j, where
    d = sqrt (dx^2 + dy^2), dy = (lat_j - lat_i) * 111000 and
    dx = (lon_j - lon_i) * 111000 * cos (lat_i * pi / 180).  In particular
    with range_i = 100, range_j = 50 and d = 75 the edge is absent. *)
Theorem edge_iff_both_ranges (G : InterferenceGraph.t)
    (snapshots : list VehicleSnapshot.t) (microNeighbors : gmap Z (gset Z))
    (i j : nat) (vi vj : VehicleSnapshot.t) :
  NoDup (VehicleSnapshot.id <$> snapshots) →
  Z.of_nat (length snapshots) ≤ 2 ^ 31 →
  snapshots !! i = Some vi → snapshots !! j = Some vj →
  comparedInOrder microNeighbors i j
    (VehicleSnapshot.microAntennaId vi) (VehicleSnapshot.microAntennaId vj) →
  let adjacency :=
    InterferenceGraph.m_adjacencyList
      (buildGraphFromSnapshots G snapshots
         (Some (assembleAntennaInfo snapshots microNeighbors))) in
  let dy := ((VehicleSnapshot.lat vj - VehicleSnapshot.lat vi) * 111000)%Q in
  let dx := ((VehicleSnapshot.lon vj - VehicleSnapshot.lon vi) * 111000 *
             cos (VehicleSnapshot.lat vi * M_PI / 180))%Q in
  let d := sqrt (dx * dx + dy * dy) in
  let range_i := VehicleSnapshot.transmissionRange vi in
  let range_j := VehicleSnapshot.transmissionRange vj in
  (adjacent adjacency (VehicleSnapshot.id vi) (VehicleSnapshot.id vj) ↔
     (d <= range_i)%Q ∧ (d <= range_j)%Q) ∧
  (adjacent adjacency (VehicleSnapshot.id vj) (VehicleSnapshot.id vi) ↔
     (d <= range_i)%Q ∧ (d <= range_j)%Q) ∧
  ((range_i == 100)%Q → (range_j == 50)%Q → (d == 75)%Q →
     ¬ adjacent adjacency (VehicleSnapshot.id vi) (VehicleSnapshot.id vj) ∧
     ¬ adjacent adjacency (VehicleSnapshot.id vj) (VehicleSnapshot.id vi)).
Proof.
  intros Hnd Hlen Hi Hj Horder adjacency dy dx d range_i range_j.
  assert (adjacent adjacency (VehicleSnapshot.id vi) (VehicleSnapshot.id vj) ↔
          (d <= range_i)%Q ∧ (d <= range_j)%Q) as Hiff.
  { subst adjacency. rewrite buildGraphFromSnapshots_adjacency.
    destruct snapshots as [|s l]; [done|].
    rewrite (driver_edge_iff_gate (s :: l) microNeighbors i j vi vj) by done.
    rewrite withinBothRanges_spec. cbv zeta. subst d dx dy range_i range_j.
    by rewrite (Qplus_comm_eq (_ * _) (_ * _)). }
  assert (adjacent adjacency (VehicleSnapshot.id vj) (VehicleSnapshot.id vi) ↔
          adjacent adjacency (VehicleSnapshot.id vi) (VehicleSnapshot.id vj)) as Hsym.
  { subst adjacency. apply buildGraphFromSnapshots_symmetric. }
  split; [done|]. split; [by rewrite Hsym|].
  intros Hri Hrj Hd.
  assert (¬ adjacent adjacency (VehicleSnapshot.id vi) (VehicleSnapshot.id vj)) as Hno.
  { rewrite Hiff, Hd, Hrj. intros [_ H]. by apply Qle_bool_iff in H. }
  split; [exact Hno | by rewrite Hsym].
Qed.


(** ** Vehicle motion *)

Lemma Qleb_true x y : Qleb x y = true ↔ (x <= y)%Q.
Proof. apply Qle_bool_iff. Qed.

Lemma Qleb_false x y : Qleb x y = false ↔ (y < x)%Q.
Proof.
  unfold Qleb. rewrite <- not_true_iff_false, Qle_bool_iff.
  split; [apply Qnot_le_lt | apply Qlt_not_le].
Qed.

Lemma Qltb_true x y : Qltb x y = true ↔ (x < y)%Q.
Proof. unfold Qltb. rewrite negb_true_iff. apply Qleb_false. Qed.

Lemma Qltb_false x y : Qltb x y = false ↔ (y <= x)%Q.
Proof. unfold Qltb. rewrite negb_false_iff. apply Qleb_true. Qed.

Lemma sameMotionParameters_trans v1 v2 v3 :
  sameMotionParameters v1 v2 → sameMotionParameters v2 v3 →
  sameMotionParameters v1 v3.
Proof. intros (? & ? & ?) (? & ? & ?). repeat split; congruence. Qed.

(** [pickNextEdge] either starts an edge at position 0 or, finding none,
    leaves the position where it was and sets the length to 0. *)
Lemma pickNextEdge_spec g v r :
  sameMotionParameters v (pickNextEdge g v r).1 ∧
  (Vehicule.positionOnEdge (pickNextEdge g v r).1 = 0%Q ∨
   (Vehicule.positionOnEdge (pickNextEdge g v r).1 = Vehicule.positionOnEdge v ∧
    Vehicule.edgeLength (pickNextEdge g v r).1 = 0%Q)).
Proof.
  unfold pickNextEdge.
  destruct (fold_left (classifyEdge v) (out_edges (Vehicule.currVertex v) g)
              (mkBuckets [] [] None)) as [ve lp be].
  cbn [validEdges lessPreferredEdges backEdge].
  destruct ve as [|e ve]; [destruct lp as [|e lp]; [destruct be as [e|]|]|];
    try (split; [by repeat split | by left]).
  unfold reroute.
  destruct (3 <? _).
  - destruct (filter _ _) as [|c cs]; (split; [by repeat split | by right]).
  - split; [by repeat split | by right].
Qed.

Lemma advance_unfold fuel g v r :
  advance fuel g v r =
  if Qgeb (Vehicule.positionOnEdge v) (Vehicule.edgeLength v) then
    match fuel with
    | O => (OutOfFuel, v, r)
    | S fuel' =>
        let overshoot := (Vehicule.positionOnEdge v - Vehicule.edgeLength v)%Q in
        let v := Vehicule.set_previousVertex (Vehicule.currVertex v) v in
        let v := Vehicule.set_currVertex (Vehicule.nextVertex v) v in
        if (Vehicule.currVertex v =? Vehicule.goal v)%nat then
          (Returned, DestReached v, r)
        else
          let '(v, r) := pickNextEdge g v r in
          advance fuel' g (Vehicule.set_positionOnEdge overshoot v) r
    end
  else (Returned, v, r).
Proof. by destruct fuel. Qed.

(** The loop of [update] leaves the speed and the heading alone. *)
Lemma advance_same fuel g v r : sameMotionParameters v (advance fuel g v r).1.2.
Proof.
  revert v r. induction fuel as [|fuel IH]; intros v r; rewrite advance_unfold.
  - by destruct (Qgeb _ _).
  - destruct (Qgeb _ _); [|done]. cbv zeta.
    destruct (_ =? _)%nat; [done|].
    match goal with
    | |- context [pickNextEdge g ?w r] =>
        pose proof (pickNextEdge_spec g w r) as [Hsame _];
        destruct (pickNextEdge g w r) as [v1 r1]
    end.
    cbn [fst] in Hsame.
    eapply sameMotionParameters_trans; [|apply IH].
    destruct Hsame as (? & ? & ?). by repeat split.
Qed.

(** What the loop of [update] establishes: the position stays non-negative;
    when the call returns, the vehicle is strictly inside its edge, or it has
    reached its goal and [DestReached] has set the edge length to 0. *)
Lemma advance_spec fuel g v r :
  (0 <= Vehicule.positionOnEdge v)%Q →
  (0 <= Vehicule.positionOnEdge (advance fuel g v r).1.2)%Q ∧
  ((advance fuel g v r).1.1 = Returned →
   (Vehicule.positionOnEdge (advance fuel g v r).1.2 <
    Vehicule.edgeLength (advance fuel g v r).1.2)%Q ∨
   Vehicule.edgeLength (advance fuel g v r).1.2 = 0%Q).
Proof.
  revert v r. induction fuel as [|fuel IH]; intros v r Hpos; rewrite advance_unfold.
  - destruct (Qgeb _ _) eqn:Hge; cbn [fst snd].
    + by split.
    + split; [done|]. intros _. left. by apply Qleb_false in Hge.
  - destruct (Qgeb _ _) eqn:Hge; cbn [fst snd].
    + cbv zeta. destruct (_ =? _)%nat; cbn [fst snd].
      * split; [done|]. intros _. by right.
      * destruct (pickNextEdge g _ r) as [v1 r1].
        apply Qleb_true in Hge. apply IH. cbn. lra.
    + split; [done|]. intros _. left. by apply Qleb_false in Hge.
Qed.

(** *** Heading *)

Lemma headingTarget_spec (A : Q) :
  (-180 <= A <= 180)%Q →
  congruent360 A (if Qltb A 0 then (A + 360)%Q else A) ∧
  (0 <= (if Qltb A 0 then (A + 360)%Q else A) < 360)%Q.
Proof.
  intros HA. destruct (Qltb A 0) eqn:Hlt.
  - apply Qltb_true in Hlt. split; [exists 1; unfold inject_Z; lra | lra].
  - apply Qltb_false in Hlt. split; [exists 0; unfold inject_Z; lra | lra].
Qed.

Lemma headingDiff_spec (D : Q) :
  (-360 < D < 360)%Q →
  congruent360 D
    (if Qgtb D 180 then (D - 360)%Q else if Qltb D (-180) then (D + 360)%Q else D) ∧
  (-180 <= (if Qgtb D 180 then (D - 360)%Q
            else if Qltb D (-180) then (D + 360)%Q else D) <= 180)%Q.
Proof.
  intros HD. unfold Qgtb. destruct (Qltb 180 D) eqn:Hgt.
  - apply Qltb_true in Hgt. split; [exists (-1); unfold inject_Z; lra | lra].
  - apply Qltb_false in Hgt. destruct (Qltb D (-180)) eqn:Hlt.
    + apply Qltb_true in Hlt. split; [exists 1; unfold inject_Z; lra | lra].
    + apply Qltb_false in Hlt. split; [exists 0; unfold inject_Z; lra | lra].
Qed.

Lemma headingWrap_spec (h : Q) :
  (-360 <= h < 720)%Q →
  congruent360 h
    (if Qltb h 0 then (h + 360)%Q else if Qgeb h 360 then (h - 360)%Q else h) ∧
  (0 <= (if Qltb h 0 then (h + 360)%Q
         else if Qgeb h 360 then (h - 360)%Q else h) < 360)%Q.
Proof.
  intros Hh. destruct (Qltb h 0) eqn:Hlt.
  - apply Qltb_true in Hlt. split; [exists 1; unfold inject_Z; lra | lra].
  - apply Qltb_false in Hlt. unfold Qgeb. destruct (Qleb 360 h) eqn:Hge.
    + apply Qleb_true in Hge. split; [exists (-1); unfold inject_Z; lra | lra].
    + apply Qleb_false in Hge. split; [exists 0; unfold inject_Z; lra | lra].
Qed.

Lemma degrees_bound (a : Q) :
  (- M_PI <= a <= M_PI)%Q → (-180 <= a * 180 / M_PI <= 180)%Q.
Proof.
  unfold M_PI. intros Ha.
  assert (a * 180 / 3.14159265358979323846 ==
          a * (180 / 3.14159265358979323846))%Q as -> by field.
  set (c := (180 / 3.14159265358979323846)%Q).
  assert (c * 3.14159265358979323846 == 180)%Q by (unfold c; field).
  assert (0 < c)%Q by (unfold c; reflexivity).
  nra.
Qed.

Lemma significantMovement_spec dLat dLon :
  significantMovement dLat dLon = true ↔
  (1e-10 < Qabs dLat)%Q ∨ (1e-10 < Qabs dLon)%Q.
Proof.
  unfold significantMovement, Qgtb. by rewrite orb_true_iff, !Qltb_true.
Qed.

Lemma updateHeading_fields prev curr v :
  Vehicule.positionOnEdge (updateHeading prev curr v) = Vehicule.positionOnEdge v ∧
  Vehicule.edgeLength (updateHeading prev curr v) = Vehicule.edgeLength v ∧
  Vehicule.speed (updateHeading prev curr v) = Vehicule.speed v ∧
  Vehicule.headingSmoothingFactor (updateHeading prev curr v) =
    Vehicule.headingSmoothingFactor v.
Proof. unfold updateHeading. by destruct (_ || _). Qed.

Lemma updateHeading_still prev curr v :
  significantMovement (curr.1 - prev.1) (curr.2 - prev.2) = false →
  Vehicule.currentHeading (updateHeading prev curr v) = Vehicule.currentHeading v.
Proof. unfold updateHeading, significantMovement. by intros ->. Qed.

Lemma updateHeading_smoothed prev curr v :
  (∀ y x, (- M_PI <= atan2 y x <= M_PI)%Q) →
  (Vehicule.headingSmoothingFactor v == 0.15)%Q →
  (0 <= Vehicule.currentHeading v < 360)%Q →
  significantMovement (curr.1 - prev.1) (curr.2 - prev.2) = true →
  smoothedHeading (Vehicule.currentHeading v)
    (atan2 (curr.2 - prev.2) (curr.1 - prev.1) * 180 / M_PI)
    (Vehicule.currentHeading (updateHeading prev curr v)).
Proof.
  intros Hatan2 Hf Hh Hsig. unfold updateHeading, significantMovement in *.
  rewrite Hsig. cbv zeta. cbn [Vehicule.currentHeading Vehicule.set_currentHeading].
  set (A := (atan2 (curr.2 - prev.2) (curr.1 - prev.1) * 180 / M_PI)%Q).
  destruct (headingTarget_spec A) as [HT1 HT2]; [apply degrees_bound, Hatan2|].
  set (T := if Qltb A 0 then (A + 360)%Q else A) in *.
  destruct (headingDiff_spec (T - Vehicule.currentHeading v)) as [HD1 HD2]; [lra|].
  set (D := if Qgtb (T - Vehicule.currentHeading v) 180 then _ else _) in *.
  assert (D * Vehicule.headingSmoothingFactor v == 0.15 * D)%Q as Hmul
    by (rewrite Hf; ring).
  destruct (headingWrap_spec
              (Vehicule.currentHeading v + D * Vehicule.headingSmoothingFactor v))
    as [HW1 HW2]; [lra|].
  set (N := if Qltb _ 0 then _ else _) in *.
  exists T, D. split; [done|]. split; [done|]. split; [done|]. split; [done|].
  split; [|done]. destruct HW1 as [k Hk]. exists k. lra.
Qed.

Lemma smoothedHeading_range old angleDeg new :
  smoothedHeading old angleDeg new → (0 <= new < 360)%Q.
Proof. by intros (T & D & _ & _ & _ & _ & _ & ?). Qed.

Lemma updateHeading_range prev curr v :
  (∀ y x, (- M_PI <= atan2 y x <= M_PI)%Q) →
  (Vehicule.headingSmoothingFactor v == 0.15)%Q →
  (0 <= Vehicule.currentHeading v < 360)%Q →
  (0 <= Vehicule.currentHeading (updateHeading prev curr v) < 360)%Q.
Proof.
  intros Hatan2 Hf Hh.
  destruct (significantMovement (curr.1 - prev.1) (curr.2 - prev.2)) eqn:Hsig.
  - eapply smoothedHeading_range. by apply updateHeading_smoothed.
  - by rewrite updateHeading_still.
Qed.

(** *** One call of [update], and a sequence of calls *)

Lemma moveAlongEdge_unfold g deltaTime v r :
  moveAlongEdge g deltaTime v r =
  (updateHeading (getPosition g (withEdgeSelected g v r).1)
     (getPosition g (advancedOnEdge deltaTime (withEdgeSelected g v r).1))
     (advancedOnEdge deltaTime (withEdgeSelected g v r).1),
   (withEdgeSelected g v r).2).
Proof.
  unfold moveAlongEdge, withEdgeSelected, advancedOnEdge.
  by destruct (if Qleb _ 0 then _ else _).
Qed.

Lemma withEdgeSelected_spec g v r :
  (0 <= Vehicule.positionOnEdge v)%Q →
  sameMotionParameters v (withEdgeSelected g v r).1 ∧
  (0 <= Vehicule.positionOnEdge (withEdgeSelected g v r).1)%Q.
Proof.
  intros Hpos. unfold withEdgeSelected. destruct (Qleb _ 0).
  - destruct (pickNextEdge_spec g v r) as [Hsame [->|[-> _]]]; (split; [done|]); lra.
  - split; [by repeat split | done].
Qed.

Lemma update_unfold fuel g deltaTime v r :
  update fuel g deltaTime v r =
  if (Vehicule.currVertex v =? Vehicule.goal v)%nat then (Returned, DestReached v, r)
  else advance fuel g (moveAlongEdge g deltaTime v r).1 (moveAlongEdge g deltaTime v r).2.
Proof.
  unfold update. destruct (_ =? _)%nat; [done|].
  by destruct (moveAlongEdge g deltaTime v r).
Qed.

(** What one call of [update] does to the speed, the smoothing factor and
    the position. *)
Lemma update_spec fuel g deltaTime v r :
  (0 <= Vehicule.speed v)%Q → (0 <= Vehicule.positionOnEdge v)%Q →
  (0 <= deltaTime)%Q →
  Vehicule.speed (update fuel g deltaTime v r).1.2 = Vehicule.speed v ∧
  (0 <= Vehicule.positionOnEdge (update fuel g deltaTime v r).1.2)%Q ∧
  ((update fuel g deltaTime v r).1.1 = Returned →
   (Vehicule.positionOnEdge (update fuel g deltaTime v r).1.2 <
    Vehicule.edgeLength (update fuel g deltaTime v r).1.2)%Q ∨
   Vehicule.edgeLength (update fuel g deltaTime v r).1.2 = 0%Q).
Proof.
  intros Hspeed Hpos Hdt. rewrite update_unfold.
  destruct (_ =? _)%nat; cbn [fst snd].
  - split; [done|]. split; [done|]. intros _. by right.
  - rewrite moveAlongEdge_unfold. cbn [fst snd].
    destruct (withEdgeSelected_spec g v r Hpos) as [(Hs & _ & _) Hp].
    set (v1 := (withEdgeSelected g v r).1) in *.
    set (v2 := updateHeading _ _ _).
    destruct (updateHeading_fields (getPosition g v1)
                (getPosition g (advancedOnEdge deltaTime v1))
                (advancedOnEdge deltaTime v1)) as (Hp2 & _ & Hs2 & _).
    fold v2 in Hp2, Hs2.
    destruct (advance_same fuel g v2 (withEdgeSelected g v r).2) as (Hs3 & _ & _).
    split; [by rewrite Hs3, Hs2|].
    apply advance_spec. rewrite Hp2. cbn. rewrite Hs. nra.
Qed.

(** The heading after a call of [update] on a vehicle that is not at its
    goal is the one the heading block computes from the movement. *)
Lemma update_heading fuel g deltaTime v r :
  (Vehicule.currVertex v =? Vehicule.goal v)%nat = false →
  Vehicule.currentHeading (update fuel g deltaTime v r).1.2 =
  Vehicule.currentHeading
    (updateHeading (getPosition g (withEdgeSelected g v r).1)
       (getPosition g (advancedOnEdge deltaTime (withEdgeSelected g v r).1))
       (advancedOnEdge deltaTime (withEdgeSelected g v r).1)).
Proof.
  intros Hgoal. rewrite update_unfold, Hgoal, moveAlongEdge_unfold. cbn [fst snd].
  match goal with
  | |- context [advance fuel g ?w ?r1] =>
      by destruct (advance_same fuel g w r1) as (_ & Hh & _)
  end.
Qed.

Lemma withEdgeSelected_heading g v r :
  Vehicule.currentHeading (withEdgeSelected g v r).1 = Vehicule.currentHeading v ∧
  Vehicule.headingSmoothingFactor (withEdgeSelected g v r).1 =
    Vehicule.headingSmoothingFactor v.
Proof.
  unfold withEdgeSelected. destruct (Qleb _ 0); [|done].
  by destruct (pickNextEdge_spec g v r) as [(_ & ? & ?) _].
Qed.

Lemma updates_spec fuel g deltas v r :
  (0 <= Vehicule.speed v)%Q → (0 <= Vehicule.positionOnEdge v)%Q →
  Forall (λ deltaTime, (0 <= deltaTime)%Q) deltas →
  Vehicule.speed (updates fuel g deltas v r).1.2 = Vehicule.speed v ∧
  (0 <= Vehicule.positionOnEdge (updates fuel g deltas v r).1.2)%Q ∧
  (deltas ≠ [] → (updates fuel g deltas v r).1.1 = Returned →
   (Vehicule.positionOnEdge (updates fuel g deltas v r).1.2 <
    Vehicule.edgeLength (updates fuel g deltas v r).1.2)%Q ∨
   Vehicule.edgeLength (updates fuel g deltas v r).1.2 = 0%Q).
Proof.
  revert v r. induction deltas as [|dt rest IH]; intros v r Hspeed Hpos Hdeltas.
  - by cbn.
  - apply Forall_cons in Hdeltas as [Hdt Hrest]. cbn [updates].
    destruct (update_spec fuel g dt v r Hspeed Hpos Hdt) as (Hs & Hp & Hret).
    destruct (update fuel g dt v r) as [[c v'] r']. cbn [fst snd] in *.
    destruct c; cbn [fst snd].
    + destruct (IH v' r') as (Hs' & Hp' & Hret'); [by rewrite Hs | done | done |].
      split; [by rewrite Hs', Hs|]. split; [done|]. intros _ Hc.
      destruct rest as [|dt' rest']; [by apply Hret | by apply Hret'].
    + by repeat split.
Qed.

(** ** Claims on the motion of a vehicle *)

(** C4 (amended). For a vehicle of non-negative speed that starts at a
    non-negative position, and a sequence of calls update(delta) with
    delta >= 0, the position on the edge is non-negative after each call
    (and in every state a call passes through), and after each call that
    returns it is strictly below the edge length unless the edge length is
    0, which is how a call that reaches the goal leaves it. *)
Theorem position_within_edge_unless_reset (fuel : nat) (g : RoadGraph.t)
    (deltas : list Q) (v : Vehicule.t) (r : Rng) :
  (0 <= Vehicule.speed v)%Q → (0 <= Vehicule.positionOnEdge v)%Q →
  Forall (λ deltaTime, (0 <= deltaTime)%Q) deltas → deltas ≠ [] →
  (0 <= Vehicule.positionOnEdge (updates fuel g deltas v r).1.2)%Q ∧
  ((updates fuel g deltas v r).1.1 = Returned →
   (Vehicule.positionOnEdge (updates fuel g deltas v r).1.2 <
    Vehicule.edgeLength (updates fuel g deltas v r).1.2)%Q ∨
   Vehicule.edgeLength (updates fuel g deltas v r).1.2 = 0%Q).
Proof.
  intros Hspeed Hpos Hdeltas Hne.
  destruct (updates_spec fuel g deltas v r Hspeed Hpos Hdeltas) as (_ & Hp & Hin).
  split; [done | by apply Hin].
Qed.

(** In exact arithmetic, for a vehicle whose heading is in [0, 360)
    (smoothing factor 0.15, atan2 within [-pi, pi]), the heading after
    update(delta) is in [0, 360); the rounding of the source is not part of
    this statement (see [updateHeadingDouble]).  When the call moves the vehicle and the movement vector has
    |dLat| > 1e-10 or |dLon| > 1e-10, the new heading is the old one plus
    0.15 times (target - old) normalised into [-180, 180], normalised to
    [0, 360), where target is atan2(dLon, dLat) * 180 / pi normalised to
    [0, 360); otherwise the heading is unchanged. *)
Theorem heading_stays_normalised (fuel : nat) (g : RoadGraph.t) (deltaTime : Q)
    (v : Vehicule.t) (r : Rng) :
  (∀ y x, (- M_PI <= atan2 y x <= M_PI)%Q) →
  (Vehicule.headingSmoothingFactor v == 0.15)%Q →
  (0 <= Vehicule.currentHeading v < 360)%Q →
  let v' := (update fuel g deltaTime v r).1.2 in
  let dLat := (movement g deltaTime v r).1 in
  let dLon := (movement g deltaTime v r).2 in
  (0 <= Vehicule.currentHeading v' < 360)%Q ∧
  (Vehicule.currVertex v ≠ Vehicule.goal v →
   (1e-10 < Qabs dLat)%Q ∨ (1e-10 < Qabs dLon)%Q →
   smoothedHeading (Vehicule.currentHeading v) (atan2 dLon dLat * 180 / M_PI)
     (Vehicule.currentHeading v')) ∧
  (Vehicule.currVertex v ≠ Vehicule.goal v →
   ¬ ((1e-10 < Qabs dLat)%Q ∨ (1e-10 < Qabs dLon)%Q) →
   Vehicule.currentHeading v' = Vehicule.currentHeading v) ∧
  (Vehicule.currVertex v = Vehicule.goal v →
   Vehicule.currentHeading v' = Vehicule.currentHeading v).
Proof.
  intros Hatan2 Hf Hh v' dLat dLon. subst v' dLat dLon.
  destruct (withEdgeSelected_heading g v r) as [Hh1 Hf1].
  assert (∀ w, Vehicule.currentHeading (advancedOnEdge deltaTime w) =
               Vehicule.currentHeading w ∧
               Vehicule.headingSmoothingFactor (advancedOnEdge deltaTime w) =
               Vehicule.headingSmoothingFactor w) as Hadv by done.
  destruct (Hadv (withEdgeSelected g v r).1) as [Hh2 Hf2].
  destruct (Vehicule.currVertex v =? Vehicule.goal v)%nat eqn:Hgoal.
  - apply Nat.eqb_eq in Hgoal.
    assert (Vehicule.currentHeading (update fuel g deltaTime v r).1.2 =
            Vehicule.currentHeading v) as Hsame.
    { rewrite update_unfold. apply Nat.eqb_eq in Hgoal. by rewrite Hgoal. }
    rewrite Hsame. split; [done|]. split; [done|]. split; [done|]. done.
  - rewrite (update_heading fuel g deltaTime v r Hgoal).
    apply Nat.eqb_neq in Hgoal. unfold movement. cbn [fst snd].
    set (prev := getPosition g (withEdgeSelected g v r).1) in *.
    set (curr := getPosition g (advancedOnEdge deltaTime (withEdgeSelected g v r).1)) in *.
    set (w := advancedOnEdge deltaTime (withEdgeSelected g v r).1) in *.
    assert (Vehicule.headingSmoothingFactor w == 0.15)%Q as Hfw by (by rewrite Hf2, Hf1).
    assert (0 <= Vehicule.currentHeading w < 360)%Q as Hhw by (by rewrite Hh2, Hh1).
    assert (Vehicule.currentHeading w = Vehicule.currentHeading v) as Hwv
      by (by rewrite Hh2, Hh1).
    split; [by apply updateHeading_range|]. split; [|split; [|done]].
    + intros _ Hsig. apply significantMovement_spec in Hsig. rewrite <- Hwv.
      by apply updateHeading_smoothed.
    + intros _ Hsig. rewrite <- Hwv. apply updateHeading_still.
      rewrite <- not_true_iff_false. by rewrite significantMovement_spec.
Qed.

(** ** Claims on the driver *)

Lemma onTick_ticked fuel getMicroAntennaId microNeighbors elapsedMs s r :
  ticked (onTick fuel getMicroAntennaId microNeighbors elapsedMs s r) =
  tickDelta elapsedMs s.
Proof.
  unfold onTick.
  destruct (updateVehicles fuel (graph s) (tickDelta elapsedMs s) (m_vehicles s) r)
    as [[c vs] r'].
  destruct c; [|done].
  by destruct (if negb _ && _ then _ else _).
Qed.

Lemma onTick_vehicles fuel getMicroAntennaId microNeighbors elapsedMs s r :
  (tickCompletion (onTick fuel getMicroAntennaId microNeighbors elapsedMs s r),
   m_vehicles (tickSimulator (onTick fuel getMicroAntennaId microNeighbors elapsedMs s r)),
   tickRng (onTick fuel getMicroAntennaId microNeighbors elapsedMs s r)) =
  updateVehicles fuel (graph s) (tickDelta elapsedMs s) (m_vehicles s) r.
Proof.
  unfold onTick.
  destruct (updateVehicles fuel (graph s) (tickDelta elapsedMs s) (m_vehicles s) r)
    as [[c vs] r'].
  destruct c; [|done]. cbn [m_vehicles withVehicles m_calculationInProgress].
  destruct (negb _ && _); [|done].
  unfold startGraphCalculation. cbn [m_calculationInProgress withVehicles].
  destruct (m_calculationInProgress s); [done|].
  by destruct (takeSnapshots _ _ _).
Qed.

(** C5 (amended). On every tick the time step applied to the vehicles, and
    sent with the ticked signal, is the elapsed time since the last tick, in
    seconds, times the speed multiplier; the tick interval takes no part in
    it: with any other interval the same tick applies and sends the same
    step. *)
Theorem tick_delta_is_elapsed_time (fuel : nat) (getMicroAntennaId : Z → Z)
    (microNeighbors : gmap Z (gset Z)) (elapsedMs : Z) (s : Simulator) (r : Rng) :
  let outcome := onTick fuel getMicroAntennaId microNeighbors elapsedMs s r in
  let deltaTime := (inject_Z elapsedMs / 1000 * m_speedMultiplier s)%Q in
  ticked outcome = deltaTime ∧
  (tickCompletion outcome, m_vehicles (tickSimulator outcome), tickRng outcome) =
    updateVehicles fuel (graph s) deltaTime (m_vehicles s) r ∧
  ∀ tickIntervalMs : Z,
    let other :=
      onTick fuel getMicroAntennaId microNeighbors elapsedMs
        (withTickIntervalMs tickIntervalMs s) r in
    ticked other = deltaTime ∧
    (tickCompletion other, m_vehicles (tickSimulator other), tickRng other) =
      updateVehicles fuel (graph s) deltaTime (m_vehicles s) r.
Proof.
  cbv zeta. split; [apply onTick_ticked|]. split; [apply onTick_vehicles|].
  intros tickIntervalMs. split; [apply onTick_ticked|].
  exact (onTick_vehicles fuel getMicroAntennaId microNeighbors elapsedMs
           (withTickIntervalMs tickIntervalMs s) r).
Qed.

(** [reinitializeSpatialGrid] hands the counts it receives to the grid. *)
Lemma reinitializeSpatialGrid_counts G vehicles numMacro numMicro :
  InterferenceGraph.m_useSpatialGrid G = true → (20 ≤ length vehicles)%nat →
  (reinitializeSpatialGrid G vehicles numMacro numMicro).2 =
  Some (mkGridInitialization (firstVehicleRange vehicles) numMacro numMicro).
Proof.
  intros Huse Hlen. unfold reinitializeSpatialGrid. rewrite Huse.
  destruct (length vehicles <? 20)%nat eqn:Hlt; [apply Nat.ltb_lt in Hlt; lia | done].
Qed.

(** [initializeSpatialGrid] replaces a count of 0 by a default scaled by the
    number of vehicles. *)
Lemma initializeSpatialGrid_defaults G vehicles :
  InterferenceGraph.m_useSpatialGrid G = true →
  InterferenceGraph.m_gridInitialized G = false →
  (20 ≤ length vehicles)%nat →
  (initializeSpatialGrid G vehicles 0 0).2 =
  Some (mkGridInitialization (firstVehicleRange vehicles)
          (if (2000 <? length vehicles)%nat then 30
           else if (500 <? length vehicles)%nat then 20 else 10)
          (if (2000 <? length vehicles)%nat then 20
           else if (500 <? length vehicles)%nat then 15 else 10)).
Proof.
  intros Huse Hinit Hlen. unfold initializeSpatialGrid. rewrite Huse, Hinit.
  destruct (length vehicles <? 20)%nat eqn:Hlt; [apply Nat.ltb_lt in Hlt; lia|].
  cbn [negb orb Z.eqb snd].
  by destruct (2000 <? length vehicles)%nat, (500 <? length vehicles)%nat.
Qed.

(** * Further properties *)

(** ** The keys of the adjacency map *)

Lemma comparePairs_keys_iff pairs adj c k :
  is_Some ((comparePairs pairs (adj, c)).1 !! k) ↔
  is_Some (adj !! k) ∨
  ∃ p, p ∈ pairs ∧ withinBothRanges p.1 p.2 = true ∧
       (k = VehicleSnapshot.id p.1 ∨ k = VehicleSnapshot.id p.2).
Proof.
  revert adj c. induction pairs as [|p l IH]; intros adj c.
  - simpl. split; [auto|]. intros [?|(p & Hp & _)]; [done|]. by apply not_elem_of_nil in Hp.
  - unfold comparePairs in *. cbn [fold_left comparePair]. rewrite IH.
    destruct (withinBothRanges p.1 p.2) eqn:Hgate.
    + rewrite lookup_addEdge_is_Some. split.
      * intros [[?|Hk]|(q & Hq & Hg & Hk)]; [by left | |].
        -- right. exists p. split; [apply list_elem_of_here|]. by split.
        -- right. exists q. split; [by apply list_elem_of_further|done].
      * intros [?|(q & [->|Hq]%elem_of_cons & Hg & Hk)]; [by left; left | |].
        -- left; by right.
        -- right. by exists q.
    + split.
      * intros [?|(q & Hq & Hg & Hk)]; [by left|].
        right. exists q. split; [by apply list_elem_of_further|done].
      * intros [?|(q & [->|Hq]%elem_of_cons & Hg & Hk)]; [by left | |].
        -- congruence.
        -- right. by exists q.
Qed.

(** Both members of a compared pair are snapshots of the vector. *)
Lemma comparedPairs_members (snapshots : list VehicleSnapshot.t) antennaInfo x y :
  (x, y) ∈ comparedPairs snapshots antennaInfo → x ∈ snapshots ∧ y ∈ snapshots.
Proof.
  assert ((x, y) ∈ pairsAll snapshots → x ∈ snapshots ∧ y ∈ snapshots) as Hall.
  { intros (i & j & _ & Hi & Hj)%pairsAll_elem_of.
    split; apply list_elem_of_lookup; eauto. }
  unfold comparedPairs. destruct antennaInfo as [info|]; [|done].
  case_bool_decide; [|done].
  intros [(c1 & L1 & i1 & _ & _ & Hx) (c2 & L2 & i2 & _ & _ & Hy)]%antennaPairs_listed.
  apply snapshotAt_lookup in Hx as [_ Hx]. apply snapshotAt_lookup in Hy as [_ Hy].
  split; apply list_elem_of_lookup; eauto.
Qed.

Lemma snapshotEdges_keys (snapshots : list VehicleSnapshot.t) antennaInfo k :
  is_Some ((snapshotEdges snapshots antennaInfo).1 !! k) ↔
  k ∈ VehicleSnapshot.id <$> snapshots.
Proof.
  rewrite snapshotEdges_pairs, comparePairs_keys_iff, emptyAdjacency_lookup. split.
  - intros [Hk|([x y] & Hin & _ & Hk)].
    + case_bool_decide; [done | by destruct Hk].
    + apply comparedPairs_members in Hin as [Hx Hy]. cbn [fst snd] in Hk.
      apply list_elem_of_fmap. destruct Hk as [->| ->]; eauto.
  - intros Hk. left. by rewrite bool_decide_eq_true_2.
Qed.

(** X1. After a build from snapshots the keys of the adjacency map are
    exactly the ids of the snapshots, whatever antenna info is given, and
    every member of an adjacency set is itself a key; for distinct ids
    [getVehicleCount] is the number of snapshots. *)
Theorem adjacency_keys_are_snapshot_ids (G : InterferenceGraph.t)
    (snapshots : list VehicleSnapshot.t)
    (antennaInfo : option AntennaNeighborhood.t) :
  dom (InterferenceGraph.m_adjacencyList
         (buildGraphFromSnapshots G snapshots antennaInfo)) =
    list_to_set (VehicleSnapshot.id <$> snapshots) ∧
  (∀ i j,
     adjacent (InterferenceGraph.m_adjacencyList
                 (buildGraphFromSnapshots G snapshots antennaInfo)) i j →
     i ∈ VehicleSnapshot.id <$> snapshots ∧ j ∈ VehicleSnapshot.id <$> snapshots) ∧
  (NoDup (VehicleSnapshot.id <$> snapshots) →
   Z.of_nat (length snapshots) < 2 ^ 31 →
   getVehicleCount (buildGraphFromSnapshots G snapshots antennaInfo) =
   Z.of_nat (length snapshots)).
Proof.
  assert (dom (InterferenceGraph.m_adjacencyList
                 (buildGraphFromSnapshots G snapshots antennaInfo)) =
          list_to_set (VehicleSnapshot.id <$> snapshots)) as Hdom.
  { apply set_eq. intros k.
    rewrite elem_of_dom, elem_of_list_to_set, buildGraphFromSnapshots_adjacency.
    destruct snapshots as [|s l]; [|apply snapshotEdges_keys].
    rewrite lookup_empty. split; [by intros [] | by intros ?%not_elem_of_nil]. }
  split; [done|]. split.
  - intros i j Hij.
    assert (adjacent (InterferenceGraph.m_adjacencyList
                        (buildGraphFromSnapshots G snapshots antennaInfo)) j i) as Hji
      by (by apply buildGraphFromSnapshots_symmetric).
    destruct Hij as (s & Hs & _), Hji as (s' & Hs' & _).
    rewrite <- !(elem_of_list_to_set (C := gset Z)), <- Hdom, !elem_of_dom. eauto.
  - intros Hnd Hlen. unfold getVehicleCount.
    rewrite <- size_dom, Hdom, size_list_to_set, length_fmap by done.
    unfold to_int. rewrite Z.mod_small; lia.
Qed.

(** ** The closure as a relation *)

Lemma tc_symmetric {A : Type} (R : relation A) :
  (∀ x y, R x y → R y x) → ∀ x y, tc R x y → tc R y x.
Proof.
  intros Hsym x y Hxy. induction Hxy as [x y Hxy|x y z Hxy _ IH].
  - by apply tc_once, Hsym.
  - eapply tc_r; [exact IH | by apply Hsym].
Qed.

Lemma tc_adjacent_symmetric adj i j :
  symmetricAdjacency adj → tc (adjacent adj) i j → tc (adjacent adj) j i.
Proof. intros Hsym. apply tc_symmetric. intros x y. by rewrite (Hsym x y). Qed.

Lemma tc_adjacent_key adj i j : tc (adjacent adj) i j → is_Some (adj !! i).
Proof. intros Hij. destruct Hij as [i j (s & Hs & _)|i x j (s & Hs & _) _]; eauto. Qed.

Lemma canCommunicate_spec G i j :
  InterferenceGraph.m_transitiveClosure G =
    computeTransitiveClosure (InterferenceGraph.m_adjacencyList G) →
  canCommunicate G i j = true ↔
  j ≠ i ∧ tc (adjacent (InterferenceGraph.m_adjacencyList G)) i j.
Proof.
  intros Hcl. unfold canCommunicate. rewrite Hcl, computeTransitiveClosure_lookup.
  destruct (InterferenceGraph.m_adjacencyList G !! i) as [s|] eqn:Hi.
  - by rewrite bool_decide_eq_true, bfsReachable_spec.
  - split; [done|]. intros [_ [x Hx]%tc_adjacent_key]. congruence.
Qed.

Lemma vehicleEdges_built_symmetric g getNearbyVehicles G vehicles :
  symmetricAdjacency
    (InterferenceGraph.m_adjacencyList (buildGraph g getNearbyVehicles G vehicles)).
Proof.
  rewrite buildGraph_adjacency. destruct vehicles as [|v l].
  - apply noEdges_symmetric, noEdges_empty.
  - apply vehicleEdges_symmetric.
Qed.

Lemma computeTransitiveClosure_empty : computeTransitiveClosure ∅ = ∅.
Proof. apply map_eq. intros i. by rewrite computeTransitiveClosure_lookup, !lookup_empty. Qed.

Lemma builtWithClosure_spec G' :
  builtWithClosure G' →
  InterferenceGraph.m_transitiveClosure G' =
    computeTransitiveClosure (InterferenceGraph.m_adjacencyList G') ∧
  symmetricAdjacency (InterferenceGraph.m_adjacencyList G').
Proof.
  intros [(G & snapshots & info & Hct & ->)|(g & nearby & G & vehicles & Hct & ->)].
  - split; [|apply buildGraphFromSnapshots_symmetric].
    rewrite buildGraphFromSnapshots_closure, buildGraphFromSnapshots_adjacency, Hct.
    destruct snapshots; [by rewrite computeTransitiveClosure_empty | done].
  - split; [|apply vehicleEdges_built_symmetric].
    rewrite buildGraph_closure, buildGraph_adjacency, Hct.
    destruct vehicles; [by rewrite computeTransitiveClosure_empty | done].
Qed.

Lemma bool_eq_iff (a b : bool) : (a = true ↔ b = true) → a = b.
Proof. destruct a, b; intros [H1 H2]; try done; [by rewrite H1 | by rewrite H2]. Qed.

(** X2. On a graph built with the closure enabled [canCommunicate] is
    symmetric: it gives the same answer for (id1, id2) and (id2, id1). *)
Theorem canCommunicate_symmetric (G' : InterferenceGraph.t) (id1 id2 : Z) :
  builtWithClosure G' →
  canCommunicate G' id1 id2 = canCommunicate G' id2 id1.
Proof.
  intros [Hcl Hsym]%builtWithClosure_spec. apply bool_eq_iff.
  rewrite !(canCommunicate_spec G') by done.
  split; intros [Hne Htc]; (split; [congruence|]); by apply tc_adjacent_symmetric.
Qed.

(** X3. On a graph built with the closure enabled, two distinct vehicles
    that are direct neighbours can communicate. *)
Theorem neighbours_can_communicate (G' : InterferenceGraph.t) (id1 id2 : Z) :
  builtWithClosure G' →
  adjacent (InterferenceGraph.m_adjacencyList G') id1 id2 → id1 ≠ id2 →
  canCommunicate G' id1 id2 = true.
Proof.
  intros [Hcl _]%builtWithClosure_spec Hadj Hne.
  apply (canCommunicate_spec G'); [done|]. split; [congruence | by apply tc_once].
Qed.

(** X4. On a graph built with the closure enabled [canCommunicate] is
    transitive over distinct vehicles: a relay between id1 and id3 makes
    them communicate. *)
Theorem canCommunicate_transitive (G' : InterferenceGraph.t) (id1 id2 id3 : Z) :
  builtWithClosure G' →
  canCommunicate G' id1 id2 = true → canCommunicate G' id2 id3 = true →
  id1 ≠ id3 →
  canCommunicate G' id1 id3 = true.
Proof.
  intros [Hcl _]%builtWithClosure_spec.
  rewrite !(canCommunicate_spec G') by done.
  intros [_ H12] [_ H23] Hne. split; [congruence|]. by etrans.
Qed.

(** X5. On a graph built with the closure enabled the closure map has the
    keys of the adjacency map, a vehicle is never in its own reachable set,
    and two vehicles that can communicate are both vehicles of the graph. *)
Theorem closure_within_graph (G' : InterferenceGraph.t) :
  builtWithClosure G' →
  dom (InterferenceGraph.m_transitiveClosure G') =
    dom (InterferenceGraph.m_adjacencyList G') ∧
  (∀ id1, canCommunicate G' id1 id1 = false) ∧
  (∀ id1 id2, canCommunicate G' id1 id2 = true →
     id1 ∈ dom (InterferenceGraph.m_adjacencyList G') ∧
     id2 ∈ dom (InterferenceGraph.m_adjacencyList G')).
Proof.
  intros [Hcl Hsym]%builtWithClosure_spec. split; [|split].
  - apply set_eq. intros k. rewrite !elem_of_dom, Hcl, computeTransitiveClosure_lookup.
    destruct (InterferenceGraph.m_adjacencyList G' !! k); split; intros [? ?]; eauto; done.
  - intros id1. apply not_true_iff_false. rewrite (canCommunicate_spec G') by done.
    by intros [? _].
  - intros id1 id2. rewrite (canCommunicate_spec G') by done. intros [_ Htc].
    rewrite !elem_of_dom. split; [by eapply tc_adjacent_key|].
    apply tc_adjacent_symmetric in Htc; [|done]. by eapply tc_adjacent_key.
Qed.

(** X6. On a graph built with the closure enabled a vehicle whose adjacency
    set is empty has an empty reachable set: it communicates with no one,
    and no one with it. *)
Theorem isolated_vehicle_reaches_nothing (G' : InterferenceGraph.t) (id1 : Z) :
  builtWithClosure G' →
  InterferenceGraph.m_adjacencyList G' !! id1 = Some ∅ →
  getReachableVehicles G' id1 = ∅ ∧
  InterferenceGraph.m_transitiveClosure G' !! id1 = Some ∅ ∧
  ∀ id2, canCommunicate G' id1 id2 = false ∧ canCommunicate G' id2 id1 = false.
Proof.
  intros Hbuilt Hiso. pose proof Hbuilt as [Hcl Hsym]%builtWithClosure_spec.
  assert (∀ j, ¬ tc (adjacent (InterferenceGraph.m_adjacencyList G')) id1 j) as Hno.
  { intros j Htc.
    destruct Htc as [i j (s & Hs & Hj)|i x j (s & Hs & Hj) _];
      rewrite Hiso in Hs; injection Hs as <-; by apply not_elem_of_empty in Hj. }
  assert (bfsReachable (InterferenceGraph.m_adjacencyList G') id1 = ∅) as Hbfs.
  { apply set_eq. intros j. rewrite bfsReachable_spec.
    split; [intros [_ Htc]; by apply Hno in Htc | by intros ?%not_elem_of_empty]. }
  assert (InterferenceGraph.m_transitiveClosure G' !! id1 = Some ∅) as Hlookup
    by (by rewrite Hcl, computeTransitiveClosure_lookup, Hiso, Hbfs).
  split; [unfold getReachableVehicles; by rewrite Hlookup|]. split; [done|].
  intros id2.
  assert (canCommunicate G' id1 id2 = false) as H12.
  { apply not_true_iff_false. rewrite (canCommunicate_spec G') by done.
    intros [_ Htc]. by apply Hno in Htc. }
  split; [done|]. apply not_true_iff_false. rewrite (canCommunicate_spec G') by done.
  intros [_ Htc]. apply tc_adjacent_symmetric in Htc; [|done]. by apply Hno in Htc.
Qed.

(** ** The builds from the vehicles *)

Lemma presentVehicles_cons p vehicles :
  presentVehicles (p :: vehicles) =
  match p with
  | Some v => v :: presentVehicles vehicles
  | None => presentVehicles vehicles
  end.
Proof. by destruct p. Qed.

Lemma elem_of_presentVehicles vehicles v :
  v ∈ presentVehicles vehicles ↔ Some v ∈ vehicles.
Proof.
  unfold presentVehicles. rewrite list_elem_of_omap. split.
  - by intros (p & Hp & ->).
  - intros Hv. by exists (Some v).
Qed.

Lemma orderedPairs_length {A : Type} (l : list A) :
  2 * Z.of_nat (length (orderedPairs l)) =
  Z.of_nat (length l) * (Z.of_nat (length l) - 1).
Proof.
  induction l as [|x l IH]; [done|].
  cbn [orderedPairs]. rewrite length_app, length_map. cbn [length]. lia.
Qed.

Lemma orderedPairs_present vehicles x y :
  (x, y) ∈ orderedPairs (presentVehicles vehicles) ↔
  ∃ a b, (a < b)%nat ∧ vehicles !! a = Some (Some x) ∧ vehicles !! b = Some (Some y).
Proof.
  induction vehicles as [|p l IH].
  - split; [intros H; by apply not_elem_of_nil in H | by intros (a & b & _ & H & _)].
  - rewrite presentVehicles_cons. destruct p as [v|].
    + cbn [orderedPairs]. rewrite elem_of_app, IH. split.
      * intros [Hin|(a & b & Hab & Ha & Hb)].
        -- apply list_elem_of_fmap in Hin as (w & [= -> ->] & Hw).
           apply elem_of_presentVehicles, list_elem_of_lookup in Hw as [k Hk].
           exists 0%nat, (S k). split; [lia|]. by split.
        -- exists (S a), (S b). split; [lia|]. by split.
      * intros (a & b & Hab & Ha & Hb). destruct b as [|b]; [lia|].
        destruct a as [|a].
        -- left. injection Ha as ->. apply list_elem_of_fmap. exists y. split; [done|].
           apply elem_of_presentVehicles, list_elem_of_lookup. by exists b.
        -- right. exists a, b. split; [lia|]. by split.
    + rewrite IH. split.
      * intros (a & b & Hab & Ha & Hb). exists (S a), (S b). split; [lia|]. by split.
      * intros (a & b & Hab & Ha & Hb). destruct b as [|b]; [lia|].
        destruct a as [|a]; [done|]. exists a, b. split; [lia|]. by split.
Qed.

Lemma classicPairs_pairs g vehicles st :
  classicPairs g vehicles st =
  fold_left (compareVehiclePair g) (orderedPairs (presentVehicles vehicles)) st.
Proof.
  revert st. induction vehicles as [|[v1|] l IH]; intros st; [done | |].
  - cbn [classicPairs]. rewrite presentVehicles_cons. cbn [orderedPairs].
    rewrite fold_left_app, IH. f_equal. clear IH. revert st.
    induction l as [|[v2|] l' IHl]; intros st; [done | |].
    + rewrite presentVehicles_cons. cbn [fold_left map]. by rewrite IHl.
    + rewrite presentVehicles_cons. cbn [fold_left]. by rewrite IHl.
  - cbn [classicPairs]. by rewrite presentVehicles_cons, IH.
Qed.

Lemma adjacent_compareVehicles g v1 v2 adj i j :
  adjacent (compareVehicles g v1 v2 adj) i j ↔
  adjacent adj i j ∨ joinsVehicles g (v1, v2) i j.
Proof.
  unfold compareVehicles, joinsVehicles. cbn [fst snd].
  destruct (vehiclesInRange g v1 v2).
  - rewrite adjacent_addEdge. split; [intros [?|?]; auto | intros [?|[_ ?]]; auto].
  - split; [auto | intros [?|[? _]]; done].
Qed.

Lemma compareVehiclePairs_adjacent g pairs st i j :
  adjacent (fold_left (compareVehiclePair g) pairs st).1 i j ↔
  adjacent st.1 i j ∨ ∃ p, p ∈ pairs ∧ joinsVehicles g p i j.
Proof.
  revert st. induction pairs as [|p l IH]; intros st.
  - cbn [fold_left]. split; [auto|]. intros [?|(p & Hp & _)]; [done|].
    by apply not_elem_of_nil in Hp.
  - cbn [fold_left]. rewrite IH. destruct p as [v1 v2].
    unfold compareVehiclePair. cbn [fst snd].
    rewrite adjacent_compareVehicles. split.
    + intros [[?|Hj]|(q & Hq & Hj)]; [by left | |].
      * right. exists (v1, v2). split; [apply list_elem_of_here | done].
      * right. exists q. split; [by apply list_elem_of_further | done].
    + intros [?|(q & [->|Hq]%elem_of_cons & Hj)]; [by left; left | by left; right |].
      right. by exists q.
Qed.

Lemma compareVehiclePairs_count g pairs st :
  (fold_left (compareVehiclePair g) pairs st).2 = st.2 + Z.of_nat (length pairs).
Proof.
  revert st. induction pairs as [|p l IH]; intros st.
  - cbn. lia.
  - cbn [fold_left]. rewrite IH. cbn [length compareVehiclePair snd]. lia.
Qed.

Lemma registerVehicles_fold_lookup vehicles (st : gmap Z Vehicule.t * gmap Z (gset Z)) k :
  let st' :=
    fold_left
      (λ st p, match p with
               | None => st
               | Some v => (<[Vehicule.id v := v]> st.1, <[Vehicule.id v := ∅]> st.2)
               end)
      vehicles st in
  (∀ v, st'.1 !! k = Some v →
        st.1 !! k = Some v ∨ (Some v ∈ vehicles ∧ Vehicule.id v = k)) ∧
  (is_Some (st'.1 !! k) ↔
   is_Some (st.1 !! k) ∨ k ∈ Vehicule.id <$> presentVehicles vehicles) ∧
  (is_Some (st'.2 !! k) ↔
   is_Some (st.2 !! k) ∨ k ∈ Vehicule.id <$> presentVehicles vehicles).
Proof.
  revert st. induction vehicles as [|[v|] l IH]; intros st; cbn [fold_left].
  - split; [auto|]. split; (split; [auto|]); intros [?|H]; auto;
      by apply not_elem_of_nil in H.
  - specialize (IH (<[Vehicule.id v := v]> st.1, <[Vehicule.id v := ∅]> st.2)).
    cbn zeta in IH. destruct IH as (IH1 & IH2 & IH3). cbn [fst snd] in *.
    rewrite presentVehicles_cons, fmap_cons. split; [|split].
    + intros w Hw. destruct (IH1 w Hw) as [Hin|[Hin Hid]].
      * destruct (decide (k = Vehicule.id v)) as [->|Hne].
        -- rewrite lookup_insert_eq in Hin. injection Hin as ->.
           right. split; [apply list_elem_of_here | done].
        -- rewrite lookup_insert_ne in Hin by congruence. by left.
      * right. split; [by apply list_elem_of_further | done].
    + rewrite IH2, elem_of_cons. destruct (decide (k = Vehicule.id v)) as [->|Hne].
      * rewrite lookup_insert_eq. split; [intros _; right; by left | intros _; left; eauto].
      * rewrite lookup_insert_ne by congruence. split; intros [?|?]; auto.
        destruct H as [?|?]; [done | auto].
    + rewrite IH3, elem_of_cons. destruct (decide (k = Vehicule.id v)) as [->|Hne].
      * rewrite lookup_insert_eq. split; [intros _; right; by left | intros _; left; eauto].
      * rewrite lookup_insert_ne by congruence. split; intros [?|?]; auto.
        destruct H as [?|?]; [done | auto].
  - rewrite presentVehicles_cons. destruct (IH st) as (IH1 & IH2 & IH3).
    split; [|by split]. intros w Hw. destruct (IH1 w Hw) as [?|[Hin Hid]]; [by left|].
    right. split; [by apply list_elem_of_further | done].
Qed.

Lemma registerVehicles_lookup vehicles k v :
  (registerVehicles vehicles).1 !! k = Some v → Some v ∈ vehicles ∧ Vehicule.id v = k.
Proof.
  intros Hv. destruct (registerVehicles_fold_lookup vehicles (∅, ∅) k) as (H1 & _).
  destruct (H1 v Hv) as [H|H]; [cbn [fst] in H; by rewrite lookup_empty in H | done].
Qed.

Lemma registerVehicles_keys vehicles k :
  (is_Some ((registerVehicles vehicles).1 !! k) ↔
   k ∈ Vehicule.id <$> presentVehicles vehicles) ∧
  (is_Some ((registerVehicles vehicles).2 !! k) ↔
   k ∈ Vehicule.id <$> presentVehicles vehicles).
Proof.
  destruct (registerVehicles_fold_lookup vehicles (∅, ∅) k) as (_ & H2 & H3).
  unfold registerVehicles. cbn zeta in *. cbn [fst snd] in *.
  rewrite H2, H3, lookup_empty. split; (split; [intros [[? ?]|?]; done | auto]).
Qed.

Lemma keysFrom_refl m : keysFrom m m.
Proof. intros k. split; [auto|]. intros [?|(j & s & Hs & _)]; eauto. Qed.

Lemma keysFrom_compareVehicles g v1 v2 m m' :
  keysFrom m m' → keysFrom m (compareVehicles g v1 v2 m').
Proof.
  intros Hm k. unfold compareVehicles. destruct (vehiclesInRange g v1 v2); [|done].
  rewrite lookup_addEdge_is_Some, (Hm k). split.
  - intros [[?|[j Hj]]|[->| ->]]; [by left | | |]; right.
    + exists j. apply adjacent_addEdge. by left.
    + exists (Vehicule.id v2). apply adjacent_addEdge. right; by left.
    + exists (Vehicule.id v1). apply adjacent_addEdge. right; by right.
  - intros [?|[j [Hj|[[-> _]|[-> _]]]%adjacent_addEdge]]; eauto.
Qed.

Lemma keysFrom_classic g vehicles adj :
  keysFrom adj (buildGraphClassic g vehicles adj).1.1.
Proof.
  unfold buildGraphClassic. rewrite classicPairs_pairs.
  assert (∀ pairs st, keysFrom adj st.1 →
            keysFrom adj (fold_left (compareVehiclePair g) pairs st).1) as Hgen.
  { induction pairs as [|p l IH]; intros st Hst; [done|].
    cbn [fold_left]. apply IH. by apply keysFrom_compareVehicles. }
  specialize (Hgen (orderedPairs (presentVehicles vehicles)) (adj, 0) (keysFrom_refl adj)).
  by destruct (fold_left _ _ (adj, 0)).
Qed.

Lemma buildGraphClassic_adjacent g vehicles adj i j :
  adjacent (buildGraphClassic g vehicles adj).1.1 i j ↔
  adjacent adj i j ∨
  ∃ p, p ∈ orderedPairs (presentVehicles vehicles) ∧ joinsVehicles g p i j.
Proof.
  unfold buildGraphClassic. rewrite classicPairs_pairs.
  pose proof (compareVehiclePairs_adjacent g
                (orderedPairs (presentVehicles vehicles)) (adj, 0) i j) as H.
  by destruct (fold_left _ _ (adj, 0)).
Qed.

Lemma buildGraphClassic_count g vehicles adj :
  2 * (buildGraphClassic g vehicles adj).1.2 =
  Z.of_nat (length (presentVehicles vehicles)) *
  (Z.of_nat (length (presentVehicles vehicles)) - 1).
Proof.
  unfold buildGraphClassic. rewrite classicPairs_pairs.
  pose proof (compareVehiclePairs_count g
                (orderedPairs (presentVehicles vehicles)) (adj, 0)) as H.
  destruct (fold_left _ _ (adj, 0)) as [adj' c]. cbn [fst snd] in *.
  rewrite H, <- orderedPairs_length. lia.
Qed.

Lemma compareWithNearby_adjacent g vehicleMap v1 nearbyIds st i j :
  adjacent (fold_left (compareWithNearby g vehicleMap v1) nearbyIds st).1 i j ↔
  adjacent st.1 i j ∨
  ∃ n v2, n ∈ nearbyIds ∧ Vehicule.id v1 < n ∧ vehicleMap !! n = Some v2 ∧
          joinsVehicles g (v1, v2) i j.
Proof.
  revert st. induction nearbyIds as [|n l IH]; intros st.
  - cbn [fold_left]. split; [auto|]. intros [?|(n & v2 & Hn & _)]; [done|].
    by apply not_elem_of_nil in Hn.
  - cbn [fold_left]. rewrite IH. unfold compareWithNearby.
    destruct (Z.leb_spec n (Vehicule.id v1)) as [Hle|Hlt].
    + split.
      * intros [?|(m & v2 & Hm & Hrest)]; [by left|].
        right. exists m, v2. split; [by apply list_elem_of_further | done].
      * intros [?|(m & v2 & [->|Hm]%elem_of_cons & Hlt & Hrest)]; [by left | lia |].
        right. by exists m, v2.
    + destruct (vehicleMap !! n) as [v2|] eqn:Hv2; cbn [fst].
      * rewrite adjacent_compareVehicles. split.
        -- intros [[?|Hj]|(m & w & Hm & Hrest)]; [by left | |].
           ++ right. exists n, v2. split; [apply list_elem_of_here | done].
           ++ right. exists m, w. split; [by apply list_elem_of_further | done].
        -- intros [?|(m & w & [->|Hm]%elem_of_cons & Hlt' & Hw & Hj)]; [by left; left | |].
           ++ left; right. congruence.
           ++ right. by exists m, w.
      * split.
        -- intros [?|(m & w & Hm & Hrest)]; [by left|].
           right. exists m, w. split; [by apply list_elem_of_further | done].
        -- intros [?|(m & w & [->|Hm]%elem_of_cons & Hlt' & Hw & Hj)];
             [by left | congruence |].
           right. by exists m, w.
Qed.

Lemma keysFrom_compareWithNearby g vehicleMap v1 nearbyIds adj st :
  keysFrom adj st.1 →
  keysFrom adj (fold_left (compareWithNearby g vehicleMap v1) nearbyIds st).1.
Proof.
  revert st. induction nearbyIds as [|n l IH]; intros st Hst; [done|].
  cbn [fold_left]. apply IH. unfold compareWithNearby.
  destruct (n <=? Vehicule.id v1); [done|].
  destruct (vehicleMap !! n); cbn [fst]; [by apply keysFrom_compareVehicles | done].
Qed.

Lemma buildGraphWithSpatialGrid_adjacent g getNearbyVehicles vehicleMap vehicles adj i j :
  adjacent (buildGraphWithSpatialGrid g getNearbyVehicles vehicleMap vehicles adj).1.1 i j ↔
  adjacent adj i j ∨
  ∃ v1 n v2, Some v1 ∈ vehicles ∧ n ∈ getNearbyVehicles (Vehicule.id v1) ∧
             Vehicule.id v1 < n ∧ vehicleMap !! n = Some v2 ∧
             joinsVehicles g (v1, v2) i j.
Proof.
  unfold buildGraphWithSpatialGrid.
  match goal with
  | |- context [fold_left ?f vehicles ?st0] =>
      assert (∀ st : gmap Z (gset Z) * Z * Z,
                adjacent (fold_left f vehicles st).1.1 i j ↔
                adjacent st.1.1 i j ∨
                ∃ v1 n v2, Some v1 ∈ vehicles ∧ n ∈ getNearbyVehicles (Vehicule.id v1) ∧
                           Vehicule.id v1 < n ∧ vehicleMap !! n = Some v2 ∧
                           joinsVehicles g (v1, v2) i j) as Hgen
  end.
  { induction vehicles as [|[v1|] l IH]; intros st; cbn [fold_left].
    - split; [auto|]. intros [?|(v1 & n & v2 & Hv & _)]; [done|].
      by apply not_elem_of_nil in Hv.
    - rewrite IH.
      pose proof (compareWithNearby_adjacent g vehicleMap v1
                    (getNearbyVehicles (Vehicule.id v1)) st.1 i j) as Hin.
      destruct (fold_left _ (getNearbyVehicles (Vehicule.id v1)) st.1) as [adj' c].
      cbn [fst snd] in *. rewrite Hin. split.
      + intros [[?|(n & v2 & Hrest)]|(w & n & v2 & Hw & Hrest)]; [by left | |].
        * right. exists v1, n, v2. split; [apply list_elem_of_here | done].
        * right. exists w, n, v2. split; [by apply list_elem_of_further | done].
      + intros [?|(w & n & v2 & [[= ->]|Hw]%elem_of_cons & Hrest)]; [by left; left | |].
        * left; right. by exists n, v2.
        * right. by exists w, n, v2.
    - rewrite IH. split.
      + intros [?|(w & n & v2 & Hw & Hrest)]; [by left|].
        right. exists w, n, v2. split; [by apply list_elem_of_further | done].
      + intros [?|(w & n & v2 & [?|Hw]%elem_of_cons & Hrest)]; [by left | done |].
        right. by exists w, n, v2. }
  specialize (Hgen (adj, 0, 0)).
  by destruct (fold_left _ vehicles (adj, 0, 0)) as [[adj' c] n].
Qed.

Lemma keysFrom_grid g getNearbyVehicles vehicleMap vehicles adj :
  keysFrom adj (buildGraphWithSpatialGrid g getNearbyVehicles vehicleMap vehicles adj).1.1.
Proof.
  unfold buildGraphWithSpatialGrid.
  match goal with
  | |- context [fold_left ?f vehicles ?st0] =>
      assert (∀ st : gmap Z (gset Z) * Z * Z, keysFrom adj st.1.1 →
                keysFrom adj (fold_left f vehicles st).1.1) as Hgen
  end.
  { induction vehicles as [|[v1|] l IH]; intros st Hst; cbn [fold_left];
      [done | | by apply IH].
    apply IH.
    pose proof (keysFrom_compareWithNearby g vehicleMap v1
                  (getNearbyVehicles (Vehicule.id v1)) adj st.1 Hst) as Hk.
    by destruct (fold_left _ (getNearbyVehicles (Vehicule.id v1)) st.1). }
  specialize (Hgen (adj, 0, 0) (keysFrom_refl adj)).
  by destruct (fold_left _ vehicles (adj, 0, 0)) as [[adj' c] n].
Qed.

Lemma buildGraph_vehicleMap g getNearbyVehicles G vehicles :
  InterferenceGraph.m_vehicleMap (buildGraph g getNearbyVehicles G vehicles) =
  match vehicles with
  | [] => ∅
  | _ :: _ => (registerVehicles vehicles).1
  end.
Proof.
  unfold buildGraph. destruct vehicles as [|v l]; [done|].
  destruct (registerVehicles (v :: l)) as [vm adj].
  destruct (InterferenceGraph.m_useSpatialGrid G && _).
  - by destruct (buildGraphWithSpatialGrid _ _ _ _ _) as [[? ?] ?].
  - by destruct (buildGraphClassic _ _ _) as [[? ?] ?].
Qed.

Lemma buildGraph_comparisons g getNearbyVehicles G vehicles :
  InterferenceGraph.m_lastComparisons (buildGraph g getNearbyVehicles G vehicles) =
  match vehicles with
  | [] => InterferenceGraph.m_lastComparisons G
  | _ :: _ =>
      let '(vehicleMap, adj) := registerVehicles vehicles in
      (if InterferenceGraph.m_useSpatialGrid G && (20 <=? length vehicles)%nat
       then buildGraphWithSpatialGrid g getNearbyVehicles vehicleMap vehicles adj
       else buildGraphClassic g vehicles adj).1.2
  end.
Proof.
  unfold buildGraph. destruct vehicles as [|v l]; [done|].
  destruct (registerVehicles (v :: l)) as [vm adj].
  destruct (InterferenceGraph.m_useSpatialGrid G && _).
  - by destruct (buildGraphWithSpatialGrid _ _ _ _ _) as [[? ?] ?].
  - by destruct (buildGraphClassic _ _ _) as [[? ?] ?].
Qed.

Lemma vehicleEdges_classic g getNearbyVehicles G vehicles i j :
  InterferenceGraph.m_useSpatialGrid G && (20 <=? length vehicles)%nat = false →
  adjacent (vehicleEdges g getNearbyVehicles G vehicles) i j ↔
  ∃ p, p ∈ orderedPairs (presentVehicles vehicles) ∧ joinsVehicles g p i j.
Proof.
  intros Hpath. unfold vehicleEdges.
  pose proof (registerVehicles_noEdges vehicles) as Hne.
  destruct (registerVehicles vehicles) as [vm adj]. rewrite Hpath.
  rewrite buildGraphClassic_adjacent. split; [|auto].
  intros [H|H]; [by apply Hne in H | done].
Qed.

Lemma vehicleEdges_grid g getNearbyVehicles G vehicles i j :
  InterferenceGraph.m_useSpatialGrid G && (20 <=? length vehicles)%nat = true →
  adjacent (vehicleEdges g getNearbyVehicles G vehicles) i j ↔
  ∃ v1 n v2, Some v1 ∈ vehicles ∧ n ∈ getNearbyVehicles (Vehicule.id v1) ∧
             Vehicule.id v1 < n ∧ (registerVehicles vehicles).1 !! n = Some v2 ∧
             joinsVehicles g (v1, v2) i j.
Proof.
  intros Hpath. unfold vehicleEdges.
  pose proof (registerVehicles_noEdges vehicles) as Hne.
  destruct (registerVehicles vehicles) as [vm adj]. rewrite Hpath.
  rewrite buildGraphWithSpatialGrid_adjacent. split; [|auto].
  intros [H|H]; [by apply Hne in H | done].
Qed.

Lemma vehicleEdges_keysFrom g getNearbyVehicles G vehicles :
  keysFrom (registerVehicles vehicles).2 (vehicleEdges g getNearbyVehicles G vehicles).
Proof.
  unfold vehicleEdges. destruct (registerVehicles vehicles) as [vm adj].
  destruct (_ && _); [apply keysFrom_grid | apply keysFrom_classic].
Qed.

Lemma vehicleEdges_endpoint g getNearbyVehicles G vehicles i j :
  adjacent (vehicleEdges g getNearbyVehicles G vehicles) i j →
  i ∈ Vehicule.id <$> presentVehicles vehicles.
Proof.
  assert (∀ v, Some v ∈ vehicles → Vehicule.id v ∈ Vehicule.id <$> presentVehicles vehicles)
    as Hpresent.
  { intros v Hv. apply list_elem_of_fmap. exists v. split; [done|].
    by apply elem_of_presentVehicles. }
  destruct (InterferenceGraph.m_useSpatialGrid G && (20 <=? length vehicles)%nat) eqn:Hpath.
  - rewrite vehicleEdges_grid by done.
    intros (v1 & n & v2 & Hv1 & _ & _ & [Hv2 Hid]%registerVehicles_lookup & _ & Hij).
    cbn [fst snd] in Hij. destruct Hij as [[-> _]|[-> _]]; by apply Hpresent.
  - rewrite vehicleEdges_classic by done.
    intros ([v1 v2] & (a & b & _ & Ha & Hb)%orderedPairs_present & _ & Hij).
    cbn [fst snd] in Hij.
    destruct Hij as [[-> _]|[-> _]]; apply Hpresent, list_elem_of_lookup; eauto.
Qed.

(** X7. Without the spatial grid, or below 20 vehicles, [buildGraph] joins
    exactly the pairs of non-null vehicles at positions [a < b] of the vector
    that pass the range gate, and on a non-empty vector it counts one
    comparison for every such pair of positions. *)
Theorem classic_build_joins_pairs_in_range (g : RoadGraph.t)
    (getNearbyVehicles : Z → list Z) (G : InterferenceGraph.t)
    (vehicles : list (option Vehicule.t)) :
  InterferenceGraph.m_useSpatialGrid G = false ∨ (length vehicles < 20)%nat →
  (∀ i j,
     adjacent (InterferenceGraph.m_adjacencyList
                 (buildGraph g getNearbyVehicles G vehicles)) i j ↔
     ∃ a b v1 v2,
       (a < b)%nat ∧ vehicles !! a = Some (Some v1) ∧ vehicles !! b = Some (Some v2) ∧
       vehiclesInRange g v1 v2 = true ∧
       ((i = Vehicule.id v1 ∧ j = Vehicule.id v2) ∨
        (i = Vehicule.id v2 ∧ j = Vehicule.id v1))) ∧
  (vehicles ≠ [] →
   2 * InterferenceGraph.m_lastComparisons (buildGraph g getNearbyVehicles G vehicles) =
   Z.of_nat (length (presentVehicles vehicles)) *
   (Z.of_nat (length (presentVehicles vehicles)) - 1)).
Proof.
  intros Hclassic.
  assert (InterferenceGraph.m_useSpatialGrid G && (20 <=? length vehicles)%nat = false)
    as Hpath.
  { destruct Hclassic as [->|Hlt]; [done|].
    apply andb_false_intro2. apply Nat.leb_gt. lia. }
  split.
  - intros i j. rewrite buildGraph_adjacency. destruct vehicles as [|p l].
    + split; [by intros ?%noEdges_empty | by intros (a & b & v1 & v2 & _ & H & _)].
    + rewrite vehicleEdges_classic by done. split.
      * intros ([v1 v2] & (a & b & Hab & Ha & Hb)%orderedPairs_present & Hgate & Hij).
        by exists a, b, v1, v2.
      * intros (a & b & v1 & v2 & Hab & Ha & Hb & Hgate & Hij).
        exists (v1, v2). split; [apply orderedPairs_present; eauto | done].
  - intros Hne. rewrite buildGraph_comparisons. destruct vehicles as [|p l]; [done|].
    destruct (registerVehicles (p :: l)) as [vm adj]. rewrite Hpath.
    apply buildGraphClassic_count.
Qed.

(** X8. With the spatial grid in use and at least 20 vehicles, [buildGraph]
    joins a vehicle only with a vehicle of a larger id that the grid lists
    as nearby, that is registered in the vehicle map and that passes the
    range gate; so no vehicle is ever its own neighbour. *)
Theorem grid_build_joins_nearby_in_range (g : RoadGraph.t)
    (getNearbyVehicles : Z → list Z) (G : InterferenceGraph.t)
    (vehicles : list (option Vehicule.t)) :
  InterferenceGraph.m_useSpatialGrid G = true → (20 ≤ length vehicles)%nat →
  (∀ i j,
     adjacent (InterferenceGraph.m_adjacencyList
                 (buildGraph g getNearbyVehicles G vehicles)) i j ↔
     ∃ v1 v2,
       Some v1 ∈ vehicles ∧
       Vehicule.id v2 ∈ getNearbyVehicles (Vehicule.id v1) ∧
       Vehicule.id v1 < Vehicule.id v2 ∧
       InterferenceGraph.m_vehicleMap (buildGraph g getNearbyVehicles G vehicles)
         !! Vehicule.id v2 = Some v2 ∧
       vehiclesInRange g v1 v2 = true ∧
       ((i = Vehicule.id v1 ∧ j = Vehicule.id v2) ∨
        (i = Vehicule.id v2 ∧ j = Vehicule.id v1))) ∧
  (∀ i, ¬ adjacent (InterferenceGraph.m_adjacencyList
                      (buildGraph g getNearbyVehicles G vehicles)) i i).
Proof.
  intros Hgrid Hsize.
  assert (InterferenceGraph.m_useSpatialGrid G && (20 <=? length vehicles)%nat = true)
    as Hpath.
  { rewrite Hgrid. apply Nat.leb_le. lia. }
  assert (∀ i j,
     adjacent (InterferenceGraph.m_adjacencyList
                 (buildGraph g getNearbyVehicles G vehicles)) i j ↔
     ∃ v1 v2,
       Some v1 ∈ vehicles ∧
       Vehicule.id v2 ∈ getNearbyVehicles (Vehicule.id v1) ∧
       Vehicule.id v1 < Vehicule.id v2 ∧
       InterferenceGraph.m_vehicleMap (buildGraph g getNearbyVehicles G vehicles)
         !! Vehicule.id v2 = Some v2 ∧
       vehiclesInRange g v1 v2 = true ∧
       ((i = Vehicule.id v1 ∧ j = Vehicule.id v2) ∨
        (i = Vehicule.id v2 ∧ j = Vehicule.id v1))) as Hedges.
  { intros i j. rewrite buildGraph_adjacency, buildGraph_vehicleMap.
    destruct vehicles as [|p l]; [cbn in Hsize; lia|].
    rewrite vehicleEdges_grid by done. split.
    - intros (v1 & n & v2 & Hv1 & Hn & Hlt & Hv2 & Hgate & Hij).
      pose proof (registerVehicles_lookup _ _ _ Hv2) as [_ <-].
      by exists v1, v2.
    - intros (v1 & v2 & Hv1 & Hn & Hlt & Hv2 & Hgate & Hij).
      exists v1, (Vehicule.id v2), v2. by repeat split. }
  split; [done|].
  intros i (v1 & v2 & _ & _ & Hlt & _ & _ & [[-> Heq]|[-> Heq]])%Hedges; lia.
Qed.

(** X9. After [buildGraph] the adjacency map and the vehicle map have the
    same keys, the ids of the non-null vehicles of the vector; every entry
    of the vehicle map is a vehicle of the vector stored under its own id;
    and both ends of every edge are such ids. *)
Theorem buildGraph_registers_present_vehicles (g : RoadGraph.t)
    (getNearbyVehicles : Z → list Z) (G : InterferenceGraph.t)
    (vehicles : list (option Vehicule.t)) :
  dom (InterferenceGraph.m_adjacencyList (buildGraph g getNearbyVehicles G vehicles)) =
    list_to_set (Vehicule.id <$> presentVehicles vehicles) ∧
  dom (InterferenceGraph.m_vehicleMap (buildGraph g getNearbyVehicles G vehicles)) =
    list_to_set (Vehicule.id <$> presentVehicles vehicles) ∧
  (∀ k v,
     InterferenceGraph.m_vehicleMap (buildGraph g getNearbyVehicles G vehicles) !! k
       = Some v →
     Some v ∈ vehicles ∧ Vehicule.id v = k) ∧
  (∀ i j,
     adjacent (InterferenceGraph.m_adjacencyList
                 (buildGraph g getNearbyVehicles G vehicles)) i j →
     i ∈ Vehicule.id <$> presentVehicles vehicles ∧
     j ∈ Vehicule.id <$> presentVehicles vehicles).
Proof.
  rewrite buildGraph_adjacency, buildGraph_vehicleMap.
  destruct vehicles as [|p l].
  - split; [by rewrite dom_empty_L|]. split; [by rewrite dom_empty_L|].
    split; [intros k v H; by rewrite lookup_empty in H|].
    by intros i j ?%noEdges_empty.
  - set (vehicles := p :: l). split; [|split; [|split]].
    + apply set_eq. intros k. rewrite elem_of_dom, elem_of_list_to_set.
      rewrite (vehicleEdges_keysFrom g getNearbyVehicles G vehicles k).
      rewrite (proj2 (registerVehicles_keys vehicles k)). split; [|auto].
      intros [?|[j Hj]]; [done|]. by eapply vehicleEdges_endpoint.
    + apply set_eq. intros k. rewrite elem_of_dom, elem_of_list_to_set.
      apply registerVehicles_keys.
    + apply registerVehicles_lookup.
    + intros i j Hij. split; [by eapply vehicleEdges_endpoint|].
      apply vehicleEdges_symmetric in Hij. by eapply vehicleEdges_endpoint.
Qed.

(** ** The build the simulator dispatches *)

Lemma driver_adjacent (snapshots : list VehicleSnapshot.t) microNeighbors a b :
  vehiclesByAntenna snapshots ≠ ∅ →
  Z.of_nat (length snapshots) ≤ 2 ^ 31 →
  adjacent (snapshotEdges snapshots (Some (assembleAntennaInfo snapshots microNeighbors))).1
    a b ↔
  ∃ i j vi vj,
    snapshots !! i = Some vi ∧ snapshots !! j = Some vj ∧
    comparedInOrder microNeighbors i j
      (VehicleSnapshot.microAntennaId vi) (VehicleSnapshot.microAntennaId vj) ∧
    withinBothRanges vi vj = true ∧
    ((a = VehicleSnapshot.id vi ∧ b = VehicleSnapshot.id vj) ∨
     (a = VehicleSnapshot.id vj ∧ b = VehicleSnapshot.id vi)).
Proof.
  intros Hne Hlen. rewrite snapshotEdges_adjacent. unfold comparedPairs.
  cbn [assembleAntennaInfo AntennaNeighborhood.vehiclesPerAntenna].
  rewrite bool_decide_eq_true_2 by done. split.
  - intros ([x y] & Hin & Hgate & Hids). cbn [fst snd] in *.
    apply (driverPairs_elem_of snapshots microNeighbors x y Hlen) in Hin
      as (i & j & Hi & Hj & Hij).
    by exists i, j, x, y.
  - intros (i & j & vi & vj & Hi & Hj & Hij & Hgate & Hids).
    exists (vi, vj). split; [|by split].
    apply (driverPairs_elem_of snapshots microNeighbors vi vj Hlen). by exists i, j.
Qed.

Lemma calculateGraphAsync_adjacency snapshots computeTransitive info :
  InterferenceGraph.m_adjacencyList
    (calculateGraphAsync (mkGraphCalculation snapshots computeTransitive info)) =
  match snapshots with
  | [] => ∅
  | _ :: _ => (snapshotEdges snapshots (Some info)).1
  end.
Proof.
  unfold calculateGraphAsync. cbn [taskSnapshots taskAntennaInfo taskComputeTransitive].
  apply buildGraphFromSnapshots_adjacency.
Qed.

(** X10. In the graph the simulator's task computes, when some snapshot has
    a cell, an edge joins two snapshots only if they are in mutual range and
    share a cell or lie in a cell and one of its listed neighbours with a
    larger id; and with distinct vehicle ids, with or without cells, no
    vehicle is its own neighbour. *)
Theorem task_joins_only_compared_cells (snapshots : list VehicleSnapshot.t)
    (microNeighbors : gmap Z (gset Z)) (computeTransitive : bool) :
  Z.of_nat (length snapshots) ≤ 2 ^ 31 →
  let adjacency :=
    InterferenceGraph.m_adjacencyList
      (calculateGraphAsync
         (mkGraphCalculation snapshots computeTransitive
            (assembleAntennaInfo snapshots microNeighbors))) in
  (vehiclesByAntenna snapshots ≠ ∅ →
   ∀ a b,
     adjacent adjacency a b ↔
     ∃ i j vi vj,
       snapshots !! i = Some vi ∧ snapshots !! j = Some vj ∧
       comparedInOrder microNeighbors i j
         (VehicleSnapshot.microAntennaId vi) (VehicleSnapshot.microAntennaId vj) ∧
       withinBothRanges vi vj = true ∧
       ((a = VehicleSnapshot.id vi ∧ b = VehicleSnapshot.id vj) ∨
        (a = VehicleSnapshot.id vj ∧ b = VehicleSnapshot.id vi))) ∧
  (NoDup (VehicleSnapshot.id <$> snapshots) → ∀ a, ¬ adjacent adjacency a a).
Proof.
  intros Hlen adjacency. subst adjacency. rewrite calculateGraphAsync_adjacency. split.
  - intros Hne a b. destruct snapshots as [|s l]; [done|]. by apply driver_adjacent.
  - intros Hnd a. destruct snapshots as [|s l]; [apply noEdges_empty|].
    set (snapshots := s :: l) in *.
    destruct (decide (vehiclesByAntenna snapshots = ∅)) as [Hempty|Hne].
    + rewrite snapshotEdges_adjacent. unfold comparedPairs.
      cbn [assembleAntennaInfo AntennaNeighborhood.vehiclesPerAntenna].
      rewrite bool_decide_eq_false_2 by (intros H; by apply H).
      intros ([x y] & (i & j & Hij & Hi & Hj)%pairsAll_elem_of & _ & Hids).
      cbn [fst snd] in Hids.
      assert (VehicleSnapshot.id x = VehicleSnapshot.id y) as Heq
        by (destruct Hids as [[? ?]|[? ?]]; congruence).
      pose proof (distinct_ids_index snapshots _ _ _ _ Hnd Hi Hj Heq). lia.
    + rewrite driver_adjacent by done.
      intros (i & j & vi & vj & Hi & Hj & Hij & _ & Hids).
      assert (VehicleSnapshot.id vi = VehicleSnapshot.id vj) as Heq
        by (destruct Hids as [[? ?]|[? ?]]; congruence).
      pose proof (distinct_ids_index snapshots _ _ _ _ Hnd Hi Hj Heq) as <-.
      assert (vi = vj) as -> by congruence.
      destruct Hij as (_ & _ & [[_ ?]|[? _]]); lia.
Qed.

Lemma indexAsInt_small (i : nat) : Z.of_nat i < 2 ^ 31 → indexAsInt i = Z.of_nat i.
Proof.
  intros Hi. pose proof (to_size_t_indexAsInt i Hi) as H.
  unfold indexAsInt, to_int in *. rewrite Z.mod_small by lia. lia.
Qed.

(** X11. The lists [startGraphCalculation] fills partition the snapshots with
    a cell: every list is non-empty, under a non-negative cell, holds the
    positions of the snapshots of that cell in ascending order, each once;
    a snapshot with a negative cell is in no list. *)
Theorem vehiclesByAntenna_partitions_snapshots (snapshots : list VehicleSnapshot.t) :
  Z.of_nat (length snapshots) ≤ 2 ^ 31 →
  (∀ c L, vehiclesByAntenna snapshots !! c = Some L →
     0 ≤ c ∧ L ≠ [] ∧ NoDup L ∧
     (∀ p q i j, (p < q)%nat → L !! p = Some i → L !! q = Some j → i < j) ∧
     (∀ i, i ∈ L ↔
           ∃ m x, i = Z.of_nat m ∧ snapshots !! m = Some x ∧
                  VehicleSnapshot.microAntennaId x = c)) ∧
  (∀ m x, snapshots !! m = Some x →
     (0 ≤ VehicleSnapshot.microAntennaId x →
      ∃ L, vehiclesByAntenna snapshots !! VehicleSnapshot.microAntennaId x = Some L ∧
           Z.of_nat m ∈ L) ∧
     (VehicleSnapshot.microAntennaId x < 0 →
      ∀ c L, vehiclesByAntenna snapshots !! c = Some L → Z.of_nat m ∉ L)).
Proof.
  intros Hlen.
  assert (∀ c m, m ∈ membersFrom 0 snapshots c → indexAsInt m = Z.of_nat m) as Hsmall.
  { intros c m (_ & s & Hs & _)%membersFrom_elem_of. rewrite Nat.sub_0_r in Hs.
    apply lookup_lt_Some in Hs. apply indexAsInt_small. lia. }
  assert (∀ c L, vehiclesByAntenna snapshots !! c = Some L →
            ∀ i, i ∈ L ↔
                 ∃ m x, i = Z.of_nat m ∧ snapshots !! m = Some x ∧
                        VehicleSnapshot.microAntennaId x = c) as Hmembers.
  { intros c L (Hc & Hne & ->)%vehiclesByAntenna_lookup i. rewrite list_elem_of_fmap. split.
    - intros (m & -> & Hm). rewrite (Hsmall c m Hm).
      apply membersFrom_elem_of in Hm as (_ & s & Hs & Hcs). rewrite Nat.sub_0_r in Hs.
      by exists m, s.
    - intros (m & x & -> & Hx & Hcx).
      assert (m ∈ membersFrom 0 snapshots c) as Hm.
      { apply membersFrom_elem_of. split; [lia|]. exists x. by rewrite Nat.sub_0_r. }
      exists m. by rewrite (Hsmall c m Hm). }
  split.
  - intros c L HL. pose proof HL as (Hc & Hne & ->)%vehiclesByAntenna_lookup.
    split; [done|]. split; [by destruct (membersFrom 0 snapshots c)|].
    assert (∀ p q i j, (p < q)%nat →
              (indexAsInt <$> membersFrom 0 snapshots c) !! p = Some i →
              (indexAsInt <$> membersFrom 0 snapshots c) !! q = Some j → i < j) as Hinc.
    { intros p q i j Hpq Hp Hq. rewrite list_lookup_fmap in Hp, Hq.
      destruct (membersFrom 0 snapshots c !! p) as [m|] eqn:Hm; [|done].
      destruct (membersFrom 0 snapshots c !! q) as [n|] eqn:Hn; [|done].
      cbn in Hp, Hq. injection Hp as <-. injection Hq as <-.
      rewrite (Hsmall c m), (Hsmall c n) by (apply list_elem_of_lookup; eauto).
      pose proof (membersFrom_increasing _ _ _ _ _ _ _ Hpq Hm Hn). lia. }
    split; [|split; [exact Hinc | by apply Hmembers]].
    apply NoDup_alt. intros p q i Hp Hq.
    destruct (Nat.lt_trichotomy p q) as [Hlt|[->|Hlt]]; [|done|].
    + pose proof (Hinc _ _ _ _ Hlt Hp Hq). lia.
    + pose proof (Hinc _ _ _ _ Hlt Hq Hp). lia.
  - intros m x Hx. split.
    + intros Hcell. destruct (driver_member snapshots m x Hx Hcell) as [Hm HL].
      eexists. split; [exact HL|]. apply list_elem_of_fmap. exists m.
      by rewrite (Hsmall _ m Hm).
    + intros Hneg c L HL Hin. pose proof HL as (Hc & _)%vehiclesByAntenna_lookup.
      apply (Hmembers c L HL) in Hin as (m' & x' & Heq & Hx' & Hcx').
      apply Nat2Z.inj in Heq as <-. assert (x' = x) as -> by congruence. lia.
Qed.

(** ** The choice of the next edge *)

Lemma classifyEdge_step v b0 e0 :
  let b := classifyEdge v b0 e0 in
  (∀ e, e ∈ validEdges b ↔
        e ∈ validEdges b0 ∨
        (e = e0 ∧ isValidRoad (Edge.type e) = true ∧
         Edge.target e ≠ Vehicule.previousVertex v ∧
         Edge.target e ∉ Vehicule.recentVertices v)) ∧
  (∀ e, e ∈ lessPreferredEdges b ↔
        e ∈ lessPreferredEdges b0 ∨
        (e = e0 ∧ isValidRoad (Edge.type e) = true ∧
         Edge.target e ≠ Vehicule.previousVertex v ∧
         Edge.target e ∈ Vehicule.recentVertices v)) ∧
  (∀ e, backEdge b = Some e →
        backEdge b0 = Some e ∨
        (e = e0 ∧ isValidRoad (Edge.type e) = true ∧
         Edge.target e = Vehicule.previousVertex v)) ∧
  (backEdge b = None →
   backEdge b0 = None ∧
   (isValidRoad (Edge.type e0) = true →
    Edge.target e0 ≠ Vehicule.previousVertex v)).
Proof.
  cbn zeta. unfold classifyEdge.
  destruct (isValidRoad (Edge.type e0)) eqn:Hvalid; cbn [negb].
  - destruct (decide (Edge.target e0 = Vehicule.previousVertex v)) as [Hprev|Hprev].
    + rewrite (bool_decide_eq_true_2 _ Hprev).
      cbn [validEdges lessPreferredEdges backEdge]. split; [|split; [|split]].
      * intros e. split; [auto|]. intros [?|(-> & _ & ? & _)]; done.
      * intros e. split; [auto|]. intros [?|(-> & _ & ? & _)]; done.
      * intros e [= <-]. by right.
      * done.
    + rewrite (bool_decide_eq_false_2 _ Hprev).
      destruct (decide (Edge.target e0 ∈ Vehicule.recentVertices v)) as [Hrec|Hrec].
      * rewrite (bool_decide_eq_true_2 _ Hrec).
        cbn [validEdges lessPreferredEdges backEdge]. split; [|split; [|split]].
        -- intros e. split; [auto|]. intros [?|(-> & _ & _ & ?)]; done.
        -- intros e. rewrite elem_of_app, list_elem_of_singleton. split.
           ++ intros [?| ->]; [by left | by right].
           ++ intros [?|(-> & _)]; [by left | by right].
        -- auto.
        -- done.
      * rewrite (bool_decide_eq_false_2 _ Hrec).
        cbn [validEdges lessPreferredEdges backEdge]. split; [|split; [|split]].
        -- intros e. rewrite elem_of_app, list_elem_of_singleton. split.
           ++ intros [?| ->]; [by left | by right].
           ++ intros [?|(-> & _)]; [by left | by right].
        -- intros e. split; [auto|]. intros [?|(-> & _ & _ & ?)]; done.
        -- auto.
        -- done.
  - split; [|split; [|split]].
    + intros e. split; [auto|]. intros [?|(-> & ? & _)]; [done | congruence].
    + intros e. split; [auto|]. intros [?|(-> & ? & _)]; [done | congruence].
    + auto.
    + done.
Qed.

Lemma classifyEdge_fold v edges b0 :
  let b := fold_left (classifyEdge v) edges b0 in
  (∀ e, e ∈ validEdges b ↔
        e ∈ validEdges b0 ∨
        (e ∈ edges ∧ isValidRoad (Edge.type e) = true ∧
         Edge.target e ≠ Vehicule.previousVertex v ∧
         Edge.target e ∉ Vehicule.recentVertices v)) ∧
  (∀ e, e ∈ lessPreferredEdges b ↔
        e ∈ lessPreferredEdges b0 ∨
        (e ∈ edges ∧ isValidRoad (Edge.type e) = true ∧
         Edge.target e ≠ Vehicule.previousVertex v ∧
         Edge.target e ∈ Vehicule.recentVertices v)) ∧
  (∀ e, backEdge b = Some e →
        backEdge b0 = Some e ∨
        (e ∈ edges ∧ isValidRoad (Edge.type e) = true ∧
         Edge.target e = Vehicule.previousVertex v)) ∧
  (backEdge b = None →
   backEdge b0 = None ∧
   ∀ e, e ∈ edges → isValidRoad (Edge.type e) = true →
        Edge.target e ≠ Vehicule.previousVertex v).
Proof.
  revert b0. induction edges as [|e0 l IH]; intros b0; cbn [fold_left].
  - cbn zeta. split; [|split; [|split]].
    + intros e. split; [auto|]. intros [?|[H _]]; [done | by apply not_elem_of_nil in H].
    + intros e. split; [auto|]. intros [?|[H _]]; [done | by apply not_elem_of_nil in H].
    + auto.
    + intros Hnone. split; [done|]. intros e H. by apply not_elem_of_nil in H.
  - destruct (IH (classifyEdge v b0 e0)) as (IHv & IHl & IHb & IHn).
    destruct (classifyEdge_step v b0 e0) as (Sv & Sl & Sb & Sn).
    cbn zeta in *. split; [|split; [|split]].
    + intros e. rewrite IHv, Sv, elem_of_cons. split.
      * intros [[?|(-> & ?)]|(? & ?)]; auto.
      * intros [?|([->|?] & ?)]; auto.
    + intros e. rewrite IHl, Sl, elem_of_cons. split.
      * intros [[?|(-> & ?)]|(? & ?)]; auto.
      * intros [?|([->|?] & ?)]; auto.
    + intros e He. destruct (IHb e He) as [Hb|(Hin & Hrest)].
      * destruct (Sb e Hb) as [?|(-> & Hrest)]; [by left|].
        right. split; [apply list_elem_of_here | done].
      * right. split; [by apply list_elem_of_further | done].
    + intros Hnone. destruct (IHn Hnone) as [Hb1 Hl]. destruct (Sn Hb1) as [Hb0 He0].
      split; [done|]. intros e [->|Hin]%elem_of_cons Hv; [by apply He0 | by apply Hl].
Qed.

Lemma pickRandom_elem_of {A : Type} (d : A) (l : list A) (r : Rng) :
  l ≠ [] → (pickRandom d l r).1 ∈ l.
Proof.
  intros Hl. unfold pickRandom, rand. cbn [fst]. apply list_elem_of_In, nth_In.
  apply Nat.mod_upper_bound. by destruct l.
Qed.

Lemma applySelectedEdge_fields e v :
  Vehicule.id (applySelectedEdge e v) = Vehicule.id v ∧
  Vehicule.start (applySelectedEdge e v) = Vehicule.start v ∧
  Vehicule.goal (applySelectedEdge e v) = Vehicule.goal v ∧
  Vehicule.currVertex (applySelectedEdge e v) = Vehicule.currVertex v ∧
  Vehicule.stuckCounter (applySelectedEdge e v) = Vehicule.stuckCounter v ∧
  Vehicule.currEdge (applySelectedEdge e v) = e ∧
  Vehicule.nextVertex (applySelectedEdge e v) = Edge.target e ∧
  Vehicule.edgeLength (applySelectedEdge e v) = Edge.distance e ∧
  Vehicule.positionOnEdge (applySelectedEdge e v) = 0%Q ∧
  Vehicule.previousVertex (applySelectedEdge e v) = Vehicule.currVertex v ∧
  Vehicule.recentVertices (applySelectedEdge e v) =
    (if (MAX_HISTORY <? length (Vehicule.recentVertices v ++ [Vehicule.currVertex v]))%nat
     then tail (Vehicule.recentVertices v ++ [Vehicule.currVertex v])
     else Vehicule.recentVertices v ++ [Vehicule.currVertex v]).
Proof. by repeat split. Qed.

Lemma applySelectedEdge_keeps e v :
  sameVehicleParameters v (applySelectedEdge e v) ∧
  (boundedHistory v → boundedHistory (applySelectedEdge e v)).
Proof.
  split; [by repeat split|]. unfold boundedHistory.
  destruct (applySelectedEdge_fields e v) as (_ & _ & _ & _ & _ & _ & _ & _ & _ & _ & ->).
  intros Hv.
  assert (length (Vehicule.recentVertices v ++ [Vehicule.currVertex v]) =
          S (length (Vehicule.recentVertices v))) as Hlen
    by (rewrite length_app; cbn; lia).
  destruct (Nat.ltb_spec MAX_HISTORY
              (length (Vehicule.recentVertices v ++ [Vehicule.currVertex v]))) as [Hlt|Hle];
    [|done].
  destruct (Vehicule.recentVertices v ++ [Vehicule.currVertex v]); cbn in *; lia.
Qed.

Lemma reroute_fields g v r :
  sameVehicleParameters v (reroute g v r).1 ∧
  Vehicule.edgeLength (reroute g v r).1 = 0%Q ∧
  Vehicule.recentVertices (reroute g v r).1 = [] ∧
  Vehicule.previousVertex (reroute g v r).1 = Vehicule.currVertex v ∧
  Vehicule.nextVertex (reroute g v r).1 = Vehicule.start (reroute g v r).1 ∧
  Vehicule.currEdge (reroute g v r).1 = Vehicule.currEdge v ∧
  Vehicule.currVertex (reroute g v r).1 = Vehicule.currVertex v ∧
  Vehicule.positionOnEdge (reroute g v r).1 = Vehicule.positionOnEdge v.
Proof.
  unfold reroute. destruct (3 <? _).
  - by destruct (filter _ _) as [|c cs].
  - done.
Qed.

(** The four ways [pickNextEdge] ends. *)
Lemma pickNextEdge_cases g v r :
  (∃ e c,
     (pickNextEdge g v r).1 = applySelectedEdge e (Vehicule.set_stuckCounter c v) ∧
     ((freshEdge g v e ∧ c = 0) ∨
      ((∀ e', ¬ freshEdge g v e') ∧ seenEdge g v e ∧ c = Vehicule.stuckCounter v + 1) ∨
      ((∀ e', ¬ freshEdge g v e') ∧ (∀ e', ¬ seenEdge g v e') ∧
       backtrackEdge g v e ∧ c = Vehicule.stuckCounter v + 1))) ∨
  ((∀ e, ¬ usableEdge g v e) ∧ pickNextEdge g v r = reroute g v r).
Proof.
  unfold pickNextEdge.
  destruct (classifyEdge_fold v (out_edges (Vehicule.currVertex v) g)
              (mkBuckets [] [] None)) as (Hv & Hl & Hb & Hn).
  cbn zeta in *. cbn [validEdges lessPreferredEdges backEdge] in *.
  set (b := fold_left (classifyEdge v) (out_edges (Vehicule.currVertex v) g)
              (mkBuckets [] [] None)) in *.
  assert (∀ e, e ∈ validEdges b ↔ freshEdge g v e) as Hfresh.
  { intros e. rewrite Hv. unfold freshEdge, usableEdge. split.
    - intros [H|H]; [by apply not_elem_of_nil in H | tauto].
    - intros ?. right. tauto. }
  assert (∀ e, e ∈ lessPreferredEdges b ↔ seenEdge g v e) as Hseen.
  { intros e. rewrite Hl. unfold seenEdge, usableEdge. split.
    - intros [H|H]; [by apply not_elem_of_nil in H | tauto].
    - intros ?. right. tauto. }
  clear Hv Hl.
  destruct (validEdges b) as [|e0 ve] eqn:Hve.
  - assert (∀ e', ¬ freshEdge g v e') as Hnofresh.
    { intros e' H. apply Hfresh in H. by apply not_elem_of_nil in H. }
    destruct (lessPreferredEdges b) as [|e1 lp] eqn:Hlp.
    + assert (∀ e', ¬ seenEdge g v e') as Hnoseen.
      { intros e' H. apply Hseen in H. by apply not_elem_of_nil in H. }
      destruct (backEdge b) as [e2|] eqn:Hbe.
      * left. exists e2, (Vehicule.stuckCounter v + 1). split; [done|].
        right; right. split; [done|]. split; [done|]. split; [|done].
        destruct (Hb e2 eq_refl) as [?|(? & ? & ?)]; [done|]. by repeat split.
      * right. split; [|done]. intros e [Hin Hvalid].
        destruct (Hn eq_refl) as [_ Hnoback].
        destruct (decide (Edge.target e ∈ Vehicule.recentVertices v)) as [Hrec|Hrec].
        -- apply (Hnoseen e). repeat split; auto.
        -- apply (Hnofresh e). repeat split; auto.
    + left.
      pose proof (pickRandom_elem_of e1 (e1 :: lp) r) as Hin.
      destruct (pickRandom e1 (e1 :: lp) r) as [sel r'] eqn:Hpick. cbn [fst] in *.
      exists sel, (Vehicule.stuckCounter v + 1). split; [done|].
      right; left. split; [done|]. split; [|done]. apply Hseen. by apply Hin.
  - left.
    pose proof (pickRandom_elem_of e0 (e0 :: ve) r) as Hin.
    destruct (pickRandom e0 (e0 :: ve) r) as [sel r'] eqn:Hpick. cbn [fst] in *.
    exists sel, 0. split; [done|]. left. split; [|done]. apply Hfresh. by apply Hin.
Qed.

Lemma pickNextEdge_keeps g v r :
  sameVehicleParameters v (pickNextEdge g v r).1 ∧
  (boundedHistory v → boundedHistory (pickNextEdge g v r).1).
Proof.
  destruct (pickNextEdge_cases g v r) as [(e & c & -> & _)|[_ ->]].
  - apply (applySelectedEdge_keeps e (Vehicule.set_stuckCounter c v)).
  - destruct (reroute_fields g v r) as (Hsame & _ & Hrec & _).
    split; [done|]. intros _. unfold boundedHistory. rewrite Hrec. cbn. lia.
Qed.

(** X12. [pickNextEdge] takes a usable edge out of the current vertex
    whenever there is one, and starts it at position 0 with its length and
    target; it takes a fresh edge when there is one, otherwise one into the
    history, otherwise the one back to the previous vertex; with no usable
    edge it selects none and sets the edge length to 0. *)
Theorem pickNextEdge_prefers_fresh_edges (g : RoadGraph.t) (v : Vehicule.t) (r : Rng) :
  let v' := (pickNextEdge g v r).1 in
  ((∃ e, usableEdge g v e) →
   usableEdge g v (Vehicule.currEdge v') ∧
   Vehicule.nextVertex v' = Edge.target (Vehicule.currEdge v') ∧
   Vehicule.edgeLength v' = Edge.distance (Vehicule.currEdge v') ∧
   Vehicule.positionOnEdge v' = 0%Q ∧
   Vehicule.previousVertex v' = Vehicule.currVertex v ∧
   Vehicule.currVertex v' = Vehicule.currVertex v) ∧
  ((∃ e, freshEdge g v e) →
   freshEdge g v (Vehicule.currEdge v') ∧ Vehicule.stuckCounter v' = 0) ∧
  ((∀ e, ¬ freshEdge g v e) → (∃ e, seenEdge g v e) →
   seenEdge g v (Vehicule.currEdge v') ∧
   Vehicule.stuckCounter v' = Vehicule.stuckCounter v + 1) ∧
  ((∀ e, ¬ freshEdge g v e) → (∀ e, ¬ seenEdge g v e) → (∃ e, usableEdge g v e) →
   backtrackEdge g v (Vehicule.currEdge v') ∧
   Vehicule.stuckCounter v' = Vehicule.stuckCounter v + 1) ∧
  ((∀ e, ¬ usableEdge g v e) →
   Vehicule.edgeLength v' = 0%Q ∧
   Vehicule.currEdge v' = Vehicule.currEdge v ∧
   Vehicule.positionOnEdge v' = Vehicule.positionOnEdge v ∧
   Vehicule.currVertex v' = Vehicule.currVertex v ∧
   Vehicule.previousVertex v' = Vehicule.currVertex v ∧
   Vehicule.nextVertex v' = Vehicule.start v' ∧
   Vehicule.recentVertices v' = []).
Proof.
  cbn zeta.
  destruct (pickNextEdge_cases g v r) as [(e & c & Hpick & Hcase)|[Hnone Hpick]].
  - rewrite Hpick.
    destruct (applySelectedEdge_fields e (Vehicule.set_stuckCounter c v))
      as (_ & _ & _ & Hcur & Hstuck & -> & Hnext & Hlen & Hpos & Hprev & _).
    cbn [Vehicule.set_stuckCounter Vehicule.stuckCounter Vehicule.currVertex]
      in Hcur, Hstuck, Hprev.
    assert (usableEdge g v e) as Husable
      by (destruct Hcase as [[[? _] _]|[(_ & [? _] & _)|(_ & _ & [? _] & _)]]; done).
    split; [by intros _|]. split; [|split; [|split]].
    + intros [e' He']. destruct Hcase as [[Hf ->]|[(Hno & _)|(Hno & _)]];
        [by rewrite Hstuck | by apply Hno in He' | by apply Hno in He'].
    + intros Hnofresh [e' He'].
      destruct Hcase as [[Hf _]|[(_ & Hs & ->)|(_ & Hno & _)]];
        [by apply Hnofresh in Hf | by rewrite Hstuck | by apply Hno in He'].
    + intros Hnofresh Hnoseen _.
      destruct Hcase as [[Hf _]|[(_ & Hs & _)|(_ & _ & Hb & ->)]];
        [by apply Hnofresh in Hf | by apply Hnoseen in Hs | by rewrite Hstuck].
    + intros Hno. by apply Hno in Husable.
  - rewrite Hpick.
    destruct (reroute_fields g v r) as (_ & Hlen & Hrec & Hprev & Hnext & Hedge & Hcur & Hpos).
    split; [intros [e He]; by apply Hnone in He|].
    split; [intros [e [He _]]; by apply Hnone in He|].
    split; [intros _ [e [He _]]; by apply Hnone in He|].
    split; [intros _ _ [e He]; by apply Hnone in He|].
    by intros _.
Qed.

(** ** What [update] keeps *)

Lemma sameVehicleParameters_refl v : sameVehicleParameters v v.
Proof. by repeat split. Qed.

Lemma sameVehicleParameters_trans v1 v2 v3 :
  sameVehicleParameters v1 v2 → sameVehicleParameters v2 v3 →
  sameVehicleParameters v1 v3.
Proof. intros (? & ? & ? & ? & ?) (? & ? & ? & ? & ?). repeat split; congruence. Qed.

Lemma updateHeading_keeps prev curr v :
  sameVehicleParameters v (updateHeading prev curr v) ∧
  Vehicule.recentVertices (updateHeading prev curr v) = Vehicule.recentVertices v ∧
  Vehicule.nextVertex (updateHeading prev curr v) = Vehicule.nextVertex v ∧
  Vehicule.currVertex (updateHeading prev curr v) = Vehicule.currVertex v ∧
  Vehicule.goal (updateHeading prev curr v) = Vehicule.goal v.
Proof. unfold updateHeading. by destruct (_ || _). Qed.

Lemma advance_keeps fuel g v r :
  sameVehicleParameters v (advance fuel g v r).1.2 ∧
  (boundedHistory v → boundedHistory (advance fuel g v r).1.2).
Proof.
  revert v r. induction fuel as [|fuel IH]; intros v r; rewrite advance_unfold.
  - by destruct (Qgeb _ _).
  - destruct (Qgeb _ _); [|done]. cbv zeta.
    destruct (_ =? _)%nat; [done|].
    match goal with
    | |- context [pickNextEdge g ?w r] =>
        pose proof (pickNextEdge_keeps g w r) as [Hsame Hhist];
        destruct (pickNextEdge g w r) as [v1 r1]
    end.
    cbn [fst] in Hsame, Hhist.
    destruct (IH (Vehicule.set_positionOnEdge
                    (Vehicule.positionOnEdge v - Vehicule.edgeLength v)%Q v1) r1)
      as [Hsame' Hhist'].
    split.
    + eapply sameVehicleParameters_trans; [|exact Hsame'].
      destruct Hsame as (? & ? & ? & ? & ?). by repeat split.
    + intros Hv. apply Hhist'. by apply Hhist.
Qed.

Lemma update_keeps fuel g deltaTime v r :
  sameVehicleParameters v (update fuel g deltaTime v r).1.2 ∧
  (boundedHistory v → boundedHistory (update fuel g deltaTime v r).1.2).
Proof.
  rewrite update_unfold. destruct (_ =? _)%nat; [done|].
  rewrite moveAlongEdge_unfold. cbn [fst snd].
  assert (sameVehicleParameters v (withEdgeSelected g v r).1 ∧
          (boundedHistory v → boundedHistory (withEdgeSelected g v r).1)) as [Hs1 Hh1].
  { unfold withEdgeSelected. destruct (Qleb _ _); [apply pickNextEdge_keeps | done]. }
  set (v1 := (withEdgeSelected g v r).1) in *.
  destruct (updateHeading_keeps (getPosition g v1)
              (getPosition g (advancedOnEdge deltaTime v1))
              (advancedOnEdge deltaTime v1)) as (Hs2 & Hr2 & _).
  set (v2 := updateHeading _ _ _) in *.
  destruct (advance_keeps fuel g v2 (withEdgeSelected g v r).2) as [Hs3 Hh3].
  split.
  - eapply sameVehicleParameters_trans; [exact Hs1|].
    eapply sameVehicleParameters_trans; [|exact Hs3].
    destruct Hs2 as (? & ? & ? & ? & ?). by repeat split.
  - intros Hv. apply Hh3. unfold boundedHistory. rewrite Hr2. by apply Hh1.
Qed.

(** X13. A call of [update], whether it returns or not, leaves the id, the
    transmission range, the collision distance, the speed and the smoothing
    factor of the vehicle as they were, and a history of at most
    [MAX_HISTORY] vertices stays one. *)
Theorem update_keeps_parameters_and_history (fuel : nat) (g : RoadGraph.t)
    (deltaTime : Q) (v : Vehicule.t) (r : Rng) :
  let v' := (update fuel g deltaTime v r).1.2 in
  Vehicule.id v' = Vehicule.id v ∧
  Vehicule.transmissionRange v' = Vehicule.transmissionRange v ∧
  Vehicule.collisionDist v' = Vehicule.collisionDist v ∧
  Vehicule.speed v' = Vehicule.speed v ∧
  Vehicule.headingSmoothingFactor v' = Vehicule.headingSmoothingFactor v ∧
  ((length (Vehicule.recentVertices v) ≤ MAX_HISTORY)%nat →
   (length (Vehicule.recentVertices v') ≤ MAX_HISTORY)%nat).
Proof.
  cbn zeta. destruct (update_keeps fuel g deltaTime v r) as [(? & ? & ? & ? & ?) ?].
  by repeat split.
Qed.

Lemma sameFleet_refl vehicles : sameFleet vehicles vehicles.
Proof.
  unfold sameFleet. induction vehicles as [|[v|] l IH]; constructor; try done.
  - constructor. apply sameVehicleParameters_refl.
  - constructor.
Qed.

Lemma updateVehicles_sameFleet fuel g deltaTime vehicles r :
  sameFleet vehicles (updateVehicles fuel g deltaTime vehicles r).1.2.
Proof.
  revert r. induction vehicles as [|[v|] l IH]; intros r; cbn [updateVehicles].
  - constructor.
  - pose proof (update_keeps fuel g deltaTime v r) as [Hsame _].
    destruct (update fuel g deltaTime v r) as [[[|] v'] r']; cbn [fst snd] in *.
    + specialize (IH r').
      destruct (updateVehicles fuel g deltaTime l r') as [[c l'] r'']. cbn [fst snd] in *.
      constructor; [by constructor | done].
    + constructor; [by constructor | apply sameFleet_refl].
  - specialize (IH r).
    destruct (updateVehicles fuel g deltaTime l r) as [[c l'] r']. cbn [fst snd] in *.
    constructor; [constructor | done].
Qed.

Lemma sameFleet_ids vehicles vehicles' :
  sameFleet vehicles vehicles' →
  Vehicule.id <$> presentVehicles vehicles' = Vehicule.id <$> presentVehicles vehicles.
Proof.
  induction 1 as [|p p' l l' Hp _ IH]; [done|].
  rewrite !presentVehicles_cons. destruct Hp as [v v' (Hid & _)|]; [|done].
  rewrite !fmap_cons. by rewrite IH, Hid.
Qed.

(** X14. A tick moves the vehicles but keeps the fleet: the vector has the
    same length, null pointers stay where they were, and behind every other
    position is a vehicle with the same id, range, collision distance, speed
    and smoothing factor; the ids come in the same order. *)
Theorem tick_keeps_the_fleet (fuel : nat) (getMicroAntennaId : Z → Z)
    (microNeighbors : gmap Z (gset Z)) (elapsedMs : Z) (s : Simulator) (r : Rng) :
  let vehicles' :=
    m_vehicles (tickSimulator
                  (onTick fuel getMicroAntennaId microNeighbors elapsedMs s r)) in
  length vehicles' = length (m_vehicles s) ∧
  Forall2 (option_Forall2 sameVehicleParameters) (m_vehicles s) vehicles' ∧
  Vehicule.id <$> presentVehicles vehicles' =
    Vehicule.id <$> presentVehicles (m_vehicles s).
Proof.
  cbn zeta.
  pose proof (onTick_vehicles fuel getMicroAntennaId microNeighbors elapsedMs s r) as Hv.
  pose proof (updateVehicles_sameFleet fuel (graph s) (tickDelta elapsedMs s)
                (m_vehicles s) r) as Hfleet.
  rewrite <- Hv in Hfleet. cbn [fst snd] in Hfleet.
  split; [symmetry; by eapply Forall2_length|]. split; [done|].
  by apply sameFleet_ids.
Qed.

(** ** The position on the edge *)

(** X15. [getPosition] interpolates along the current edge with a clamped
    parameter: with a positive edge length it is the source plus t times
    (target - source) in each coordinate, for a parameter t between 0 and 1,
    whatever [positionOnEdge] holds: t is the quotient of the position by
    the length when the position is on the edge, 0 for a negative position
    and 1 for a position beyond the length; without an edge length it is
    the current vertex. *)
Theorem getPosition_clamps_the_parameter (g : RoadGraph.t) (v : Vehicule.t) :
  let sd := vertexAt g (Edge.source (Vehicule.currEdge v)) in
  let td := vertexAt g (Edge.target (Vehicule.currEdge v)) in
  ((Vehicule.edgeLength v <= 0)%Q →
   getPosition g v =
   (VertexData.lat (vertexAt g (Vehicule.currVertex v)),
    VertexData.lon (vertexAt g (Vehicule.currVertex v)))) ∧
  ((0 < Vehicule.edgeLength v)%Q →
   ∃ t : Q,
     (0 <= t <= 1)%Q ∧
     ((0 <= Vehicule.positionOnEdge v <= Vehicule.edgeLength v)%Q →
      (t == Vehicule.positionOnEdge v / Vehicule.edgeLength v)%Q) ∧
     ((Vehicule.positionOnEdge v < 0)%Q → t = 0%Q) ∧
     ((Vehicule.edgeLength v < Vehicule.positionOnEdge v)%Q → t = 1%Q) ∧
     getPosition g v =
     ((VertexData.lat sd + t * (VertexData.lat td - VertexData.lat sd))%Q,
      (VertexData.lon sd + t * (VertexData.lon td - VertexData.lon sd))%Q)).
Proof.
  cbn zeta. unfold getPosition. split.
  - intros Hlen. by rewrite (proj2 (Qleb_true _ _) Hlen).
  - intros Hlen. rewrite (proj2 (Qleb_false _ _) Hlen).
    set (q := (Vehicule.positionOnEdge v / Vehicule.edgeLength v)%Q).
    set (t0 := if Qltb q 0 then 0%Q else q).
    set (t := if Qgtb t0 1 then 1%Q else t0).
    assert ((Vehicule.positionOnEdge v == q * Vehicule.edgeLength v)%Q) as Hq.
    { unfold q. field. intros H. rewrite H in Hlen. by apply Qlt_irrefl in Hlen. }
    assert ((0 <= t0)%Q ∧ ((0 <= q)%Q → t0 = q) ∧ ((q < 0)%Q → t0 = 0%Q)) as (Ht0 & Ht0q & Ht00).
    { unfold t0. destruct (Qltb q 0) eqn:Hneg.
      - apply Qltb_true in Hneg. split; [apply Qle_refl|]. split; [|done].
        intros H. exfalso. apply (Qlt_irrefl q). by eapply Qlt_le_trans.
      - apply Qltb_false in Hneg. split; [done|]. split; [done|].
        intros H. exfalso. apply (Qlt_irrefl q). by eapply Qlt_le_trans. }
    assert ((0 <= t <= 1)%Q ∧ ((t0 <= 1)%Q → t = t0) ∧ ((1 < t0)%Q → t = 1%Q))
      as (Ht & Htle & Htgt).
    { unfold t, Qgtb. destruct (Qltb 1 t0) eqn:Hbig.
      - apply Qltb_true in Hbig. split; [split; [done | apply Qle_refl]|].
        split; [|done]. intros H. exfalso. apply (Qlt_irrefl 1). by eapply Qlt_le_trans.
      - apply Qltb_false in Hbig. split; [done|]. split; [done|].
        intros H. exfalso. apply (Qlt_irrefl 1). by eapply Qlt_le_trans. }
    exists t. split; [done|]. split; [|split; [|split; [|done]]].
    + intros [Hpos Hle]. assert ((0 <= q)%Q ∧ (q <= 1)%Q) as [Hq0 Hq1].
      { split.
        - apply Qnot_lt_le. intros Hneg. nra.
        - apply Qnot_lt_le. intros Hbig. nra. }
      rewrite Htle by (by rewrite Ht0q). by rewrite Ht0q.
    + intros Hneg. assert ((q < 0)%Q) as Hq0.
      { apply Qnot_le_lt. intros Hpos. nra. }
      rewrite Htle; [by apply Ht00|]. rewrite Ht00 by done. done.
    + intros Hbig. assert ((1 < q)%Q) as Hq1.
      { apply Qnot_le_lt. intros Hle. nra. }
      apply Htgt. rewrite Ht0q; [done | lra].
Qed.

(** ** Whether [update] returns *)

Lemma hasValidOutgoingEdge_usable (g : RoadGraph.t) (u : Vertex) :
  hasValidOutgoingEdge u g = true ↔
  ∃ e, e ∈ out_edges u g ∧ isValidRoad (Edge.type e) = true.
Proof.
  unfold hasValidOutgoingEdge. rewrite existsb_exists.
  split; intros (e & He & Hv); exists e; split; try done; by apply list_elem_of_In.
Qed.

Lemma out_edges_elem_of (g : RoadGraph.t) (u : Vertex) (e : Edge.t) :
  e ∈ out_edges u g ↔ Edge.source e = u ∧ e ∈ RoadGraph.edges g.
Proof. unfold out_edges. apply (list_elem_of_filter (λ e, Edge.source e = u)). Qed.

Lemma Qgeb_true x y : Qgeb x y = true ↔ (y <= x)%Q.
Proof. apply Qleb_true. Qed.

Lemma Qgeb_false x y : Qgeb x y = false ↔ (x < y)%Q.
Proof. apply Qleb_false. Qed.

Lemma inject_Z_of_nat_S (n : nat) :
  (inject_Z (Z.of_nat (S n)) == inject_Z (Z.of_nat n) + 1)%Q.
Proof. rewrite Nat2Z.inj_succ. unfold Z.succ. by rewrite inject_Z_plus. Qed.

(** With a usable edge out of the current vertex [pickNextEdge] starts one. *)
Lemma pickNextEdge_usable g v r :
  hasValidOutgoingEdge (Vehicule.currVertex v) g = true →
  ∃ e, usableEdge g v e ∧
       Vehicule.edgeLength (pickNextEdge g v r).1 = Edge.distance e ∧
       Vehicule.nextVertex (pickNextEdge g v r).1 = Edge.target e ∧
       Vehicule.positionOnEdge (pickNextEdge g v r).1 = 0%Q ∧
       Vehicule.goal (pickNextEdge g v r).1 = Vehicule.goal v ∧
       Vehicule.currVertex (pickNextEdge g v r).1 = Vehicule.currVertex v.
Proof.
  intros (e0 & He0)%hasValidOutgoingEdge_usable.
  destruct (pickNextEdge_cases g v r) as [(e & c & -> & Hcase)|[Hnone _]].
  - exists e. split.
    + destruct Hcase as [[[? _] _]|[(_ & [? _] & _)|(_ & _ & [? _] & _)]]; done.
    + by repeat split.
  - by destruct (Hnone e0).
Qed.

Lemma advance_returns (d : Q) g fuel v r :
  (0 < d)%Q → roadsAtLeast g d → roadsContinue g →
  hasValidOutgoingEdge (Vehicule.nextVertex v) g = true →
  (Vehicule.positionOnEdge v < Vehicule.edgeLength v)%Q ∨
  (∃ f, fuel = S f ∧
        (Vehicule.positionOnEdge v - Vehicule.edgeLength v <
         inject_Z (Z.of_nat f) * d)%Q) →
  (advance fuel g v r).1.1 = Returned.
Proof.
  intros Hd Hlong Hcont. revert v r.
  induction fuel as [|fuel IH]; intros v r Hnext Hpos; rewrite advance_unfold.
  - destruct Hpos as [Hpos|(f & ? & _)]; [|done].
    by rewrite (proj2 (Qgeb_false _ _) Hpos).
  - destruct (Qgeb _ _) eqn:Hge; [|done]. apply Qgeb_true in Hge. cbv zeta.
    destruct Hpos as [Hpos|(f & [= <-] & Hpos)]; [lra|].
    destruct (_ =? _)%nat; [done|].
    match goal with
    | |- context [pickNextEdge g ?w r] =>
        destruct (pickNextEdge_usable g w r Hnext)
          as (e & [[Hsrc He]%out_edges_elem_of Hvalid] & Hlen & Hnx & _);
        destruct (pickNextEdge g w r) as [v1 r1]
    end.
    cbn [fst] in Hlen, Hnx.
    apply IH; cbn [Vehicule.set_positionOnEdge Vehicule.nextVertex
                   Vehicule.positionOnEdge Vehicule.edgeLength].
    + rewrite Hnx. by apply Hcont.
    + rewrite Hlen. pose proof (Hlong e He Hvalid) as Hde.
      destruct fuel as [|f].
      * left. change (inject_Z (Z.of_nat 0)) with 0%Q in Hpos. lra.
      * right. exists f. split; [done|]. rewrite inject_Z_of_nat_S in Hpos. lra.
Qed.

(** X16. On roads whose valid edges are at least [d > 0] long and lead to
    vertices with a valid outgoing edge, [update] returns: for a vehicle at a
    non-negative position that has a usable edge ahead, a budget of one loop
    iteration plus one for every [d] of the distance to travel is enough. *)
Theorem update_returns_on_roads_with_length (fuel : nat) (g : RoadGraph.t)
    (d deltaTime : Q) (v : Vehicule.t) (r : Rng) :
  (0 < d)%Q → roadsAtLeast g d → roadsContinue g →
  ((Vehicule.edgeLength v <= 0)%Q →
   hasValidOutgoingEdge (Vehicule.currVertex v) g = true) →
  ((0 < Vehicule.edgeLength v)%Q →
   hasValidOutgoingEdge (Vehicule.nextVertex v) g = true) →
  (0 <= Vehicule.positionOnEdge v)%Q →
  (Vehicule.positionOnEdge v + Vehicule.speed v * deltaTime <=
   inject_Z (Z.of_nat fuel) * d)%Q →
  (update (S fuel) g deltaTime v r).1.1 = Returned.
Proof.
  intros Hd Hlong Hcont Hcur Hnext Hpos Hfuel. rewrite update_unfold.
  destruct (_ =? _)%nat; [done|].
  rewrite moveAlongEdge_unfold. cbn [fst snd].
  assert (hasValidOutgoingEdge (Vehicule.nextVertex (withEdgeSelected g v r).1) g = true ∧
          (0 < Vehicule.edgeLength (withEdgeSelected g v r).1)%Q ∧
          (Vehicule.positionOnEdge (withEdgeSelected g v r).1 <=
           Vehicule.positionOnEdge v)%Q ∧
          Vehicule.speed (withEdgeSelected g v r).1 = Vehicule.speed v)
    as (Hnext1 & Hlen1 & Hpos1 & Hspeed1).
  { unfold withEdgeSelected. destruct (Qleb _ _) eqn:Hsel.
    - apply Qleb_true in Hsel.
      destruct (pickNextEdge_usable g v r (Hcur Hsel))
        as (e & [[Hsrc He]%out_edges_elem_of Hvalid] & Hlen & Hnx & Hp & _).
      destruct (pickNextEdge_keeps g v r) as [(_ & _ & _ & Hs & _) _].
      rewrite Hnx, Hlen, Hp. pose proof (Hlong e He Hvalid).
      split; [by apply Hcont|]. split; [lra|]. by split.
    - apply Qleb_false in Hsel. cbn [fst]. split; [by apply Hnext|].
      split; [done|]. split; [apply Qle_refl | done]. }
  set (v1 := (withEdgeSelected g v r).1) in *.
  destruct (updateHeading_fields (getPosition g v1)
              (getPosition g (advancedOnEdge deltaTime v1))
              (advancedOnEdge deltaTime v1)) as (Hp2 & Hl2 & _).
  destruct (updateHeading_keeps (getPosition g v1)
              (getPosition g (advancedOnEdge deltaTime v1))
              (advancedOnEdge deltaTime v1)) as (_ & _ & Hn2 & _).
  apply (advance_returns d); [done | done | done | by rewrite Hn2 |].
  right. exists fuel. split; [done|]. rewrite Hp2, Hl2.
  cbn [advancedOnEdge Vehicule.set_positionOnEdge Vehicule.positionOnEdge
       Vehicule.edgeLength]. rewrite Hspeed1. lra.
Qed.

Lemma advance_trapped g (trap : Vertex → Prop) fuel v r :
  zeroLengthTrap g (Vehicule.goal v) trap →
  trap (Vehicule.nextVertex v) →
  (Vehicule.edgeLength v <= 0)%Q → (0 <= Vehicule.positionOnEdge v)%Q →
  (advance fuel g v r).1.1 = OutOfFuel.
Proof.
  revert v r. induction fuel as [|fuel IH]; intros v r Htrap Hnext Hlen Hpos;
    rewrite advance_unfold.
  - rewrite (proj2 (Qgeb_true _ _)); [done | lra].
  - rewrite (proj2 (Qgeb_true _ _)) by lra. cbv zeta.
    destruct (Htrap _ Hnext) as (Hgoal & Husable & Hedges).
    cbn [Vehicule.set_currVertex Vehicule.set_previousVertex Vehicule.currVertex
         Vehicule.goal Vehicule.nextVertex].
    rewrite (proj2 (Nat.eqb_neq _ _) Hgoal).
    match goal with
    | |- context [pickNextEdge g ?w r] =>
        destruct (pickNextEdge_usable g w r Husable)
          as (e & [He Hvalid] & Hl & Hnx & _ & Hg & _);
        destruct (pickNextEdge g w r) as [v1 r1]
    end.
    cbn [fst Vehicule.set_currVertex Vehicule.set_previousVertex Vehicule.currVertex
         Vehicule.goal] in He, Hl, Hnx, Hg.
    destruct (Hedges e He Hvalid) as [Hzero Hin].
    apply IH; cbn [Vehicule.set_positionOnEdge Vehicule.nextVertex Vehicule.goal
                   Vehicule.positionOnEdge Vehicule.edgeLength].
    + by rewrite Hg.
    + by rewrite Hnx.
    + by rewrite Hl.
    + lra.
Qed.

(** X17. Among edges without length [update] does not return: a vehicle
    with no edge selected, on a vertex from which the valid edges have length
    0 and never lead to its goal, uses up every budget of loop iterations
    when the time step does not move it backwards. *)
Theorem update_never_returns_among_zero_length_edges (fuel : nat) (g : RoadGraph.t)
    (trap : Vertex → Prop) (deltaTime : Q) (v : Vehicule.t) (r : Rng) :
  zeroLengthTrap g (Vehicule.goal v) trap →
  trap (Vehicule.currVertex v) →
  (Vehicule.edgeLength v <= 0)%Q →
  (0 <= Vehicule.speed v * deltaTime)%Q →
  (update fuel g deltaTime v r).1.1 = OutOfFuel.
Proof.
  intros Htrap Hcur Hlen Hmove. rewrite update_unfold.
  destruct (Htrap _ Hcur) as (Hgoal & Husable & Hedges).
  rewrite (proj2 (Nat.eqb_neq _ _) Hgoal).
  rewrite moveAlongEdge_unfold. cbn [fst snd].
  unfold withEdgeSelected. rewrite (proj2 (Qleb_true _ _) Hlen).
  destruct (pickNextEdge_usable g v r Husable)
    as (e & [He Hvalid] & Hl & Hnx & Hp & Hg & _).
  destruct (pickNextEdge_keeps g v r) as [(_ & _ & _ & Hs & _) _].
  destruct (Hedges e He Hvalid) as [Hzero Hin].
  set (v1 := (pickNextEdge g v r).1) in *.
  destruct (updateHeading_fields (getPosition g v1)
              (getPosition g (advancedOnEdge deltaTime v1))
              (advancedOnEdge deltaTime v1)) as (Hp2 & Hl2 & _).
  destruct (updateHeading_keeps (getPosition g v1)
              (getPosition g (advancedOnEdge deltaTime v1))
              (advancedOnEdge deltaTime v1)) as (_ & _ & Hn2 & _ & Hg2).
  apply (advance_trapped g trap).
  - rewrite Hg2. cbn [advancedOnEdge Vehicule.set_positionOnEdge Vehicule.goal].
    by rewrite Hg.
  - rewrite Hn2. cbn [advancedOnEdge Vehicule.set_positionOnEdge Vehicule.nextVertex].
    by rewrite Hnx.
  - rewrite Hl2. cbn [advancedOnEdge Vehicule.set_positionOnEdge Vehicule.edgeLength].
    by rewrite Hl.
  - rewrite Hp2. cbn [advancedOnEdge Vehicule.set_positionOnEdge Vehicule.positionOnEdge].
    rewrite Hp, Hs. lra.
Qed.

(** ** The calculation a tick dispatches *)

Lemma takeSnapshots_ids g getMicroAntennaId vehicles :
  VehicleSnapshot.id <$> takeSnapshots g getMicroAntennaId vehicles =
  Vehicule.id <$> presentVehicles vehicles.
Proof.
  induction vehicles as [|[v|] l IH]; [done | |].
  - rewrite presentVehicles_cons, fmap_cons, <- IH. unfold takeSnapshots.
    cbn [omap list_omap mbind option_bind]. by destruct (getPosition g v).
  - by rewrite presentVehicles_cons.
Qed.

(** What a tick does about the calculation, on the vehicles it has moved. *)
Lemma onTick_task fuel getMicroAntennaId microNeighbors elapsedMs s r :
  let outcome := onTick fuel getMicroAntennaId microNeighbors elapsedMs s r in
  let snapshots :=
    takeSnapshots (graph s) getMicroAntennaId (m_vehicles (tickSimulator outcome)) in
  graph (tickSimulator outcome) = graph s ∧
  m_interferenceGraph (tickSimulator outcome) = m_interferenceGraph s ∧
  tickTask outcome =
    (if negb (m_calculationInProgress s) &&
        match tickCompletion outcome with Returned => true | OutOfFuel => false end &&
        negb (bool_decide (snapshots = []))
     then Some (mkGraphCalculation snapshots
                  (InterferenceGraph.m_computeTransitive (m_interferenceGraph s))
                  (assembleAntennaInfo snapshots microNeighbors))
     else None) ∧
  m_calculationInProgress (tickSimulator outcome) =
    m_calculationInProgress s || bool_decide (is_Some (tickTask outcome)).
Proof.
  cbn zeta. unfold onTick.
  destruct (updateVehicles fuel (graph s) (tickDelta elapsedMs s) (m_vehicles s) r)
    as [[c vs] r'].
  destruct s as [g0 interval multiplier running paused vehicles G0 busy nextId].
  unfold startGraphCalculation.
  cbn [tickSimulator tickTask tickCompletion m_vehicles withVehicles
       m_calculationInProgress graph m_interferenceGraph].
  destruct c, busy; cbn [negb andb orb tickSimulator tickTask tickCompletion m_vehicles
                         m_calculationInProgress graph m_interferenceGraph];
    try (by repeat split).
  destruct vs as [|p vs'].
  - by repeat split.
  - rewrite (bool_decide_eq_false_2 (p :: vs' = [])) by done. cbn [negb].
    destruct (takeSnapshots g0 getMicroAntennaId (p :: vs')) as [|x l] eqn:Hsn;
      cbn [tickSimulator tickTask tickCompletion m_vehicles withVehicles
           withCalculationInProgress m_calculationInProgress graph m_interferenceGraph];
      rewrite Hsn.
    + rewrite (bool_decide_eq_true_2 ([] = [])) by done. by repeat split.
    + rewrite (bool_decide_eq_false_2 (x :: l = [])) by done. by repeat split.
Qed.

(** X18. A tick starts a graph calculation only when none is in progress,
    and then marks one as in progress, so that no later tick starts another
    until [onGraphCalculationFinished]; the task carries the snapshots of the
    vehicles as the tick has just moved them, the closure flag of the
    simulator's graph and the antenna lists of those snapshots. *)
Theorem one_calculation_in_flight (fuel : nat) (getMicroAntennaId : Z → Z)
    (microNeighbors : gmap Z (gset Z)) (elapsedMs : Z) (s : Simulator) (r : Rng) :
  let outcome := onTick fuel getMicroAntennaId microNeighbors elapsedMs s r in
  (m_calculationInProgress s = true →
   tickTask outcome = None ∧ m_calculationInProgress (tickSimulator outcome) = true) ∧
  (tickTask outcome = None →
   m_calculationInProgress (tickSimulator outcome) = m_calculationInProgress s) ∧
  (∀ task, tickTask outcome = Some task →
     m_calculationInProgress s = false ∧
     m_calculationInProgress (tickSimulator outcome) = true ∧
     taskSnapshots task =
       takeSnapshots (graph s) getMicroAntennaId (m_vehicles (tickSimulator outcome)) ∧
     taskSnapshots task ≠ [] ∧
     taskComputeTransitive task =
       InterferenceGraph.m_computeTransitive (m_interferenceGraph s) ∧
     taskAntennaInfo task = assembleAntennaInfo (taskSnapshots task) microNeighbors ∧
     (∀ fuel' elapsedMs' r',
        tickTask (onTick fuel' getMicroAntennaId microNeighbors elapsedMs'
                    (tickSimulator outcome) r') = None) ∧
     (∀ result,
        m_calculationInProgress
          (onGraphCalculationFinished result (tickSimulator outcome)) = false)).
Proof.
  cbn zeta.
  destruct (onTick_task fuel getMicroAntennaId microNeighbors elapsedMs s r)
    as (Hg & HG & Htask & Hflag).
  cbn zeta in *. split; [|split].
  - intros Hbusy. rewrite Hbusy in Htask, Hflag. by rewrite Htask, Hflag.
  - intros Hnone. rewrite Hflag, Hnone.
    rewrite (bool_decide_eq_false_2 (is_Some None)) by (by intros [? ?]).
    apply orb_false_r.
  - intros task Hsome. rewrite Hsome in Htask, Hflag.
    rewrite (bool_decide_eq_true_2 (is_Some (Some task))) in Hflag by eauto.
    rewrite orb_true_r in Hflag.
    destruct (m_calculationInProgress s); [done|]. cbn [negb andb] in Htask.
    destruct (tickCompletion _); [|done]. cbn [andb] in Htask.
    case_bool_decide as Hempty; [done|]. cbn [negb] in Htask. injection Htask as ->.
    cbn [taskSnapshots taskComputeTransitive taskAntennaInfo].
    split; [done|]. split; [done|]. split; [done|]. split; [done|]. split; [done|].
    split; [done|]. split; [|done].
    intros fuel' elapsedMs' r'.
    destruct (onTick_task fuel' getMicroAntennaId microNeighbors elapsedMs'
                (tickSimulator (onTick fuel getMicroAntennaId microNeighbors elapsedMs s r))
                r') as (_ & _ & Htask' & _).
    cbn zeta in Htask'. by rewrite Htask', Hflag.
Qed.

Lemma calculateGraphAsync_closure snapshots computeTransitive info :
  InterferenceGraph.m_transitiveClosure
    (calculateGraphAsync (mkGraphCalculation snapshots computeTransitive info)) =
  match snapshots with
  | [] => ∅
  | _ :: _ =>
      if computeTransitive
      then computeTransitiveClosure (snapshotEdges snapshots (Some info)).1
      else ∅
  end.
Proof.
  unfold calculateGraphAsync. cbn [taskSnapshots taskAntennaInfo taskComputeTransitive].
  rewrite buildGraphFromSnapshots_closure. by destruct snapshots.
Qed.

(** X19. When the calculation a tick has dispatched is finished and
    published, in whatever state [later] the simulator is by then, the keys
    of the simulator's adjacency map are the ids of the non-null vehicles of
    the dispatching tick, which are the ids of the vehicles of [later] when
    those have not changed, as right after the tick; the publication leaves
    the vehicles alone, the published graph answers [canCommunicate] as the
    computed one does, and the flags and the vehicle map of the simulator's
    graph are those of [later]. *)
Theorem published_graph_covers_the_dispatching_fleet (fuel : nat)
    (getMicroAntennaId : Z → Z) (microNeighbors : gmap Z (gset Z)) (elapsedMs : Z)
    (s : Simulator) (r : Rng) (task : GraphCalculation) (later : Simulator) :
  let outcome := onTick fuel getMicroAntennaId microNeighbors elapsedMs s r in
  tickTask outcome = Some task →
  let s' := onGraphCalculationFinished (calculateGraphAsync task) later in
  dom (InterferenceGraph.m_adjacencyList (m_interferenceGraph s')) =
    list_to_set (Vehicule.id <$> presentVehicles (m_vehicles s)) ∧
  Vehicule.id <$> presentVehicles (m_vehicles (tickSimulator outcome)) =
    Vehicule.id <$> presentVehicles (m_vehicles s) ∧
  (Vehicule.id <$> presentVehicles (m_vehicles later) =
     Vehicule.id <$> presentVehicles (m_vehicles s) →
   dom (InterferenceGraph.m_adjacencyList (m_interferenceGraph s')) =
     list_to_set (Vehicule.id <$> presentVehicles (m_vehicles s'))) ∧
  m_vehicles s' = m_vehicles later ∧
  m_calculationInProgress s' = false ∧
  (∀ id1 id2,
     canCommunicate (m_interferenceGraph s') id1 id2 =
     canCommunicate (calculateGraphAsync task) id1 id2) ∧
  getDirectNeighbors (m_interferenceGraph s') =
    getDirectNeighbors (calculateGraphAsync task) ∧
  InterferenceGraph.m_computeTransitive (m_interferenceGraph s') =
    InterferenceGraph.m_computeTransitive (m_interferenceGraph later) ∧
  InterferenceGraph.m_useSpatialGrid (m_interferenceGraph s') =
    InterferenceGraph.m_useSpatialGrid (m_interferenceGraph later) ∧
  InterferenceGraph.m_gridInitialized (m_interferenceGraph s') =
    InterferenceGraph.m_gridInitialized (m_interferenceGraph later) ∧
  InterferenceGraph.m_vehicleMap (m_interferenceGraph s') =
    InterferenceGraph.m_vehicleMap (m_interferenceGraph later).
Proof.
  cbn zeta. intros Hsome.
  destruct (onTick_task fuel getMicroAntennaId microNeighbors elapsedMs s r)
    as (Hg & HG & Htask & Hflag).
  cbn zeta in *. rewrite Hsome in Htask.
  destruct (negb _ && _ && _); [|done]. injection Htask as ->.
  pose proof (updateVehicles_sameFleet fuel (graph s) (tickDelta elapsedMs s)
                (m_vehicles s) r) as Hfleet.
  rewrite <- (onTick_vehicles fuel getMicroAntennaId microNeighbors elapsedMs s r)
    in Hfleet. cbn [fst snd] in Hfleet. apply sameFleet_ids in Hfleet.
  set (s1 := tickSimulator (onTick fuel getMicroAntennaId microNeighbors elapsedMs s r))
    in *.
  unfold onGraphCalculationFinished.
  cbn [withCalculationInProgress withInterferenceGraph m_interferenceGraph m_vehicles
       m_calculationInProgress copyFrom InterferenceGraph.m_adjacencyList
       InterferenceGraph.m_computeTransitive InterferenceGraph.m_useSpatialGrid
       InterferenceGraph.m_gridInitialized InterferenceGraph.m_vehicleMap].
  assert (dom (InterferenceGraph.m_adjacencyList
                 (calculateGraphAsync
                    (mkGraphCalculation
                       (takeSnapshots (graph s) getMicroAntennaId (m_vehicles s1))
                       (InterferenceGraph.m_computeTransitive (m_interferenceGraph s))
                       (assembleAntennaInfo
                          (takeSnapshots (graph s) getMicroAntennaId (m_vehicles s1))
                          microNeighbors)))) =
          list_to_set (Vehicule.id <$> presentVehicles (m_vehicles s))) as Hkeys.
  { rewrite calculateGraphAsync_adjacency, <- Hfleet,
      <- (takeSnapshots_ids (graph s) getMicroAntennaId).
    apply set_eq. intros k. rewrite elem_of_dom, elem_of_list_to_set.
    destruct (takeSnapshots (graph s) getMicroAntennaId (m_vehicles s1)) as [|x l];
      [|apply snapshotEdges_keys].
    rewrite lookup_empty. split; [by intros [] | by intros ?%not_elem_of_nil]. }
  split; [exact Hkeys|]. split; [exact Hfleet|].
  split; [by intros -> |]. by repeat split.
Qed.

(** ** Vehicles created by the simulator *)

Lemma m_vertices_elem_of (s : Simulator) (u : Vertex) :
  u ∈ m_vertices s ↔ (u < length (RoadGraph.vertices (graph s)))%nat.
Proof. unfold m_vertices. rewrite elem_of_seq. lia. Qed.

Lemma nearer_fold g lon lat (l seen : list Vertex) (st : Vertex * option Q) :
  match st.2 with
  | None => ∀ u, u ∈ seen → placeable g u = false
  | Some m =>
      placeable g st.1 = true ∧ m = squaredDistance g lon lat st.1 ∧ st.1 ∈ seen ∧
      ∀ u, u ∈ seen → placeable g u = true → (m <= squaredDistance g lon lat u)%Q
  end →
  let final := fold_left (nearer g lon lat) l st in
  match final.2 with
  | None => final.1 = st.1 ∧ ∀ u, u ∈ seen ++ l → placeable g u = false
  | Some m =>
      placeable g final.1 = true ∧ m = squaredDistance g lon lat final.1 ∧
      final.1 ∈ seen ++ l ∧
      ∀ u, u ∈ seen ++ l → placeable g u = true → (m <= squaredDistance g lon lat u)%Q
  end.
Proof.
  revert seen st. induction l as [|x l IH]; intros seen st Hst; cbn [fold_left].
  - cbn zeta. rewrite app_nil_r. destruct st.2; [done | by split].
  - replace (seen ++ x :: l) with ((seen ++ [x]) ++ l) by (by rewrite <- app_assoc).
    assert (match (nearer g lon lat st x).2 with
            | None => (nearer g lon lat st x).1 = st.1 ∧
                      ∀ u, u ∈ seen ++ [x] → placeable g u = false
            | Some m =>
                placeable g (nearer g lon lat st x).1 = true ∧
                m = squaredDistance g lon lat (nearer g lon lat st x).1 ∧
                (nearer g lon lat st x).1 ∈ seen ++ [x] ∧
                ∀ u, u ∈ seen ++ [x] → placeable g u = true →
                     (m <= squaredDistance g lon lat u)%Q
            end) as Hstep.
    { unfold nearer. fold (placeable g x). destruct st as [n [m|]]; cbn [fst snd] in *.
      - destruct Hst as (Hn & Hm & Hin & Hmin).
        destruct (Qltb _ m) eqn:Hlt.
        + apply Qltb_true in Hlt. destruct (placeable g x) eqn:Hx; cbn [fst snd].
          * split; [done|]. split; [done|].
            split; [apply elem_of_app; right; apply list_elem_of_here|].
            intros u [Hu| ->%list_elem_of_singleton]%elem_of_app Hpu; [|apply Qle_refl].
            specialize (Hmin u Hu Hpu). lra.
          * split; [done|]. split; [done|]. split; [apply elem_of_app; by left|].
            intros u [Hu| ->%list_elem_of_singleton]%elem_of_app Hpu;
              [by apply Hmin | congruence].
        + apply Qltb_false in Hlt. cbn [fst snd].
          split; [done|]. split; [done|]. split; [apply elem_of_app; by left|].
          intros u [Hu| ->%list_elem_of_singleton]%elem_of_app Hpu;
            [by apply Hmin | done].
      - destruct (placeable g x) eqn:Hx; cbn [fst snd].
        + split; [done|]. split; [done|].
          split; [apply elem_of_app; right; apply list_elem_of_here|].
          intros u [Hu| ->%list_elem_of_singleton]%elem_of_app Hpu; [|apply Qle_refl].
          specialize (Hst u Hu). congruence.
        + split; [done|].
          intros u [Hu| ->%list_elem_of_singleton]%elem_of_app; [by apply Hst | done]. }
    destruct (nearer g lon lat st x) as [n' [m'|]] eqn:Hnear; cbn [fst snd] in Hstep.
    + pose proof (IH (seen ++ [x]) (n', Some m') Hstep) as Hfinal. cbn zeta in *.
      destruct (fold_left (nearer g lon lat) l (n', Some m')) as [n'' [m''|]];
        cbn [fst snd] in *; [done|].
      destruct Hfinal as [-> Hall]. destruct Hstep as (Hp & _ & Hin' & _).
      assert (placeable g n' = false) as Hcontra
        by (apply Hall, elem_of_app; by left).
      congruence.
    + destruct Hstep as [Hsame Hnone].
      pose proof (IH (seen ++ [x]) (n', None) Hnone) as Hfinal. cbn zeta in *.
      destruct (fold_left (nearer g lon lat) l (n', None)) as [n'' [m''|]];
        cbn [fst snd] in *; [done|].
      destruct Hfinal as [-> Hall]. by split.
Qed.

Lemma to_int_small (z : Z) : - 2 ^ 31 ≤ z < 2 ^ 31 → to_int z = z.
Proof. intros Hz. unfold to_int. rewrite Z.mod_small; lia. Qed.

Lemma createVehicleNear_cases indeterminate lon lat s r :
  (createVehicleNear indeterminate lon lat s r).1.1 = s ∨
  ∃ car,
    m_vehicles (createVehicleNear indeterminate lon lat s r).1.1 =
      m_vehicles s ++ [Some car] ∧
    m_nextVehicleId (createVehicleNear indeterminate lon lat s r).1.1 =
      to_int (m_nextVehicleId s + 1) ∧
    Vehicule.id car = m_nextVehicleId s.
Proof.
  unfold createVehicleNear. destruct (m_vertices s) as [|first rest]; [by left|].
  right. unfold pickRandom, rand. cbn [fst snd].
  destruct (retryGoal 100 (graph s) (first :: rest) _ _) as [goal1 r1].
  eexists. by repeat split.
Qed.

(** X20. [createVehicleNear] on a graph with vertices appends one vehicle
    with the id [m_nextVehicleId], which it then increments; the vehicle
    stands on a vertex that passes both placement tests and of which no
    other such vertex is nearer to the clicked point, or on vertex 0 when no
    vertex passes them.  On a graph without vertices it does nothing. *)
Theorem createVehicleNear_takes_nearest_placeable_vertex (indeterminate : Vertex)
    (lon lat : Q) (s : Simulator) (r : Rng) :
  (RoadGraph.vertices (graph s) = [] →
   createVehicleNear indeterminate lon lat s r = (s, None, r)) ∧
  (RoadGraph.vertices (graph s) ≠ [] →
   ∃ car,
     (createVehicleNear indeterminate lon lat s r).1.2 = Some car ∧
     m_vehicles (createVehicleNear indeterminate lon lat s r).1.1 =
       m_vehicles s ++ [Some car] ∧
     m_nextVehicleId (createVehicleNear indeterminate lon lat s r).1.1 =
       to_int (m_nextVehicleId s + 1) ∧
     Vehicule.id car = m_nextVehicleId s ∧
     Vehicule.currVertex car = Vehicule.start car ∧
     Vehicule.edgeLength car = 0%Q ∧
     Vehicule.speed car = 14%Q ∧ Vehicule.transmissionRange car = 500%Q ∧
     (Vehicule.start car < length (RoadGraph.vertices (graph s)))%nat ∧
     ((∃ u, (u < length (RoadGraph.vertices (graph s)))%nat ∧
            placeable (graph s) u = true) →
      placeable (graph s) (Vehicule.start car) = true ∧
      ∀ u, (u < length (RoadGraph.vertices (graph s)))%nat →
           placeable (graph s) u = true →
           (squaredDistance (graph s) lon lat (Vehicule.start car) <=
            squaredDistance (graph s) lon lat u)%Q) ∧
     ((∀ u, (u < length (RoadGraph.vertices (graph s)))%nat →
            placeable (graph s) u = false) →
      Vehicule.start car = 0%nat)).
Proof.
  unfold createVehicleNear. split.
  - intros Hempty. unfold m_vertices. by rewrite Hempty.
  - intros Hne.
    pose proof (m_vertices_elem_of s) as Hin.
    destruct (m_vertices s) as [|first rest] eqn:Hvs.
    { unfold m_vertices in Hvs. by destruct (RoadGraph.vertices (graph s)). }
    assert (first = 0%nat) as Hfirst.
    { unfold m_vertices in Hvs. destruct (RoadGraph.vertices (graph s)); [done|].
      cbn in Hvs. congruence. }
    pose proof (nearer_fold (graph s) lon lat (first :: rest) [] (first, None)) as Hfold.
    cbn zeta in Hfold. cbn [fst snd app] in Hfold.
    specialize (Hfold (λ u Hu, False_rect _ (not_elem_of_nil u Hu))).
    match goal with
    | |- context [@pickRandom ?A ?d ?l r] =>
        destruct (@pickRandom A d l r) as [goal0 r0]
    end.
    match goal with
    | |- context [retryGoal ?n ?g ?l goal0 r0] =>
        destruct (retryGoal n g l goal0 r0) as [goal1 r1]
    end.
    eexists. cbn [fst snd addVehicle withVehicles withNextVehicleId m_vehicles
                  m_nextVehicleId].
    split; [done|]. split; [done|]. split; [done|].
    cbn [newVehicule Vehicule.id Vehicule.currVertex Vehicule.start Vehicule.edgeLength
         Vehicule.speed Vehicule.transmissionRange].
    split; [done|]. split; [done|]. split; [done|]. split; [done|]. split; [done|].
    destruct (fold_left (nearer (graph s) lon lat) (first :: rest) (first, None))
      as [n [m|]]; cbn [fst snd] in *.
    + destruct Hfold as (Hn & -> & Hnin & Hmin). split; [by apply Hin|]. split.
      * intros _. split; [done|]. intros u Hu. apply Hmin. by apply Hin.
      * intros Hnone. apply Hin in Hnin. specialize (Hnone n Hnin). congruence.
    + destruct Hfold as [-> Hnone]. split; [apply Hin, list_elem_of_here|]. split.
      * intros (u & Hu & Hpu). apply Hin in Hu. specialize (Hnone u Hu). congruence.
      * done.
Qed.

Lemma redraw_unfold fuel g vertices x r :
  redraw fuel g vertices x r =
  if negb (isValidVertex x g) && negb (hasValidOutgoingEdge x g) then
    match fuel with
    | O => (OutOfFuel, x, r)
    | S fuel' =>
        redraw fuel' g vertices (pickRandom 0%nat vertices r).1
          (pickRandom 0%nat vertices r).2
    end
  else (Returned, x, r).
Proof. by destruct fuel. Qed.

Lemma redraw_returned fuel g vertices x r :
  (redraw fuel g vertices x r).1.1 = Returned →
  isValidVertex (redraw fuel g vertices x r).1.2 g ||
  hasValidOutgoingEdge (redraw fuel g vertices x r).1.2 g = true.
Proof.
  revert x r. induction fuel as [|fuel IH]; intros x r; rewrite redraw_unfold.
  - destruct (isValidVertex x g) eqn:Hv, (hasValidOutgoingEdge x g) eqn:Ho;
      cbn [negb andb fst snd]; try done; by rewrite ?Hv, ?Ho.
  - destruct (isValidVertex x g) eqn:Hv, (hasValidOutgoingEdge x g) eqn:Ho;
      cbn [negb andb fst snd]; try (intros _; by rewrite ?Hv, ?Ho).
    apply IH.
Qed.

Lemma redraw_stuck fuel g vertices x r :
  vertices ≠ [] →
  (∀ u, u ∈ vertices → isValidVertex u g || hasValidOutgoingEdge u g = false) →
  isValidVertex x g || hasValidOutgoingEdge x g = false →
  (redraw fuel g vertices x r).1.1 = OutOfFuel.
Proof.
  intros Hne Hall. revert x r.
  induction fuel as [|fuel IH]; intros x r Hx; rewrite redraw_unfold;
    apply orb_false_elim in Hx as [-> ->]; cbn [negb andb]; [done|].
  apply IH, Hall. by apply pickRandom_elem_of.
Qed.

Lemma popVehicles_spec (toRemove : nat) (vehicles : list (option Vehicule.t)) :
  Forall is_Some vehicles →
  popVehicles toRemove vehicles = Some (take (length vehicles - toRemove) vehicles).
Proof.
  revert vehicles. induction toRemove as [|n IH]; intros vehicles Hall.
  - cbn [popVehicles]. by rewrite Nat.sub_0_r, firstn_all.
  - cbn [popVehicles]. destruct vehicles as [|p l _] using rev_ind; [done|].
    rewrite last_snoc, removelast_last.
    apply Forall_app in Hall as [Hl Hp]. apply Forall_singleton in Hp as [v ->].
    rewrite IH by done. rewrite length_app. cbn [length].
    replace (length l + 1 - S n)%nat with (length l - n)%nat by lia.
    by rewrite take_app_le by lia.
Qed.

Lemma addVehicles_unfold fuel indeterminate toAdd s r :
  addVehicles fuel indeterminate (S toAdd) s r =
  match m_vertices s with
  | [] => (Returned, s, r)
  | first :: _ =>
      let p1 := pickRandom first (m_vertices s) r in
      let p2 := pickRandom first (m_vertices s) p1.2 in
      let d1 := redraw fuel (graph s) (m_vertices s) p1.1 p2.2 in
      match d1.1.1 with
      | OutOfFuel => (OutOfFuel, s, d1.2)
      | Returned =>
          let d2 := redraw fuel (graph s) (m_vertices s) p2.1 d1.2 in
          match d2.1.1 with
          | OutOfFuel => (OutOfFuel, s, d2.2)
          | Returned =>
              addVehicles fuel indeterminate toAdd
                (addVehicle
                   (Some (newVehicule (m_nextVehicleId s) d1.1.2 d2.1.2 14 500 5
                            indeterminate indeterminate))
                   (withNextVehicleId (to_int (m_nextVehicleId s + 1)) s))
                d2.2
          end
      end
  end.
Proof.
  cbn [addVehicles]. destruct (m_vertices s) as [|first rest]; [done|].
  cbv zeta. unfold pickRandom, rand. cbn [fst snd].
  destruct (redraw fuel (graph s) (first :: rest) _ _) as [[[|] start] r2];
    cbn [fst snd]; [|done].
  by destruct (redraw fuel (graph s) (first :: rest) _ _) as [[[|] goal] r3].
Qed.

(** What the loop that adds vehicles leaves behind. *)
Lemma addVehicles_spec fuel indeterminate toAdd s r :
  - 2 ^ 31 ≤ m_nextVehicleId s →
  m_nextVehicleId s + Z.of_nat toAdd < 2 ^ 31 →
  ∃ new : list Vehicule.t,
    m_vehicles (addVehicles fuel indeterminate toAdd s r).1.2 =
      m_vehicles s ++ (Some <$> new) ∧
    m_nextVehicleId (addVehicles fuel indeterminate toAdd s r).1.2 =
      m_nextVehicleId s + Z.of_nat (length new) ∧
    (length new ≤ toAdd)%nat ∧
    (∀ k c, new !! k = Some c →
       Vehicule.id c = m_nextVehicleId s + Z.of_nat k ∧
       Vehicule.currVertex c = Vehicule.start c ∧
       Vehicule.edgeLength c = 0%Q ∧
       Vehicule.speed c = 14%Q ∧ Vehicule.transmissionRange c = 500%Q ∧
       isValidVertex (Vehicule.start c) (graph s) ||
         hasValidOutgoingEdge (Vehicule.start c) (graph s) = true ∧
       isValidVertex (Vehicule.goal c) (graph s) ||
         hasValidOutgoingEdge (Vehicule.goal c) (graph s) = true) ∧
    ((addVehicles fuel indeterminate toAdd s r).1.1 = Returned →
     RoadGraph.vertices (graph s) ≠ [] → length new = toAdd) ∧
    (RoadGraph.vertices (graph s) = [] →
     new = [] ∧ (addVehicles fuel indeterminate toAdd s r).1.1 = Returned).
Proof.
  revert s r. induction toAdd as [|n IH]; intros s r Hlow Hhigh.
  - exists []. cbn [addVehicles fst snd fmap list_fmap length]. rewrite app_nil_r.
    split; [done|]. split; [lia|]. split; [done|].
    split; [intros k c Hk; by rewrite lookup_nil in Hk|]. by split.
  - rewrite addVehicles_unfold.
    destruct (m_vertices s) as [|first rest] eqn:Hvs.
    { exists []. cbn [fst snd fmap list_fmap length]. rewrite app_nil_r.
      split; [done|]. split; [lia|]. split; [lia|].
      split; [intros k c Hk; by rewrite lookup_nil in Hk|].
      split; [|done]. intros _ Hne. unfold m_vertices in Hvs.
      by destruct (RoadGraph.vertices (graph s)). }
    assert (RoadGraph.vertices (graph s) ≠ []) as Hne.
    { intros Hempty. unfold m_vertices in Hvs. by rewrite Hempty in Hvs. }
    cbv zeta.
    set (p1 := pickRandom first (first :: rest) r).
    set (p2 := pickRandom first (first :: rest) p1.2).
    pose proof (redraw_returned fuel (graph s) (first :: rest) p1.1 p2.2) as Hstart.
    destruct (redraw fuel (graph s) (first :: rest) p1.1 p2.2) as [[[|] start] r2];
      cbn [fst snd] in *.
    + pose proof (redraw_returned fuel (graph s) (first :: rest) p2.1 r2) as Hgoal.
      destruct (redraw fuel (graph s) (first :: rest) p2.1 r2) as [[[|] goal] r3];
        cbn [fst snd] in *.
      * set (car := newVehicule (m_nextVehicleId s) start goal 14 500 5
                      indeterminate indeterminate).
        set (s1 := addVehicle (Some car)
                     (withNextVehicleId (to_int (m_nextVehicleId s + 1)) s)).
        assert (m_nextVehicleId s1 = m_nextVehicleId s + 1) as Hnext1
          by (cbn; apply to_int_small; lia).
        destruct (IH s1 r3) as (new & Hv & Hn & Hlen & Hnew & Hret & _);
          [lia | lia |].
        exists (car :: new). rewrite Hv, Hn, Hnext1.
        cbn [s1 addVehicle withVehicles withNextVehicleId m_vehicles fmap list_fmap
             length graph] in *.
        split; [by rewrite <- app_assoc|]. split; [lia|]. split; [lia|]. split; [|split].
        -- intros [|k] c Hk.
           ++ injection Hk as <-. split; [cbn; lia|]. by repeat split; auto.
           ++ destruct (Hnew k c Hk) as (Hid & Hrest). split; [lia | done].
        -- intros Hdone _. by rewrite Hret.
        -- done.
      * exists []. cbn [fst snd fmap list_fmap length]. rewrite app_nil_r.
        split; [done|]. split; [lia|]. split; [lia|].
        split; [intros k c Hk; by rewrite lookup_nil in Hk|]. by split.
    + exists []. cbn [fst snd fmap list_fmap length]. rewrite app_nil_r.
      split; [done|]. split; [lia|]. split; [lia|].
      split; [intros k c Hk; by rewrite lookup_nil in Hk|]. by split.
Qed.

(** X21. [setVehicleCount] with the current count changes nothing; with a
    smaller count it keeps the first [count] vehicles (none for a count of 0
    or less) and removes the others from the back, without drawing a random
    number and without touching [m_nextVehicleId]. *)
Theorem setVehicleCount_keeps_a_prefix (fuel : nat) (indeterminate : Vertex)
    (count : Z) (s : Simulator) (r : Rng) :
  Forall is_Some (m_vehicles s) →
  Z.of_nat (length (m_vehicles s)) < 2 ^ 31 →
  count ≤ Z.of_nat (length (m_vehicles s)) →
  Z.of_nat (length (m_vehicles s)) - count < 2 ^ 31 →
  setVehicleCount fuel indeterminate count s r =
  Some (Returned,
        (if count =? Z.of_nat (length (m_vehicles s)) then s
         else withVehicles (take (Z.to_nat count) (m_vehicles s)) s),
        r).
Proof.
  intros Hall Hlen Hcount Hdiff. unfold setVehicleCount.
  rewrite (to_int_small (Z.of_nat (length (m_vehicles s)))) by lia.
  destruct (Z.eqb_spec count (Z.of_nat (length (m_vehicles s)))) as [Heq|Hne]; [done|].
  rewrite (proj2 (Z.ltb_lt _ _)) by lia.
  rewrite to_int_small by lia. rewrite popVehicles_spec by done.
  cbn [mbind option_bind].
  replace (length (m_vehicles s) - Z.to_nat (Z.of_nat (length (m_vehicles s)) - count))%nat
    with (Z.to_nat count) by lia.
  done.
Qed.

(** X22. [setVehicleCount] with a larger count only appends vehicles: the
    new ones take the ids [m_nextVehicleId], [m_nextVehicleId + 1], ... in
    order, stand on their start vertex with no edge selected, at speed 14 and
    range 500, and their start and goal pass at least one of the two vertex
    tests; when the call returns on a graph with vertices the vector has
    [count] vehicles, and on a graph without vertices nothing is added. *)
Theorem setVehicleCount_appends_fresh_vehicles (fuel : nat) (indeterminate : Vertex)
    (count : Z) (s : Simulator) (r : Rng) :
  Z.of_nat (length (m_vehicles s)) < count < 2 ^ 31 →
  - 2 ^ 31 ≤ m_nextVehicleId s →
  m_nextVehicleId s + (count - Z.of_nat (length (m_vehicles s))) < 2 ^ 31 →
  ∃ c s' r' (new : list Vehicule.t),
    setVehicleCount fuel indeterminate count s r = Some (c, s', r') ∧
    m_vehicles s' = m_vehicles s ++ (Some <$> new) ∧
    m_nextVehicleId s' = m_nextVehicleId s + Z.of_nat (length new) ∧
    (∀ k car, new !! k = Some car →
       Vehicule.id car = m_nextVehicleId s + Z.of_nat k ∧
       Vehicule.currVertex car = Vehicule.start car ∧
       Vehicule.edgeLength car = 0%Q ∧
       Vehicule.speed car = 14%Q ∧ Vehicule.transmissionRange car = 500%Q ∧
       isValidVertex (Vehicule.start car) (graph s) ||
         hasValidOutgoingEdge (Vehicule.start car) (graph s) = true ∧
       isValidVertex (Vehicule.goal car) (graph s) ||
         hasValidOutgoingEdge (Vehicule.goal car) (graph s) = true) ∧
    (c = Returned → RoadGraph.vertices (graph s) ≠ [] →
     Z.of_nat (length (m_vehicles s')) = count) ∧
    (RoadGraph.vertices (graph s) = [] → c = Returned ∧ m_vehicles s' = m_vehicles s).
Proof.
  intros [Hgrow Hcount] Hlow Hhigh. unfold setVehicleCount.
  rewrite (to_int_small (Z.of_nat (length (m_vehicles s)))) by lia.
  rewrite (proj2 (Z.eqb_neq _ _)) by lia. rewrite (proj2 (Z.ltb_ge _ _)) by lia.
  rewrite to_int_small by lia.
  set (toAdd := Z.to_nat (count - Z.of_nat (length (m_vehicles s)))).
  destruct (addVehicles_spec fuel indeterminate toAdd s r)
    as (new & Hv & Hn & Hlen & Hnew & Hret & Hnone); [lia | lia |].
  destruct (addVehicles fuel indeterminate toAdd s r) as [[c s'] r'].
  cbn [fst snd] in *. exists c, s', r', new.
  split; [done|]. split; [done|]. split; [done|]. split; [done|]. split.
  - intros Hc Hne. rewrite Hv, length_app, length_fmap, (Hret Hc Hne). lia.
  - intros Hempty. destruct (Hnone Hempty) as [-> ->].
    split; [done|]. by rewrite Hv, app_nil_r.
Qed.

Lemma popVehicles_prefix (toRemove : nat) (vehicles vehicles' : list (option Vehicule.t)) :
  popVehicles toRemove vehicles = Some vehicles' →
  ∃ k, vehicles' = take k vehicles.
Proof.
  revert vehicles. induction toRemove as [|n IH]; intros vehicles; cbn [popVehicles].
  - intros [= <-]. exists (length vehicles). by rewrite firstn_all.
  - destruct vehicles as [|p l _] using rev_ind.
    + intros [= <-]. by exists 0%nat.
    + rewrite last_snoc, removelast_last. destruct p as [v|]; [|done].
      intros [k ->]%IH. exists (k `min` length l)%nat.
      rewrite take_app_le by lia.
      destruct (Nat.le_gt_cases k (length l)) as [Hle|Hgt].
      * by rewrite Nat.min_l.
      * rewrite Nat.min_r by lia. by rewrite !take_ge by lia.
Qed.

Lemma presentVehicles_app l1 l2 :
  presentVehicles (l1 ++ l2) = presentVehicles l1 ++ presentVehicles l2.
Proof.
  induction l1 as [|p l1 IH]; [done|].
  rewrite <- app_comm_cons, !presentVehicles_cons, IH. by destruct p.
Qed.

Lemma presentVehicles_Some (new : list Vehicule.t) : presentVehicles (Some <$> new) = new.
Proof.
  induction new as [|c new IH]; [done|].
  by rewrite fmap_cons, presentVehicles_cons, IH.
Qed.

Lemma freshIds_take k s :
  freshIds s → freshIds (withVehicles (take k (m_vehicles s)) s).
Proof.
  intros [Hnd Hbelow]. split; cbn [withVehicles m_vehicles m_nextVehicleId].
  - rewrite <- (take_drop k (m_vehicles s)), presentVehicles_app, fmap_app in Hnd.
    by apply NoDup_app in Hnd as [? _].
  - intros v (i & Hi & _)%elem_of_take. apply Hbelow, list_elem_of_lookup. eauto.
Qed.

Lemma freshIds_append (new : list Vehicule.t) s s' :
  freshIds s →
  m_vehicles s' = m_vehicles s ++ (Some <$> new) →
  m_nextVehicleId s' = m_nextVehicleId s + Z.of_nat (length new) →
  (∀ k car, new !! k = Some car → Vehicule.id car = m_nextVehicleId s + Z.of_nat k) →
  freshIds s'.
Proof.
  intros [Hnd Hbelow] Hv Hn Hids. split.
  - rewrite Hv, presentVehicles_app, presentVehicles_Some, fmap_app.
    apply NoDup_app. split; [done|]. split.
    + intros i (v & -> & Hin%elem_of_presentVehicles)%list_elem_of_fmap
        (c & Hic & (k & Hk)%list_elem_of_lookup)%list_elem_of_fmap.
      specialize (Hbelow v Hin). rewrite (Hids k c Hk) in Hic. lia.
    + apply NoDup_alt. intros i j x Hi Hj. rewrite list_lookup_fmap in Hi, Hj.
      destruct (new !! i) as [ci|] eqn:Hci; [|done].
      destruct (new !! j) as [cj|] eqn:Hcj; [|done].
      cbn in Hi, Hj. injection Hi as <-. injection Hj as Heq.
      rewrite (Hids i ci Hci), (Hids j cj Hcj) in Heq. lia.
  - intros v. rewrite Hv, Hn, elem_of_app. intros [Hin|Hin].
    + specialize (Hbelow v Hin). lia.
    + apply list_elem_of_fmap in Hin as (c & [= ->] & (k & Hk)%list_elem_of_lookup).
      rewrite (Hids k c Hk). apply lookup_lt_Some in Hk. lia.
Qed.

(** X23. The vehicles the simulator creates never repeat an id: when the
    ids of the vehicles are distinct and below [m_nextVehicleId], they still
    are after [createVehicleNear] and after [setVehicleCount], whether it
    adds or removes vehicles and whether it returns or not. *)
Theorem created_vehicles_have_distinct_ids :
  (∀ indeterminate lon lat s r,
     freshIds s →
     - 2 ^ 31 ≤ m_nextVehicleId s → m_nextVehicleId s + 1 < 2 ^ 31 →
     freshIds (createVehicleNear indeterminate lon lat s r).1.1) ∧
  (∀ fuel indeterminate count s r c s' r',
     freshIds s →
     Z.of_nat (length (m_vehicles s)) < 2 ^ 31 → - 2 ^ 31 ≤ count < 2 ^ 31 →
     - 2 ^ 31 ≤ m_nextVehicleId s →
     m_nextVehicleId s + (count - Z.of_nat (length (m_vehicles s))) < 2 ^ 31 →
     setVehicleCount fuel indeterminate count s r = Some (c, s', r') →
     freshIds s').
Proof.
  split.
  - intros indeterminate lon lat s r Hfresh Hlow Hhigh.
    destruct (createVehicleNear_cases indeterminate lon lat s r)
      as [->|(car & Hv & Hn & Hid)]; [done|].
    apply (freshIds_append [car] s); [done | done | |].
    + rewrite Hn, to_int_small by lia. cbn. lia.
    + intros [|k] c Hk; [|done]. injection Hk as <-. rewrite Hid. lia.
  - intros fuel indeterminate count s r c s' r' Hfresh Hlen Hcount Hlow Hhigh.
    unfold setVehicleCount.
    rewrite (to_int_small (Z.of_nat (length (m_vehicles s)))) by lia.
    destruct (Z.eqb_spec count (Z.of_nat (length (m_vehicles s)))) as [Heq|Hne].
    { by intros [= _ <- _]. }
    destruct (Z.ltb_spec count (Z.of_nat (length (m_vehicles s)))) as [Hlt|Hge].
    + destruct (popVehicles _ _) as [vehicles'|] eqn:Hpop; [|done].
      cbn [mbind option_bind]. intros [= _ <- _].
      apply popVehicles_prefix in Hpop as [k ->]. by apply freshIds_take.
    + rewrite to_int_small by lia.
      set (toAdd := Z.to_nat (count - Z.of_nat (length (m_vehicles s)))).
      destruct (addVehicles_spec fuel indeterminate toAdd s r)
        as (new & Hv & Hn & _ & Hnew & _); [lia | lia |].
      intros [= Hout]. rewrite Hout in Hv, Hn. cbn [fst snd] in Hv, Hn.
      apply (freshIds_append new s); [done | done | done |].
      intros k car Hk. by destruct (Hnew k car Hk).
Qed.

Lemma maxVehicleId_fold (vehicles : list (option Vehicule.t)) (acc : option Z) (m : Z) :
  fold_left (λ maxId p, a ← maxId; v ← p; Some (Z.max a (Vehicule.id v))) vehicles acc
    = Some m →
  ∃ a, acc = Some a ∧ a ≤ m ∧ Forall is_Some vehicles ∧
       ∀ v, Some v ∈ vehicles → Vehicule.id v ≤ m.
Proof.
  revert acc. induction vehicles as [|p l IH]; intros acc; cbn [fold_left].
  - intros ->. exists m. split; [done|]. split; [lia|]. split; [constructor|].
    intros v Hv. by apply not_elem_of_nil in Hv.
  - intros (a' & Hacc & Ha' & Hall & Hmax)%IH.
    destruct acc as [a|]; [|done]. destruct p as [v|]; [|done].
    cbn [mbind option_bind] in Hacc. injection Hacc as <-.
    exists a. split; [done|]. split; [lia|]. split; [constructor; eauto|].
    intros w [[= ->]|Hw]%elem_of_cons; [lia | by apply Hmax].
Qed.

Lemma maxVehicleId_None (vehicles : list (option Vehicule.t)) (acc : option Z) :
  fold_left (λ maxId p, a ← maxId; v ← p; Some (Z.max a (Vehicule.id v))) vehicles acc
    = None ↔
  acc = None ∨ None ∈ vehicles.
Proof.
  revert acc. induction vehicles as [|p l IH]; intros acc; cbn [fold_left].
  - split; [by left|]. intros [?|H]; [done | by apply not_elem_of_nil in H].
  - rewrite IH, elem_of_cons.
    destruct acc as [a|], p as [v|]; cbn [mbind option_bind].
    + split; [intros [?|?]; [done | by right; right]|].
      intros [?|[?|?]]; [done | done | by right].
    + split; [intros _; right; by left | intros _; by left].
    + split; intros _; by left.
    + split; intros _; by left.
Qed.

Lemma maxVehicleId_None_acc (vehicles : list (option Vehicule.t)) (m : Z) :
  fold_left (λ maxId p, a ← maxId; v ← p; Some (Z.max a (Vehicule.id v))) vehicles None
    = Some m → False.
Proof. induction vehicles as [|p l IH]; cbn [fold_left]; [done | exact IH]. Qed.

Lemma maxVehicleId_witness (vehicles : list (option Vehicule.t)) (m : Z) :
  maxVehicleId vehicles = Some m →
  m = 0 ∨ ∃ v, Some v ∈ vehicles ∧ Vehicule.id v = m.
Proof.
  unfold maxVehicleId.
  assert (∀ acc a,
            fold_left (λ maxId p, a ← maxId; v ← p; Some (Z.max a (Vehicule.id v)))
              vehicles acc = Some m →
            acc = Some a → m = a ∨ ∃ v, Some v ∈ vehicles ∧ Vehicule.id v = m) as Hgen.
  { induction vehicles as [|p l IH]; intros acc a; cbn [fold_left].
    - intros -> [= ->]. by left.
    - intros Hfold ->. destruct p as [v|]; cbn [mbind option_bind] in Hfold.
      + destruct (IH _ _ Hfold eq_refl) as [->|(w & Hw & Hid)].
        * destruct (Z.max_spec a (Vehicule.id v)) as [[_ ->]|[_ ->]]; [|by left].
          right. exists v. split; [apply list_elem_of_here | done].
        * right. exists w. split; [by apply list_elem_of_further | done].
      + apply maxVehicleId_None_acc in Hfold. done. }
  intros Hm. by apply (Hgen (Some 0) 0).
Qed.

Lemma initializeSpatialGrid_cases G vehicles numMacro numMicro :
  ((initializeSpatialGrid G vehicles numMacro numMicro).1 = G ∧
   (initializeSpatialGrid G vehicles numMacro numMicro).2 = None) ∨
  (InterferenceGraph.m_useSpatialGrid G = true ∧ (20 ≤ length vehicles)%nat ∧
   InterferenceGraph.m_gridInitialized G = false ∧
   (initializeSpatialGrid G vehicles numMacro numMicro).1 = setGridInitialized true G ∧
   (initializeSpatialGrid G vehicles numMacro numMicro).2 =
     Some (mkGridInitialization (firstVehicleRange vehicles)
             (if numMacro =? 0
              then if (2000 <? length vehicles)%nat then 30
                   else if (500 <? length vehicles)%nat then 20 else 10
              else numMacro)
             (if numMicro =? 0
              then if (2000 <? length vehicles)%nat then 20
                   else if (500 <? length vehicles)%nat then 15 else 10
              else numMicro))).
Proof.
  unfold initializeSpatialGrid.
  destruct (InterferenceGraph.m_useSpatialGrid G); cbn [negb orb]; [|by left].
  destruct (Nat.ltb_spec (length vehicles) 20); [by left|].
  destruct (InterferenceGraph.m_gridInitialized G); [by left|].
  right. split; [done|]. split; [done|]. split; [done|]. split; [done|].
  cbn [snd]. by destruct (numMacro =? 0), (numMicro =? 0),
    (2000 <? length vehicles)%nat, (500 <? length vehicles)%nat.
Qed.

(** X24. [start] sets the simulation running with the given interval and
    leaves the vehicles alone; with vehicles it sets [m_nextVehicleId] to
    maxId + 1, where maxId is the largest id of a vehicle, or 0 when no id is
    positive, so that every id is below it and vehicles with distinct ids
    make the ids fresh, and it asks for a grid of 5 by 20 antennas, if for
    any; without vehicles it keeps [m_nextVehicleId].  It reads the id
    behind every pointer: with a null pointer in the vector it has no
    defined outcome. *)
Theorem start_sets_next_id_after_largest (tickIntervalMs : Z) (s : Simulator) :
  (start tickIntervalMs s = None ↔ None ∈ m_vehicles s) ∧
  (∀ s' init, start tickIntervalMs s = Some (s', init) →
     m_vehicles s' = m_vehicles s ∧
     isRunning s' = true ∧ m_tickIntervalMs s' = tickIntervalMs ∧
     (m_vehicles s = [] → m_nextVehicleId s' = m_nextVehicleId s ∧ init = None) ∧
     (∀ grid, init = Some grid →
        grid = mkGridInitialization (firstVehicleRange (m_vehicles s)) 5 20) ∧
     (m_vehicles s ≠ [] →
      (∀ v, Some v ∈ m_vehicles s → Vehicule.id v < 2 ^ 31 - 1) →
      ∃ maxId,
        m_nextVehicleId s' = maxId + 1 ∧
        0 ≤ maxId ∧
        (∀ v, Some v ∈ m_vehicles s → Vehicule.id v ≤ maxId) ∧
        (maxId = 0 ∨ ∃ v, Some v ∈ m_vehicles s ∧ Vehicule.id v = maxId) ∧
        (∀ v, Some v ∈ m_vehicles s' → Vehicule.id v < m_nextVehicleId s') ∧
        (NoDup (Vehicule.id <$> presentVehicles (m_vehicles s)) → freshIds s'))).
Proof.
  unfold start. cbn [m_vehicles m_interferenceGraph]. split.
  - destruct (m_vehicles s) as [|p l] eqn:Hvs.
    + split; [done | by intros ?%not_elem_of_nil].
    + unfold maxVehicleId.
      destruct (fold_left _ (p :: l) (Some 0)) as [m|] eqn:Hmax.
      * cbn [mbind option_bind].
        apply maxVehicleId_fold in Hmax as (a & _ & _ & Hall & _).
        destruct (initializeSpatialGrid _ _ _ _) as [G init].
        split; [done|]. intros Hnull.
        by apply (Forall_forall (λ p, is_Some p) (p :: l)) in Hnull as [? ?].
      * split; [|done]. intros _.
        apply maxVehicleId_None in Hmax as [?|?]; done.
  - intros s' init. destruct (m_vehicles s) as [|p l] eqn:Hvs.
    + intros [= <- <-]. cbn [m_vehicles m_nextVehicleId m_tickIntervalMs].
      split; [done|]. split; [done|]. split; [done|]. split; [done|]. split; [done|].
      done.
    + unfold maxVehicleId.
      destruct (fold_left _ (p :: l) (Some 0)) as [m|] eqn:Hmax; [|done].
      cbn [mbind option_bind].
      pose proof (maxVehicleId_witness (p :: l) m Hmax) as Hwit.
      apply maxVehicleId_fold in Hmax as (a & [= <-] & Ha & Hall & Hmax).
      cbn [withNextVehicleId m_interferenceGraph m_vehicles].
      pose proof (initializeSpatialGrid_cases (m_interferenceGraph s) (p :: l) 5 20)
        as Hgrid.
      destruct (initializeSpatialGrid _ _ _ _) as [G grid]. cbn [fst snd] in Hgrid.
      intros [= <- <-].
      cbn [withInterferenceGraph withNextVehicleId m_vehicles m_nextVehicleId
           m_tickIntervalMs isRunning m_running m_paused].
      split; [done|]. split; [done|]. split; [done|]. split; [done|]. split.
      * intros grid' ->. destruct Hgrid as [[_ Hnone]|(_ & _ & _ & _ & Hsome)]; [done|].
        cbn [Z.eqb Pos.eqb] in Hsome. by injection Hsome as ->.
      * intros _ Hids.
        assert (m < 2 ^ 31 - 1) as Hm.
        { destruct Hwit as [->|(v & Hv & <-)]; [lia | by apply Hids]. }
        rewrite to_int_small by lia.
        assert (∀ v, Some v ∈ p :: l → Vehicule.id v < m + 1) as Hbelow.
        { intros v Hv. specialize (Hmax v Hv). lia. }
        exists m. split; [done|]. split; [lia|]. split; [done|]. split; [done|].
        split; [done|]. intros Hnd. by split.
Qed.

(** X25. On a graph that has vertices but none that passes a vertex test,
    [setVehicleCount] with a larger count does not return: the loop that
    draws the start vertex again uses up every budget, and no vehicle is
    added. *)
Theorem setVehicleCount_never_returns_without_valid_roads (fuel : nat)
    (indeterminate : Vertex) (count : Z) (s : Simulator) (r : Rng) :
  RoadGraph.vertices (graph s) ≠ [] →
  (∀ u, (u < length (RoadGraph.vertices (graph s)))%nat →
        isValidVertex u (graph s) = false ∧ hasValidOutgoingEdge u (graph s) = false) →
  Z.of_nat (length (m_vehicles s)) < count < 2 ^ 31 →
  ∃ r', setVehicleCount fuel indeterminate count s r = Some (OutOfFuel, s, r').
Proof.
  intros Hne Hinvalid [Hgrow Hcount]. unfold setVehicleCount.
  rewrite (to_int_small (Z.of_nat (length (m_vehicles s)))) by lia.
  rewrite (proj2 (Z.eqb_neq _ _)) by lia. rewrite (proj2 (Z.ltb_ge _ _)) by lia.
  rewrite to_int_small by lia.
  destruct (Z.to_nat (count - Z.of_nat (length (m_vehicles s)))) as [|n] eqn:Hn; [lia|].
  rewrite addVehicles_unfold.
  pose proof (m_vertices_elem_of s) as Hin.
  destruct (m_vertices s) as [|first rest] eqn:Hvs.
  { unfold m_vertices in Hvs. by destruct (RoadGraph.vertices (graph s)). }
  cbv zeta.
  assert (∀ u, u ∈ first :: rest →
             isValidVertex u (graph s) || hasValidOutgoingEdge u (graph s) = false)
    as Hall.
  { intros u Hu%Hin. by destruct (Hinvalid u Hu) as [-> ->]. }
  set (p1 := pickRandom first (first :: rest) r).
  set (p2 := pickRandom first (first :: rest) p1.2).
  rewrite (redraw_stuck fuel (graph s) (first :: rest) p1.1 p2.2);
    [by eexists | done | done |].
  by apply Hall, pickRandom_elem_of.
Qed.

(** ** The graph and its accessors *)

(** X26. [getReachableVehicles] and [canCommunicate] agree on every graph,
    and a vehicle unknown to a map has the empty set there; on a graph built
    with the closure enabled the direct neighbours of a vehicle, itself
    excepted, are among the vehicles it reaches. *)
Theorem accessors_agree (G : InterferenceGraph.t) (id1 id2 : Z) :
  (id2 ∈ getReachableVehicles G id1 ↔ canCommunicate G id1 id2 = true) ∧
  (id2 ∈ getDirectNeighbors G id1 ↔
   adjacent (InterferenceGraph.m_adjacencyList G) id1 id2) ∧
  (InterferenceGraph.m_transitiveClosure G !! id1 = None →
   getReachableVehicles G id1 = ∅) ∧
  (InterferenceGraph.m_adjacencyList G !! id1 = None → getDirectNeighbors G id1 = ∅) ∧
  (builtWithClosure G →
   getDirectNeighbors G id1 ∖ {[id1]} ⊆ getReachableVehicles G id1 ∧
   id1 ∉ getReachableVehicles G id1).
Proof.
  assert (∀ j, j ∈ getReachableVehicles G id1 ↔ canCommunicate G id1 j = true) as Hreach.
  { intros j. unfold getReachableVehicles, canCommunicate.
    destruct (InterferenceGraph.m_transitiveClosure G !! id1) as [reachable|];
      cbn [default].
    - by rewrite bool_decide_eq_true.
    - split; [by intros ?%not_elem_of_empty | done]. }
  assert (∀ j, j ∈ getDirectNeighbors G id1 ↔
               adjacent (InterferenceGraph.m_adjacencyList G) id1 j) as Hdirect.
  { intros j. unfold getDirectNeighbors, adjacent.
    destruct (InterferenceGraph.m_adjacencyList G !! id1) as [neighbours|];
      cbn [default].
    - split; [by eexists | by intros (? & [= <-] & ?)].
    - split; [by intros ?%not_elem_of_empty | by intros (? & ? & _)]. }
  split; [done|]. split; [done|].
  split; [unfold getReachableVehicles; by intros ->|].
  split; [unfold getDirectNeighbors; by intros ->|].
  intros [Hcl _]%builtWithClosure_spec. split.
  - intros j [Hj Hne]%elem_of_difference. apply Hreach.
    apply (canCommunicate_spec G); [done|].
    split; [by intros ->; apply Hne, elem_of_singleton | by apply tc_once, Hdirect].
  - rewrite Hreach. apply not_true_iff_false.
    apply not_true_iff_false. rewrite (canCommunicate_spec G) by done. by intros [? _].
Qed.

(** X27. [initializeSpatialGrid] initialises the grid only when the grid is
    enabled, not yet initialised and there are at least 20 vehicles; it then
    marks it initialised, so that a second call does nothing, and it never
    hands the grid a count of 0: a count of 0 is replaced by the default for
    the size of the fleet.  The adjacency and the closure are not touched. *)
Theorem initializeSpatialGrid_runs_once (G : InterferenceGraph.t)
    (vehicles : list (option Vehicule.t)) (numMacro numMicro : Z) :
  let G' := (initializeSpatialGrid G vehicles numMacro numMicro).1 in
  let init := (initializeSpatialGrid G vehicles numMacro numMicro).2 in
  (is_Some init ↔
   InterferenceGraph.m_useSpatialGrid G = true ∧ (20 ≤ length vehicles)%nat ∧
   InterferenceGraph.m_gridInitialized G = false) ∧
  (init = None → G' = G) ∧
  (∀ grid, init = Some grid →
     InterferenceGraph.m_gridInitialized G' = true ∧
     maxRange grid = firstVehicleRange vehicles ∧
     numMacroAntennas grid ≠ 0 ∧ microPerMacro grid ≠ 0 ∧
     (numMacro ≠ 0 → numMacroAntennas grid = numMacro) ∧
     (numMicro ≠ 0 → microPerMacro grid = numMicro) ∧
     ∀ vehicles' numMacro' numMicro',
       initializeSpatialGrid G' vehicles' numMacro' numMicro' = (G', None)) ∧
  InterferenceGraph.m_adjacencyList G' = InterferenceGraph.m_adjacencyList G ∧
  InterferenceGraph.m_transitiveClosure G' = InterferenceGraph.m_transitiveClosure G.
Proof.
  cbn zeta.
  destruct (initializeSpatialGrid_cases G vehicles numMacro numMicro)
    as [[HG Hnone]|(Huse & Hlen & Hinit & -> & ->)].
  - rewrite HG. split; [|rewrite Hnone; by repeat split].
    split; [rewrite Hnone; by intros [? ?]|]. intros (Huse & Hlen & Hinit). exfalso.
    unfold initializeSpatialGrid in Hnone. rewrite Huse, Hinit in Hnone.
    cbn [negb orb] in Hnone. by rewrite (proj2 (Nat.ltb_ge _ _)) in Hnone by lia.
  - split; [split; [done | eauto]|]. split; [done|]. split; [|done].
    intros grid [= <-]. cbn [maxRange numMacroAntennas microPerMacro setGridInitialized
                            InterferenceGraph.m_gridInitialized].
    split; [done|]. split; [done|]. split; [|split; [|split; [|split]]].
    + destruct (Z.eqb_spec numMacro 0); [|done].
      by destruct (2000 <? length vehicles)%nat, (500 <? length vehicles)%nat.
    + destruct (Z.eqb_spec numMicro 0); [|done].
      by destruct (2000 <? length vehicles)%nat, (500 <? length vehicles)%nat.
    + intros Hne. by rewrite (proj2 (Z.eqb_neq _ _)).
    + intros Hne. by rewrite (proj2 (Z.eqb_neq _ _)).
    + intros vehicles' numMacro' numMicro'. unfold initializeSpatialGrid.
      cbn [setGridInitialized InterferenceGraph.m_useSpatialGrid
           InterferenceGraph.m_gridInitialized].
      rewrite Huse. cbn [negb orb]. by destruct (length vehicles' <? 20)%nat.
Qed.

(** ** Reset *)

(** X28. [reset] pauses the simulation, removes every vehicle and empties
    the graph, so that nothing communicates and later ticks dispatch no
    calculation; but it does not cancel a calculation in progress, whose
    result [onGraphCalculationFinished] still copies into the emptied graph. *)
Theorem reset_keeps_the_pending_calculation (s : Simulator) :
  m_vehicles (reset s) = [] ∧
  isRunning (reset s) = false ∧
  getVehicleCount (m_interferenceGraph (reset s)) = 0 ∧
  (∀ id1 id2, canCommunicate (m_interferenceGraph (reset s)) id1 id2 = false) ∧
  (∀ id1, getDirectNeighbors (m_interferenceGraph (reset s)) id1 = ∅) ∧
  m_calculationInProgress (reset s) = m_calculationInProgress s ∧
  (∀ fuel getMicroAntennaId microNeighbors elapsedMs r,
     tickTask (onTick fuel getMicroAntennaId microNeighbors elapsedMs (reset s) r) = None ∧
     tickCompletion (onTick fuel getMicroAntennaId microNeighbors elapsedMs (reset s) r)
       = Returned) ∧
  (∀ result,
     InterferenceGraph.m_adjacencyList
       (m_interferenceGraph (onGraphCalculationFinished result (reset s))) =
       InterferenceGraph.m_adjacencyList result ∧
     InterferenceGraph.m_transitiveClosure
       (m_interferenceGraph (onGraphCalculationFinished result (reset s))) =
       InterferenceGraph.m_transitiveClosure result ∧
     m_vehicles (onGraphCalculationFinished result (reset s)) = []).
Proof.
  split; [done|]. split; [unfold isRunning; cbn; apply andb_false_r|].
  split; [done|]. split; [done|]. split; [done|]. split; [done|]. split; [|done].
  intros fuel getMicroAntennaId microNeighbors elapsedMs r.
  unfold onTick, reset, pause, clearVehicles.
  cbn [withVehicles withPaused withInterferenceGraph m_vehicles graph updateVehicles
       m_calculationInProgress].
  destruct (m_calculationInProgress s); [done|]. cbn [negb andb].
  rewrite (bool_decide_eq_true_2 ([] = [])) by done. done.
Qed.

(** ** Collision avoidance *)

Lemma slowedSpeed_succ_r (k : nat) (speed : Q) :
  slowedSpeed (S k) speed = slowedSpeed k (speed * slowFactor)%Q.
Proof. exact (Nat.iter_succ_r k (λ speed, (speed * slowFactor)%Q) speed). Qed.

Lemma slowedSpeed_bounds (k : nat) (speed : Q) :
  (0 <= speed)%Q → (0 <= slowedSpeed k speed <= speed)%Q.
Proof.
  intros Hspeed. induction k as [|k IH].
  - cbn. lra.
  - change (slowedSpeed (S k) speed) with (slowedSpeed k speed * slowFactor)%Q.
    unfold slowFactor. lra.
Qed.

Lemma setSpeed_setSpeed a b v : setSpeed a (setSpeed b v) = setSpeed a v.
Proof. done. Qed.

Lemma setSpeed_speed v : setSpeed (Vehicule.speed v) v = v.
Proof. by destruct v. Qed.

Lemma avoidCollision_fold g neighbors v v0 :
  getPosition g v0 = getPosition g v →
  Vehicule.collisionDist v0 = Vehicule.collisionDist v →
  let v' :=
    fold_left
      (λ v n,
         if Qleb (calculateDist g v n) (Vehicule.collisionDist v)
         then setSpeed (Vehicule.speed v * slowFactor)%Q v else v)
      neighbors v0 in
  Vehicule.speed v' =
    slowedSpeed (length (tooClose g neighbors v)) (Vehicule.speed v0) ∧
  setSpeed (Vehicule.speed v0) v' = v0 ∧
  (tooClose g neighbors v = [] → v' = v0).
Proof.
  revert v0. induction neighbors as [|n l IH]; intros v0 Hpos Hdist; cbn [fold_left].
  - cbn zeta. split; [done|]. split; [apply setSpeed_speed | done].
  - cbn zeta. unfold tooClose. rewrite filter_cons. fold (tooClose g l v).
    assert (calculateDist g v0 n = calculateDist g v n) as Hsame
      by (unfold calculateDist; by rewrite Hpos).
    rewrite Hsame, Hdist.
    destruct (decide (Qleb (calculateDist g v n) (Vehicule.collisionDist v) = true))
      as [Hclose|Hfar].
    + rewrite Hclose.
      destruct (IH (setSpeed (Vehicule.speed v0 * slowFactor)%Q v0))
        as (Hspeed & Hrest & _); [done | done |].
      cbn zeta in *. split; [|split; [|done]].
      * rewrite Hspeed. cbn [setSpeed Vehicule.speed length].
        by rewrite slowedSpeed_succ_r.
      * apply (f_equal (setSpeed (Vehicule.speed v0))) in Hrest.
        by rewrite !setSpeed_setSpeed, setSpeed_speed in Hrest.
    + apply not_true_is_false in Hfar. rewrite Hfar. by apply IH.
Qed.

(** X29. [avoidCollision] changes nothing but the speed, on which it
    executes [speed *= slowFactor] once for every neighbour within the
    collision distance: the vehicle is unchanged when no neighbour is that
    close, a non-negative speed stays non-negative and never grows, and
    with a neighbour that close it is at most the speed times
    [slowFactor]. *)
Theorem avoidCollision_slows_once_per_close_neighbour (g : RoadGraph.t)
    (neighbors : list Vehicule.t) (v : Vehicule.t) :
  let v' := avoidCollision g neighbors v in
  setSpeed (Vehicule.speed v) v' = v ∧
  Vehicule.speed v' =
    slowedSpeed (length (tooClose g neighbors v)) (Vehicule.speed v) ∧
  (tooClose g neighbors v = [] → v' = v) ∧
  ((0 <= Vehicule.speed v)%Q →
   (0 <= Vehicule.speed v' <= Vehicule.speed v)%Q) ∧
  ((0 <= Vehicule.speed v)%Q → tooClose g neighbors v ≠ [] →
   (Vehicule.speed v' <= Vehicule.speed v * slowFactor)%Q).
Proof.
  cbn zeta. destruct (avoidCollision_fold g neighbors v v eq_refl eq_refl)
    as (Hspeed & Hrest & Hnone).
  cbn zeta in *. fold (avoidCollision g neighbors v) in Hspeed, Hrest, Hnone.
  split; [done|]. split; [done|]. split; [done|]. split.
  - intros Hv. rewrite Hspeed. by apply slowedSpeed_bounds.
  - intros Hv Hsome. rewrite Hspeed.
    destruct (tooClose g neighbors v) as [|n l]; [done|].
    cbn [length]. rewrite slowedSpeed_succ_r.
    apply slowedSpeed_bounds. unfold slowFactor. lra.
Qed.

End Model.

(** * The claims on the sample data *)

(** C1 as amended, on [rangeGatePair]: the distance is 75, the ranges are 100 and 50,
    and the edge is absent. *)
Lemma edge_iff_both_ranges_witness :
  ¬ adjacent
      (InterferenceGraph.m_adjacencyList
         (buildGraphFromSnapshots unitCos floorSqrt newInterferenceGraph rangeGatePair
            (Some (assembleAntennaInfo rangeGatePair ∅)))) 1 2.
Proof.
  refine (proj1 (proj2 (proj2
    (edge_iff_both_ranges unitCos floorSqrt newInterferenceGraph rangeGatePair ∅
       0%nat 1%nat _ _ _ _ eq_refl eq_refl _)) _ _ _)).
  - apply (bool_decide_unpack _). vm_compute. exact I.
  - vm_compute. discriminate.
  - unfold comparedInOrder. cbn. split; [lia|]. split; [lia|]. left.
    split; [reflexivity | lia].
  - reflexivity.
  - reflexivity.
  - vm_compute. reflexivity.
Defined.

(** C1 as stated, on [sharedIdTriple]: the antenna path takes the first two
    snapshots as a pair of one micro cell, they are 200 m apart with ranges
    of 100 m, and the edge between their ids 1 and 2 is in the adjacency, in
    both directions: it enters with the third snapshot, of id 1, which is
    50 m from the second. *)
Lemma shared_id_joins_beyond_range :
  let adjacency :=
    InterferenceGraph.m_adjacencyList
      (buildGraphFromSnapshots unitCos floorSqrt newInterferenceGraph sharedIdTriple
         (Some (assembleAntennaInfo sharedIdTriple ∅))) in
  ∃ vi vj,
    sharedIdTriple !! 0%nat = Some vi ∧ sharedIdTriple !! 1%nat = Some vj ∧
    comparedInOrder ∅ 0 1
      (VehicleSnapshot.microAntennaId vi) (VehicleSnapshot.microAntennaId vj) ∧
    let dy := ((VehicleSnapshot.lat vj - VehicleSnapshot.lat vi) * 111000)%Q in
    let dx := ((VehicleSnapshot.lon vj - VehicleSnapshot.lon vi) * 111000 *
               unitCos (VehicleSnapshot.lat vi * M_PI / 180))%Q in
    let d := floorSqrt (dx * dx + dy * dy) in
    (d == 200)%Q ∧
    (VehicleSnapshot.transmissionRange vi == 100)%Q ∧
    (VehicleSnapshot.transmissionRange vj == 100)%Q ∧
    adjacent adjacency (VehicleSnapshot.id vi) (VehicleSnapshot.id vj) ∧
    adjacent adjacency (VehicleSnapshot.id vj) (VehicleSnapshot.id vi) ∧
    ¬ (adjacent adjacency (VehicleSnapshot.id vi) (VehicleSnapshot.id vj) ↔
       (d <= VehicleSnapshot.transmissionRange vi)%Q ∧
       (d <= VehicleSnapshot.transmissionRange vj)%Q).
Proof.
  intros adjacency. eexists _, _. split; [reflexivity|]. split; [reflexivity|].
  assert (adjacent adjacency 1 2) as H12.
  { exists {[ 2 ]}. split; [vm_compute; reflexivity | set_solver]. }
  assert (adjacent adjacency 2 1) as H21.
  { exists {[ 1 ]}. split; [vm_compute; reflexivity | set_solver]. }
  split.
  { unfold comparedInOrder. cbn. split; [lia|]. split; [lia|]. left.
    split; [reflexivity | lia]. }
  cbv zeta. split; [vm_compute; reflexivity|]. split; [reflexivity|].
  split; [reflexivity|]. split; [exact H12|]. split; [exact H21|].
  intros [Hgate _]. destruct (Hgate H12) as [Hle _]. vm_compute in Hle. by apply Hle.
Qed.

(** C2 on [chain], built without antenna info: vehicle 1 has a closure
    entry, which does not hold 1. *)
Lemma closure_is_reachability_witness :
  ∃ reachable,
    InterferenceGraph.m_transitiveClosure
      (buildGraphFromSnapshots unitCos floorSqrt
         (enableTransitiveClosure true newInterferenceGraph) chain None) !! 1
    = Some reachable ∧ 1 ∉ reachable.
Proof.
  destruct (closure_is_reachability unitCos floorSqrt
              (enableTransitiveClosure true newInterferenceGraph) chain None 1)
    as (reachable & Hlookup & _ & Hself).
  - reflexivity.
  - eexists. vm_compute. reflexivity.
  - exists reachable. split; [exact Hlookup | exact Hself].
Defined.

(** C7 on [chain], built without antenna info: ten comparisons. *)
Lemma fallback_compares_all_pairs_witness :
  InterferenceGraph.m_lastComparisons
    (buildGraphFromSnapshots unitCos floorSqrt newInterferenceGraph chain None) = 10.
Proof.
  refine (proj1 (proj2 (proj2
    (fallback_compares_all_pairs unitCos floorSqrt newInterferenceGraph chain None _ _)))).
  - discriminate.
  - left. reflexivity.
Defined.



(** C10 on [chain]: with the closure disabled vehicles 1 and 2 are direct
    neighbours and [canCommunicate] answers false. *)
Lemma canCommunicate_reads_closure_only_witness :
  canCommunicate
    (buildGraphFromSnapshots unitCos floorSqrt newInterferenceGraph chain None) 1 2
  = false ∧
  canCommunicate
    (buildGraph zeroSin unitCos floorSqrt zeroAtan2 twoVertexRoad (λ _, [])
       newInterferenceGraph [Some carAtStart]) 1 2
  = false ∧
  canCommunicate newInterferenceGraph 1 2 = false.
Proof.
  split; [|split].
  - exact (proj1 (canCommunicate_reads_closure_only zeroSin unitCos floorSqrt zeroAtan2)
             newInterferenceGraph chain None 1 2 eq_refl).
  - exact (proj1 (proj2 (canCommunicate_reads_closure_only zeroSin unitCos floorSqrt
                           zeroAtan2))
             twoVertexRoad (λ _, []) newInterferenceGraph [Some carAtStart] 1 2 eq_refl).
  - exact (proj2 (proj2 (canCommunicate_reads_closure_only zeroSin unitCos floorSqrt
                           zeroAtan2))
             newInterferenceGraph 1 2 eq_refl).
Defined.

Example direct_neighbours_cannot_communicate :
  adjacent
    (InterferenceGraph.m_adjacencyList
       (buildGraphFromSnapshots unitCos floorSqrt newInterferenceGraph chain None)) 1 2 ∧
  canCommunicate
    (buildGraphFromSnapshots unitCos floorSqrt newInterferenceGraph chain None) 1 2
  = false.
Proof.
  split; [|reflexivity]. exists {[2]}. split; [by vm_compute|].
  by apply elem_of_singleton.
Qed.

(** Scenario S4 of the specification on [chain], built without antenna
    info: four consecutive edges, and a closure that joins every vehicle to
    the four others. *)
Example chain_adjacency_and_closure :
  let G := buildGraphFromSnapshots unitCos floorSqrt
             (enableTransitiveClosure true newInterferenceGraph) chain None in
  InterferenceGraph.m_adjacencyList G =
    {[ 1 := {[ 2 ]}; 2 := {[ 1; 3 ]}; 3 := {[ 2; 4 ]}; 4 := {[ 3; 5 ]}; 5 := {[ 4 ]} ]} ∧
  InterferenceGraph.m_transitiveClosure G =
    {[ 1 := {[ 2; 3; 4; 5 ]}; 2 := {[ 1; 3; 4; 5 ]}; 3 := {[ 1; 2; 4; 5 ]};
       4 := {[ 1; 2; 3; 5 ]}; 5 := {[ 1; 2; 3; 4 ]} ]} ∧
  InterferenceGraph.m_lastComparisons G = 10.
Proof. by vm_compute. Qed.

(** The same vehicles through the antenna path, with the antenna info of the
    driver: vehicle 4 has no micro cell, and loses its two edges. *)
Example chain_through_antennas :
  InterferenceGraph.m_adjacencyList
    (calculateGraphAsync unitCos floorSqrt
       (mkGraphCalculation chain false (assembleAntennaInfo chain twoCells))) =
  {[ 1 := {[ 2 ]}; 2 := {[ 1; 3 ]}; 3 := {[ 2 ]}; 4 := ∅; 5 := ∅ ]}.
Proof. by vm_compute. Qed.

(** C4 as stated, on [carAtStart]: a step of one second takes the vehicle
    over its 10 m edge to the goal; the call returns with the edge length
    reset to 0 and the position at 14. *)
Lemma position_exceeds_reset_length :
  (update zeroAtan2 5 twoVertexRoad 1%Q carAtStart zeroRng).1.1 = Returned ∧
  (Vehicule.positionOnEdge
     (update zeroAtan2 5 twoVertexRoad 1%Q carAtStart zeroRng).1.2 == 14)%Q ∧
  (Vehicule.edgeLength
     (update zeroAtan2 5 twoVertexRoad 1%Q carAtStart zeroRng).1.2 == 0)%Q ∧
  ¬ (0 <= Vehicule.positionOnEdge
            (update zeroAtan2 5 twoVertexRoad 1%Q carAtStart zeroRng).1.2
       <= Vehicule.edgeLength
            (update zeroAtan2 5 twoVertexRoad 1%Q carAtStart zeroRng).1.2)%Q.
Proof.
  split; [by vm_compute|]. split; [by vm_compute|]. split; [by vm_compute|].
  intros [_ H]. vm_compute in H. by apply H.
Qed.

(** C4 as amended, on [carAtStart] and two steps of 0.5 s and 0.1 s. *)
Lemma position_within_edge_unless_reset_witness :
  (Vehicule.positionOnEdge
     (updates zeroAtan2 5 twoVertexRoad [0.5%Q; 0.1%Q] carAtStart zeroRng).1.2 <
   Vehicule.edgeLength
     (updates zeroAtan2 5 twoVertexRoad [0.5%Q; 0.1%Q] carAtStart zeroRng).1.2)%Q ∨
  Vehicule.edgeLength
    (updates zeroAtan2 5 twoVertexRoad [0.5%Q; 0.1%Q] carAtStart zeroRng).1.2 = 0%Q.
Proof.
  refine (proj2 (position_within_edge_unless_reset zeroAtan2 5 twoVertexRoad
                   [0.5%Q; 0.1%Q] carAtStart zeroRng _ _ _ _) _).
  - vm_compute. discriminate.
  - vm_compute. discriminate.
  - repeat constructor; vm_compute; discriminate.
  - discriminate.
  - vm_compute. reflexivity.
Defined.

(** C8. On binary64 numbers the heading block of [update] takes the heading
    out of [0, 360).  A vehicle of heading 0 and smoothing factor 0.15 moves
    by dLat = 1e-5 and dLon = -3e-20; for the angle -3e-15 rad, and for each
    of the two binary64 numbers next to it, the target is just below 360,
    the difference and 0.15 times the difference are small and negative,
    the test [currentHeading < 0] adds 360, the sum rounds to 360, and the
    test [currentHeading >= 360] is in the [else] branch: the heading is
    360. *)
Theorem heading_reaches_360_on_doubles :
  Forall
    (λ angleRad,
       let currentHeading :=
         (updateHeadingDouble 1e-5 (-3e-20) angleRad 0 0 0.15).2 in
       currentHeading = 360%float ∧ (currentHeading <? 360)%float = false)
    [PrimFloat.next_down (-3e-15); (-3e-15)%float; PrimFloat.next_up (-3e-15)] ∧
  ((0 <=? 0)%float && (0 <? 360)%float = true).
Proof.
  split; [|vm_compute; reflexivity].
  repeat (apply List.Forall_cons; [split; vm_compute; reflexivity|]). apply List.Forall_nil.
Qed.

(** The exact heading on [carAtStart] and a step of 0.5 s. *)
Lemma heading_stays_normalised_witness :
  (0 <= Vehicule.currentHeading
          (update zeroAtan2 5 twoVertexRoad 0.5%Q carAtStart zeroRng).1.2 < 360)%Q.
Proof.
  refine (proj1 (heading_stays_normalised zeroAtan2 5 twoVertexRoad 0.5%Q
                   carAtStart zeroRng _ _ _)).
  - intros y x. split; vm_compute; discriminate.
  - reflexivity.
  - split; [vm_compute; discriminate | reflexivity].
Defined.

(** C5 as stated, on [oneCarSimulator]: a tick that fires a second after
    the last one advances the vehicles by 1 s, ten times the bound of twice
    the interval of 50 ms. *)
Lemma late_tick_exceeds_twice_interval :
  (ticked (onTick zeroAtan2 5 (λ _, 0%Z) ∅ 1000%Z oneCarSimulator zeroRng) == 1)%Q ∧
  (boundedTickDelta 1000%Z oneCarSimulator == 0.1)%Q ∧
  ¬ (ticked (onTick zeroAtan2 5 (λ _, 0%Z) ∅ 1000%Z oneCarSimulator zeroRng) ==
     boundedTickDelta 1000%Z oneCarSimulator)%Q ∧
  ¬ (ticked (onTick zeroAtan2 5 (λ _, 0%Z) ∅ 1000%Z oneCarSimulator zeroRng) <=
     2 * (inject_Z (m_tickIntervalMs oneCarSimulator) / 1000) *
     m_speedMultiplier oneCarSimulator)%Q.
Proof.
  split; [by vm_compute|]. split; [by vm_compute|].
  split; intros H; vm_compute in H; [discriminate | by apply H].
Qed.

(** C5 as amended, on [oneCarSimulator]: a tick that fires a second after
    the last one advances the vehicles by 1 s with the interval of 50 ms and
    with an interval of 5 s. *)
Lemma tick_delta_is_elapsed_time_witness :
  (ticked (onTick zeroAtan2 5 (λ _, 0%Z) ∅ 1000%Z oneCarSimulator zeroRng) == 1)%Q ∧
  (ticked (onTick zeroAtan2 5 (λ _, 0%Z) ∅ 1000%Z
             (withTickIntervalMs 5000 oneCarSimulator) zeroRng) == 1)%Q.
Proof.
  pose proof (tick_delta_is_elapsed_time zeroAtan2 5 (λ _, 0) ∅ 1000
                oneCarSimulator zeroRng) as (Hhere & _ & Hother).
  destruct (Hother 5000) as [Hthere _]. cbv zeta in Hhere, Hthere.
  rewrite Hhere, Hthere. split; reflexivity.
Defined.

(** C6 on [hundredCarSimulator]: the counts 0 and 0 that [placeAntennas]
    receives reach the grid as they are, where [initializeSpatialGrid] on the
    same vehicles replaces them by 10 and 10. *)
Theorem placeAntennas_keeps_zero_counts :
  (placeAntennas 0 0 hundredCarSimulator).2 = Some (mkGridInitialization 500 0 0) ∧
  (initializeSpatialGrid newInterferenceGraph (m_vehicles hundredCarSimulator) 0 0).2
  = Some (mkGridInitialization 500 10 10).
Proof. split; reflexivity. Qed.

(** * The further properties on the sample data *)

(** The graph of [chain] with the closure, without antenna info and with the
    antenna info of the driver, is a graph built with the closure enabled. *)
Lemma chain_builtWithClosure antennaInfo :
  builtWithClosure zeroSin unitCos floorSqrt zeroAtan2
    (buildGraphFromSnapshots unitCos floorSqrt
       (enableTransitiveClosure true newInterferenceGraph) chain antennaInfo).
Proof.
  left. exists (enableTransitiveClosure true newInterferenceGraph), chain, antennaInfo.
  split; reflexivity.
Defined.

(** X1 on [chain]: five vehicles. *)
Lemma adjacency_keys_are_snapshot_ids_witness :
  getVehicleCount
    (buildGraphFromSnapshots unitCos floorSqrt newInterferenceGraph chain None) = 5.
Proof.
  refine (proj2 (proj2 (adjacency_keys_are_snapshot_ids unitCos floorSqrt
                          newInterferenceGraph chain None)) _ _).
  - apply (bool_decide_unpack _). vm_compute. exact I.
  - vm_compute. reflexivity.
Defined.

(** X2 on [chain]: vehicles 1 and 5 reach each other. *)
Lemma canCommunicate_symmetric_witness :
  canCommunicate
    (buildGraphFromSnapshots unitCos floorSqrt
       (enableTransitiveClosure true newInterferenceGraph) chain None) 1 5 =
  canCommunicate
    (buildGraphFromSnapshots unitCos floorSqrt
       (enableTransitiveClosure true newInterferenceGraph) chain None) 5 1.
Proof.
  exact (canCommunicate_symmetric zeroSin unitCos floorSqrt zeroAtan2 _ 1 5
           (chain_builtWithClosure None)).
Defined.

(** X3 on [chain]: the neighbours 1 and 2 communicate. *)
Lemma neighbours_can_communicate_witness :
  canCommunicate
    (buildGraphFromSnapshots unitCos floorSqrt
       (enableTransitiveClosure true newInterferenceGraph) chain None) 1 2 = true.
Proof.
  refine (neighbours_can_communicate zeroSin unitCos floorSqrt zeroAtan2 _ 1 2
            (chain_builtWithClosure None) _ _).
  - exists {[2]}. split; [vm_compute; reflexivity | apply elem_of_singleton; reflexivity].
  - discriminate.
Defined.

(** X4 on [chain]: 1 reaches 2 and 2 reaches 5, so 1 reaches 5. *)
Lemma canCommunicate_transitive_witness :
  canCommunicate
    (buildGraphFromSnapshots unitCos floorSqrt
       (enableTransitiveClosure true newInterferenceGraph) chain None) 1 5 = true.
Proof.
  refine (canCommunicate_transitive zeroSin unitCos floorSqrt zeroAtan2 _ 1 2 5
            (chain_builtWithClosure None) _ _ _).
  - vm_compute. reflexivity.
  - vm_compute. reflexivity.
  - discriminate.
Defined.

(** X5 on [chain]: no vehicle reaches itself. *)
Lemma closure_within_graph_witness :
  canCommunicate
    (buildGraphFromSnapshots unitCos floorSqrt
       (enableTransitiveClosure true newInterferenceGraph) chain None) 3 3 = false.
Proof.
  exact (proj1 (proj2 (closure_within_graph zeroSin unitCos floorSqrt zeroAtan2 _
                         (chain_builtWithClosure None))) 3).
Defined.

(** X6 on [chain] through the antennas: vehicle 4, which has no cell and so
    no neighbour, reaches no one. *)
Lemma isolated_vehicle_reaches_nothing_witness :
  getReachableVehicles
    (buildGraphFromSnapshots unitCos floorSqrt
       (enableTransitiveClosure true newInterferenceGraph) chain
       (Some (assembleAntennaInfo chain twoCells))) 4 = ∅.
Proof.
  refine (proj1 (isolated_vehicle_reaches_nothing zeroSin unitCos floorSqrt zeroAtan2
                   _ 4 (chain_builtWithClosure _) _)).
  vm_compute. reflexivity.
Defined.

(** X7 on the two vehicles of [twoVertexRoad]: one comparison. *)
Lemma classic_build_joins_pairs_in_range_witness :
  2 * InterferenceGraph.m_lastComparisons
        (buildGraph zeroSin unitCos floorSqrt zeroAtan2 twoVertexRoad (λ _, [])
           newInterferenceGraph [Some carAtStart; Some carAtGoal]) = 2 * (2 - 1).
Proof.
  refine (proj2 (classic_build_joins_pairs_in_range zeroSin unitCos floorSqrt zeroAtan2
                   twoVertexRoad (λ _, []) newInterferenceGraph
                   [Some carAtStart; Some carAtGoal] _) _).
  - right. cbn. lia.
  - discriminate.
Defined.

(** X8 on the hundred vehicles, each with the next id as its only grid
    neighbour: vehicle 3 is not its own neighbour. *)
Lemma grid_build_joins_nearby_in_range_witness :
  ¬ adjacent
      (InterferenceGraph.m_adjacencyList
         (buildGraph zeroSin unitCos floorSqrt zeroAtan2 twoVertexRoad (λ i, [i + 1])
            newInterferenceGraph (m_vehicles hundredCarSimulator))) 3 3.
Proof.
  refine (proj2 (grid_build_joins_nearby_in_range zeroSin unitCos floorSqrt zeroAtan2
                   twoVertexRoad (λ i, [i + 1]) newInterferenceGraph
                   (m_vehicles hundredCarSimulator) eq_refl _) 3).
  vm_compute. lia.
Defined.

(** X9 on a vector with a null pointer: the keys are the ids 1 and 2. *)
Lemma buildGraph_registers_present_vehicles_witness :
  dom (InterferenceGraph.m_adjacencyList
         (buildGraph zeroSin unitCos floorSqrt zeroAtan2 twoVertexRoad (λ _, [])
            newInterferenceGraph [Some carAtStart; None; Some carAtGoal])) =
  list_to_set
    (Vehicule.id <$> presentVehicles [Some carAtStart; None; Some carAtGoal]).
Proof.
  exact (proj1 (buildGraph_registers_present_vehicles zeroSin unitCos floorSqrt zeroAtan2
                  twoVertexRoad (λ _, []) newInterferenceGraph
                  [Some carAtStart; None; Some carAtGoal])).
Defined.

(** X10 on [chain] with the cells of [twoCells]: vehicle 3 is not its own
    neighbour. *)
Lemma task_joins_only_compared_cells_witness :
  ¬ adjacent
      (InterferenceGraph.m_adjacencyList
         (calculateGraphAsync unitCos floorSqrt
            (mkGraphCalculation chain true (assembleAntennaInfo chain twoCells)))) 3 3.
Proof.
  refine (proj2 (task_joins_only_compared_cells unitCos floorSqrt chain twoCells true _)
            _ 3).
  - vm_compute. discriminate.
  - apply (bool_decide_unpack _). vm_compute. exact I.
Defined.

(** X11 on [chain]: the first vehicle is listed under its cell 0. *)
Lemma vehiclesByAntenna_partitions_snapshots_witness :
  ∃ L, vehiclesByAntenna chain !! 0 = Some L ∧ 0 ∈ L.
Proof.
  refine (proj1 (proj2 (vehiclesByAntenna_partitions_snapshots chain _) 0%nat
                   (VehicleSnapshot.mk 1 0%Q 0%Q 100%Q 0) eq_refl) _).
  - vm_compute. discriminate.
  - vm_compute. discriminate.
Defined.

(** X12 on [carAtStart]: the road to vertex 1 is fresh, and is taken. *)
Lemma pickNextEdge_prefers_fresh_edges_witness :
  freshEdge twoVertexRoad carAtStart
    (Vehicule.currEdge (pickNextEdge twoVertexRoad carAtStart zeroRng).1) ∧
  Vehicule.stuckCounter (pickNextEdge twoVertexRoad carAtStart zeroRng).1 = 0.
Proof.
  refine (proj1 (proj2 (pickNextEdge_prefers_fresh_edges twoVertexRoad carAtStart zeroRng))
            _).
  exists (Edge.mk 0%nat 1%nat 10%Q true "primary").
  split; [split|split].
  - apply list_elem_of_here.
  - reflexivity.
  - discriminate.
  - apply not_elem_of_nil.
Defined.

(** X13 on [carAtStart] and a step of half a second: the history stays
    within [MAX_HISTORY]. *)
Lemma update_keeps_parameters_and_history_witness :
  (length (Vehicule.recentVertices
             (update zeroAtan2 5 twoVertexRoad 0.5%Q carAtStart zeroRng).1.2)
   ≤ MAX_HISTORY)%nat.
Proof.
  refine (proj2 (proj2 (proj2 (proj2 (proj2
    (update_keeps_parameters_and_history zeroAtan2 5 twoVertexRoad 0.5%Q
       carAtStart zeroRng))))) _).
  vm_compute. lia.
Defined.

(** X15 on [carPastTheEdge]: 25 m along an edge of 10 m, the parameter
    is 1. *)
Lemma getPosition_clamps_the_parameter_witness :
  ∃ t : Q,
    t = 1%Q ∧
    getPosition twoVertexRoad carPastTheEdge =
    ((0 + t * (0.0001 - 0))%Q, (0 + t * (0 - 0))%Q).
Proof.
  destruct (proj2 (getPosition_clamps_the_parameter twoVertexRoad carPastTheEdge))
    as (t & _ & _ & _ & Hone & Hpos).
  - vm_compute. reflexivity.
  - exists t. split; [apply Hone; vm_compute; reflexivity | exact Hpos].
Defined.

(** X16 on [ringRoad]: a second at 14 m/s over roads of 10 m returns within
    three iterations. *)
Lemma update_returns_on_roads_with_length_witness :
  (update zeroAtan2 3 ringRoad 1%Q carAtStart zeroRng).1.1 = Returned.
Proof.
  refine (update_returns_on_roads_with_length zeroAtan2 2 ringRoad 10%Q 1%Q
            carAtStart zeroRng _ _ _ _ _ _ _).
  - vm_compute. reflexivity.
  - intros e He _. apply list_elem_of_In in He.
    destruct He as [<-|[<-|[]]]; vm_compute; discriminate.
  - intros e He _. apply list_elem_of_In in He.
    destruct He as [<-|[<-|[]]]; vm_compute; reflexivity.
  - intros _. vm_compute. reflexivity.
  - intros _. vm_compute. reflexivity.
  - vm_compute. discriminate.
  - vm_compute. discriminate.
Defined.

(** X17 on [zeroLoopRoad]: the vehicle circles on the road of length 0
    through any budget. *)
Lemma update_never_returns_among_zero_length_edges_witness :
  (update zeroAtan2 1000 zeroLoopRoad 1%Q carAtStart zeroRng).1.1 = OutOfFuel.
Proof.
  refine (update_never_returns_among_zero_length_edges zeroAtan2 1000 zeroLoopRoad
            (λ u, u = 0%nat) 1%Q carAtStart zeroRng _ eq_refl _ _).
  - intros u ->. split; [discriminate|]. split; [vm_compute; reflexivity|].
    intros e He _. apply list_elem_of_In in He. destruct He as [<-|[]].
    split; [vm_compute; discriminate | reflexivity].
  - vm_compute. discriminate.
  - vm_compute. discriminate.
Defined.

(** X18 on [busySimulator]: a tick during a calculation starts none. *)
Lemma one_calculation_in_flight_witness :
  tickTask (onTick zeroAtan2 5 (λ _, 0%Z) ∅ 1000%Z busySimulator zeroRng) = None ∧
  m_calculationInProgress
    (tickSimulator (onTick zeroAtan2 5 (λ _, 0%Z) ∅ 1000%Z busySimulator zeroRng)) = true.
Proof.
  exact (proj1 (one_calculation_in_flight zeroAtan2 5 (λ _, 0%Z) ∅ 1000%Z
                  busySimulator zeroRng) eq_refl).
Defined.

(** X19 on [oneCarSimulator]: the tick dispatches a task; published after a
    [reset], which has removed the vehicles, its graph still has the id of
    the vehicle of the tick as its key. *)
Lemma published_graph_covers_the_dispatching_fleet_witness :
  ∃ task,
    tickTask (onTick zeroAtan2 5 (λ _, 0%Z) ∅ 1000%Z oneCarSimulator zeroRng) = Some task ∧
    dom (InterferenceGraph.m_adjacencyList
           (m_interferenceGraph
              (onGraphCalculationFinished (calculateGraphAsync unitCos floorSqrt task)
                 (reset
                    (tickSimulator
                       (onTick zeroAtan2 5 (λ _, 0%Z) ∅ 1000%Z oneCarSimulator
                          zeroRng)))))) =
    list_to_set (Vehicule.id <$> presentVehicles (m_vehicles oneCarSimulator)).
Proof.
  destruct (tickTask (onTick zeroAtan2 5 (λ _, 0%Z) ∅ 1000%Z oneCarSimulator zeroRng))
    as [task|] eqn:Htask.
  - exists task. split; [reflexivity|].
    exact (proj1
      (published_graph_covers_the_dispatching_fleet unitCos floorSqrt zeroAtan2 5
         (λ _, 0%Z) ∅ 1000%Z oneCarSimulator zeroRng task
         (reset (tickSimulator
                   (onTick zeroAtan2 5 (λ _, 0%Z) ∅ 1000%Z oneCarSimulator zeroRng)))
         Htask)).
  - vm_compute in Htask. discriminate.
Defined.

(** X20 on [oneCarSimulator]: a vehicle is created, with the id 2. *)
Lemma createVehicleNear_takes_nearest_placeable_vertex_witness :
  ∃ car,
    (createVehicleNear 0%nat 0%Q 0.0001%Q oneCarSimulator zeroRng).1.2 = Some car ∧
    Vehicule.id car = 2.
Proof.
  destruct (proj2 (createVehicleNear_takes_nearest_placeable_vertex 0%nat 0%Q 0.0001%Q
                     oneCarSimulator zeroRng))
    as (car & Hcar & _ & _ & Hid & _).
  - discriminate.
  - exists car. split; [exact Hcar | exact Hid].
Defined.

(** X21 on [hundredCarSimulator]: a count of 40 keeps the first 40. *)
Lemma setVehicleCount_keeps_a_prefix_witness :
  setVehicleCount 0 0%nat 40 hundredCarSimulator zeroRng =
  Some (Returned,
        (if 40 =? Z.of_nat (length (m_vehicles hundredCarSimulator))
         then hundredCarSimulator
         else withVehicles (take (Z.to_nat 40) (m_vehicles hundredCarSimulator))
                hundredCarSimulator),
        zeroRng).
Proof.
  refine (setVehicleCount_keeps_a_prefix 0 0%nat 40 hundredCarSimulator zeroRng _ _ _ _).
  - apply (bool_decide_unpack _). vm_compute. exact I.
  - vm_compute. reflexivity.
  - vm_compute. discriminate.
  - vm_compute. reflexivity.
Defined.

(** X22 on [oneCarSimulator]: a count of 3 appends vehicles. *)
Lemma setVehicleCount_appends_fresh_vehicles_witness :
  ∃ c s' r' (new : list Vehicule.t),
    setVehicleCount 0 0%nat 3 oneCarSimulator zeroRng = Some (c, s', r') ∧
    m_vehicles s' = m_vehicles oneCarSimulator ++ (Some <$> new) ∧
    m_nextVehicleId s' = m_nextVehicleId oneCarSimulator + Z.of_nat (length new).
Proof.
  destruct (setVehicleCount_appends_fresh_vehicles 0 0%nat 3 oneCarSimulator zeroRng)
    as (c & s' & r' & new & Hcall & Hvehicles & Hnext & _).
  - vm_compute. split; reflexivity.
  - vm_compute. discriminate.
  - vm_compute. reflexivity.
  - exists c, s', r', new. split; [exact Hcall|]. split; [exact Hvehicles | exact Hnext].
Defined.

(** The ids of [oneCarSimulator] are fresh. *)
Lemma oneCarSimulator_freshIds : freshIds oneCarSimulator.
Proof.
  split.
  - apply (bool_decide_unpack _). vm_compute. exact I.
  - intros v Hv. apply list_elem_of_singleton in Hv. injection Hv as ->.
    vm_compute. reflexivity.
Defined.

(** X23 on [oneCarSimulator]: the ids stay fresh when a vehicle is created. *)
Lemma created_vehicles_have_distinct_ids_witness :
  freshIds (createVehicleNear 0%nat 0%Q 0.0001%Q oneCarSimulator zeroRng).1.1.
Proof.
  refine (proj1 created_vehicles_have_distinct_ids 0%nat 0%Q 0.0001%Q oneCarSimulator
            zeroRng oneCarSimulator_freshIds _ _).
  - vm_compute. discriminate.
  - vm_compute. reflexivity.
Defined.

(** X24 on [oneCarSimulator], whose vehicle has the id 1: [start] has an
    outcome, with 2 as the next id; with a null pointer in the vector it has
    none. *)
Lemma start_sets_next_id_after_largest_witness :
  (∃ s' init, start 50 oneCarSimulator = Some (s', init) ∧ m_nextVehicleId s' = 2) ∧
  start 50 (withVehicles [None] oneCarSimulator) = None.
Proof.
  split.
  - destruct (start 50 oneCarSimulator) as [[s' init]|] eqn:Hstart.
    + exists s', init. split; [reflexivity|].
      destruct (proj2 (start_sets_next_id_after_largest 50 oneCarSimulator) s' init Hstart)
        as (_ & _ & _ & _ & _ & Hnext).
      assert (∀ v, Some v ∈ m_vehicles oneCarSimulator → Vehicule.id v < 2 ^ 31 - 1)
        as Hbound.
      { intros v Hv. apply list_elem_of_singleton in Hv. injection Hv as ->.
        vm_compute. reflexivity. }
      assert (m_vehicles oneCarSimulator ≠ []) as Hne by discriminate.
      destruct (Hnext Hne Hbound) as (maxId & -> & Hzero & Hle & [->|(v & Hv & <-)] & _).
      * specialize (Hle carAtStart (list_elem_of_here _ _)). vm_compute in Hle.
        exfalso. by apply Hle.
      * apply list_elem_of_singleton in Hv. injection Hv as ->. reflexivity.
    + vm_compute in Hstart. discriminate.
  - refine (proj2 (proj1 (start_sets_next_id_after_largest 50
                            (withVehicles [None] oneCarSimulator))) _).
    apply list_elem_of_here.
Defined.

(** X25 on [footpathSimulator]: no vehicle can be added. *)
Lemma setVehicleCount_never_returns_without_valid_roads_witness :
  ∃ r', setVehicleCount 1000 0%nat 1 footpathSimulator zeroRng =
        Some (OutOfFuel, footpathSimulator, r').
Proof.
  refine (setVehicleCount_never_returns_without_valid_roads 1000 0%nat 1
            footpathSimulator zeroRng _ _ _).
  - discriminate.
  - intros u Hu. cbn in Hu.
    destruct u as [|[|u]]; [split; reflexivity | split; reflexivity | lia].
  - vm_compute. split; reflexivity.
Defined.

(** X26 on [chain]: vehicle 1 is not among the vehicles it reaches. *)
Lemma accessors_agree_witness :
  1 ∉ getReachableVehicles
        (buildGraphFromSnapshots unitCos floorSqrt
           (enableTransitiveClosure true newInterferenceGraph) chain None) 1.
Proof.
  exact (proj2 (proj2 (proj2 (proj2 (proj2
    (accessors_agree zeroSin unitCos floorSqrt zeroAtan2 _ 1 1))))
    (chain_builtWithClosure None))).
Defined.

(** X27 on the hundred vehicles and counts of 0: the grid is initialised,
    and the graph is marked. *)
Lemma initializeSpatialGrid_runs_once_witness :
  is_Some (initializeSpatialGrid newInterferenceGraph
             (m_vehicles hundredCarSimulator) 0 0).2.
Proof.
  refine (proj2 (proj1 (initializeSpatialGrid_runs_once newInterferenceGraph
                          (m_vehicles hundredCarSimulator) 0 0)) _).
  split; [reflexivity|]. split; [vm_compute; lia | reflexivity].
Defined.

(** X29 on [carAtStart] with [carAtGoal] as its neighbour. *)
Lemma avoidCollision_slows_once_per_close_neighbour_witness :
  (0 <= Vehicule.speed
          (avoidCollision zeroSin unitCos floorSqrt zeroAtan2 twoVertexRoad
             [carAtGoal] carAtStart) <= 14)%Q.
Proof.
  refine (proj1 (proj2 (proj2 (proj2
    (avoidCollision_slows_once_per_close_neighbour zeroSin unitCos floorSqrt zeroAtan2
       twoVertexRoad [carAtGoal] carAtStart)))) _).
  vm_compute. discriminate.
Defined.
